(** * S3renity: batch operations over the objects of an S3 prefix

    A shallow embedding of [src/index.js] and the properties of its batch
    iteration engine: the key resolver, the paginated listing, the record
    splitter and the operations [forEach], [map], [reduce], [filter] and
    [join].

    - JavaScript strings are [string]s; the methods the source calls on
      them ([indexOf], [lastIndexOf], [substr], [split], [join]) are
      written out with the corner cases of the language (a missing match
      is [-1], [substr] clamps its arguments, [join] on an undefined
      separator uses a comma).
    - A promise is modelled by the way it settles, and a method that
      returns one by a computation that yields this settlement together
      with the trace of what it did: the requests it sent to the store and
      the calls of the user function, each with the moment it was issued
      and the moment it settled.
    - The store is outside the repository.  Its answers are parameters,
      and may depend on everything that happened before.
    - The recursion of [list] over the pages is bounded by a number of
      rounds; the other recursions follow the list of keys. *)

From Stdlib Require Import String Ascii List ZArith Lia Bool.
From Stdlib Require Import DecimalString.
Import ListNotations.

Open Scope string_scope.

(** ** JavaScript values *)

(** The values a user function may return or throw, and the error objects
    the module creates itself.  Numbers are restricted to integers. *)
Inductive js_value : Type :=
| VUndefined
| VNull
| VBool (b : bool)
| VNum (n : Z)
| VStr (s : string)
| VError (name message : string).

Definition value_eq_dec (a b : js_value) : {a = b} + {a <> b}.
Proof.
  decide equality; auto using Bool.bool_dec, Z.eq_dec, string_dec.
Defined.

(** [if (v)]: the conversion of a value to a boolean. *)
Definition truthy (v : js_value) : bool :=
  match v with
  | VUndefined | VNull => false
  | VBool b => b
  | VNum n => negb (n =? 0)%Z
  | VStr s => negb (s =? "")
  | VError _ _ => true
  end.

(** [typeof v != 'boolean'] *)
Definition not_boolean (v : js_value) : bool :=
  match v with
  | VBool _ => false
  | _ => true
  end.

(** [String(v)] *)
Definition toString (v : js_value) : string :=
  match v with
  | VUndefined => "undefined"
  | VNull => "null"
  | VBool true => "true"
  | VBool false => "false"
  | VNum n => NilZero.string_of_int (Z.to_int n)
  | VStr s => s
  | VError name message =>
      if message =? "" then name else name ++ ": " ++ message
  end.

Definition TypeError (message : string) : js_value := VError "TypeError" message.
Definition ReferenceError (message : string) : js_value :=
  VError "ReferenceError" message.
Definition Error (message : string) : js_value := VError "Error" message.

(** ** String methods *)

(** The line feed, written ['\n'] in the source, and the double quote. *)
Definition newline : string := String (ascii_of_nat 10) EmptyString.
Definition dquote : string := String (ascii_of_nat 34) EmptyString.

(** [s.indexOf(searchString)] *)
Definition String_indexOf (s searchString : string) : Z :=
  match String.index 0 searchString s with
  | Some n => Z.of_nat n
  | None => (-1)%Z
  end.

Fixpoint last_index (searchString s : string) : option nat :=
  match s with
  | EmptyString => if String.prefix searchString s then Some 0 else None
  | String _ s' =>
      match last_index searchString s' with
      | Some n => Some (S n)
      | None => if String.prefix searchString s then Some 0 else None
      end
  end.

(** [s.lastIndexOf(searchString)] *)
Definition String_lastIndexOf (s searchString : string) : Z :=
  match last_index searchString s with
  | Some n => Z.of_nat n
  | None => (-1)%Z
  end.

(** [s.substr(start, length)]: a negative start counts from the end, and
    the length is clamped to what is left of the string. *)
Definition String_substr (s : string) (start length : Z) : string :=
  let size := Z.of_nat (String.length s) in
  let intStart :=
    if (start <? 0)%Z then Z.max (size + start) 0 else Z.min start size in
  let resultLength := Z.min (Z.max length 0) (size - intStart) in
  if (resultLength <=? 0)%Z then ""
  else substring (Z.to_nat intStart) (Z.to_nat resultLength) s.

(** [s[i]]: [None] is [undefined]. *)
Definition String_charAt (s : string) (i : Z) : option ascii :=
  if (i <? 0)%Z then None else String.get (Z.to_nat i) s.

(** The loop of [String.prototype.split] for a non-empty separator: find
    the next match at or after the current position, emit what precedes
    it, and go on behind the match.  At most one match per character. *)
Fixpoint split_from (fuel : nat) (separator s : string) : list string :=
  match fuel with
  | O => [s]
  | S fuel' =>
      match String.index 0 separator s with
      | None => [s]
      | Some q =>
          substring 0 q s ::
          split_from fuel' separator
            (substring (q + String.length separator) (String.length s) s)
      end
  end.

(** [s.split(separator)]: an empty separator splits into the characters
    (and the empty string into no record at all). *)
Definition String_split (s separator : string) : list string :=
  match separator with
  | EmptyString => List.map (fun c => String c EmptyString) (list_ascii_of_string s)
  | String _ _ => split_from (String.length s) separator s
  end.

(** The text an array element contributes to [join]. *)
Definition join_text (v : js_value) : string :=
  match v with
  | VUndefined | VNull => ""
  | _ => toString v
  end.

(** [arr.join(separator)]; [None] is an undefined separator, for which the
    language uses a comma. *)
Definition Array_join (arr : list js_value) (separator : option string) : string :=
  let sep := match separator with Some s => s | None => "," end in
  String.concat sep (List.map join_text arr).

(** ** The key resolver *)

Definition TYPE_S3 : string := "s3".
Definition TYPE_FILE : string := "file".
Definition S3_PATH_ERROR : string :=
  "Context needs to be a valid s3 path. Ex: " ++ dquote ++
  "s3://<bucket>/path/to/folder[/object]." ++ dquote.
Definition INPUT_FUNCTION_ERROR : string :=
  dquote ++ "func" ++ dquote ++ " must be a function.".

Module target.
(** The object [resolveKey] returns; [None] is [null]. *)
Record t : Type := make {
  bucket : option string;
  prefix : option string;
  file : option string;
  type : string
}.
End target.

(** [resolveKey]. *)
Definition resolveKey (key : string) : target.t :=
  if (String_indexOf key "s3://" =? 0)%Z then
    let key := String_substr key 5 (Z.of_nat (String.length key) - 1) in
    {| target.bucket := List.hd_error (String_split key "/");
       target.prefix :=
         Some (String_substr key (String_indexOf key "/" + 1) (Z.of_nat (String.length key)));
       target.file := None;
       target.type := TYPE_S3 |}
  else
    {| target.bucket := None;
       target.prefix := None;
       target.file := Some key;
       target.type := TYPE_FILE |}.

(** [getFileName]. *)
Definition getFileName (key : string) : string :=
  String_substr key (String_lastIndexOf key "/" + 1) (Z.of_nat (String.length key)).


(** ** Outcomes, requests and traces *)

(** How a call completes or a promise settles: [Resolved] is a normal
    return (or a fulfilled promise), [Rejected] a thrown value (or a
    rejected promise).  Any value can be thrown. *)
Inductive outcome (A : Type) : Type :=
| Resolved (a : A)
| Rejected (e : js_value).
Arguments Resolved {A} a.
Arguments Rejected {A} e.

(** What leaves the engine: the requests sent to the store, and the calls
    of the user function ([func_call key entry] is the call on a body or a
    record [entry] of the object [key]). *)
Inductive request : Type :=
| listObjects_request (Bucket Prefix Marker : string)
| getObject_request (Bucket Key : string)
| putObject_request (Bucket Key : string) (Body : js_value)
| copyObject_request (Bucket Key CopySource : string)
| deleteObjects_request (Bucket : string) (Objects : list string)
| func_call (key entry : string).

(** A request is issued, and later settles.  Between the two it is in
    flight. *)
Inductive event : Type :=
| Issue (r : request)
| Settle (r : request) (o : outcome js_value).

Definition trace : Type := list event.

Definition request_eq_dec (a b : request) : {a = b} + {a <> b}.
Proof.
  decide equality;
    try apply string_dec; try apply value_eq_dec;
    apply (list_eq_dec string_dec).
Defined.

(** The answer of the store to one request. *)
Inductive response (A : Type) : Type :=
| Ok (data : A)
| Fail (name message : string).
Arguments Ok {A} data.
Arguments Fail {A} name message.

(** The body of a fetched object, seen through its [toString(encoding)]. *)
Definition Buffer : Type := string -> string.

Module aws.
(** The client of the store.  It is outside the repository: each operation
    is taken as given, and may answer according to everything that
    happened before (the trace so far), which covers a store whose content
    changes with the writes of the run. *)
Record S3 : Type := {
  listObjects : trace -> string -> string -> string -> response (list string);
  getObject : trace -> string -> string -> response Buffer;
  putObject : trace -> string -> string -> js_value -> response unit;
  copyObject : trace -> string -> string -> string -> response unit;
  deleteObjects : trace -> string -> list string -> response unit
}.
End aws.

(** ** Computations that leave a trace *)

(** A computation reads the trace so far and returns the events it adds,
    in order, with its result. *)
Definition M (A : Type) : Type := trace -> trace * A.

Definition ret {A : Type} (a : A) : M A := fun _ => ([], a).

Definition bind {A B : Type} (m : M A) (f : A -> M B) : M B :=
  fun h =>
    let '(t1, a) := m h in
    let '(t2, b) := f a (h ++ t1)%list in
    ((t1 ++ t2)%list, b).

Declare Scope m_scope.
Delimit Scope m_scope with m.
Notation "x <- m ;; k" := (bind m (fun x => k))
  (at level 100, m at next level, right associativity) : m_scope.
Notation "m ;;; k" := (bind m (fun _ => k))
  (at level 100, right associativity) : m_scope.
Open Scope m_scope.

Definition issue (r : request) : M unit := fun _ => ([Issue r], tt).

(** The store answers [r]: the answer is read at the moment it arrives. *)
Definition settle {A : Type} (r : request) (answer : trace -> response A)
  : M (outcome A) :=
  fun h =>
    match answer h with
    | Ok data => ([Settle r (Resolved VUndefined)], Resolved data)
    | Fail name message =>
        ([Settle r (Rejected (VError name message))],
         Rejected (VError name message))
    end.

(** [Promise.all]: all the values, or the first rejection.  Promises
    created together are taken to settle in the order of their creation. *)
Fixpoint Promise_all {A : Type} (promises : list (outcome A))
  : outcome (list A) :=
  match promises with
  | [] => Resolved []
  | Rejected e :: _ => Rejected e
  | Resolved a :: rest =>
      match Promise_all rest with
      | Resolved l => Resolved (a :: l)
      | Rejected e => Rejected e
      end
  end.

(** One call of the user function on [entry]; [show] is what the trace
    keeps of the result.  A user function is a function of its arguments. *)
Definition call {A : Type} (show : A -> js_value) (key entry : string)
  (result : outcome A) : M (outcome A) :=
  fun _ =>
    ([Issue (func_call key entry);
      Settle (func_call key entry)
        match result with
        | Resolved a => Resolved (show a)
        | Rejected e => Rejected e
        end],
     result).

(** [entries.forEach(func)], [entries.map(func)] and
    [entries.filter(func)] in synchronous mode: one call after the other,
    and a throw ends the loop.  The results are those of [map]. *)
Fixpoint call_each (func : string -> outcome js_value) (key : string)
  (entries : list string) : M (outcome (list js_value)) :=
  match entries with
  | [] => ret (Resolved [])
  | entry :: entries' =>
      r <- call (fun v => v) key entry (func entry) ;;
      match r with
      | Rejected e => ret (Rejected e)
      | Resolved v =>
          rs <- call_each func key entries' ;;
          match rs with
          | Rejected e => ret (Rejected e)
          | Resolved vs => ret (Resolved (v :: vs))
          end
      end
  end.

(** The asynchronous counterpart: every record is handed to the user
    function first, and the promises are then awaited together. *)
Definition issue_calls (key : string) (entries : list string) : M unit :=
  fun _ => (List.map (fun entry => Issue (func_call key entry)) entries, tt).

Definition settle_calls (func : string -> outcome js_value) (key : string)
  (entries : list string) : M (list (outcome js_value)) :=
  fun _ =>
    (List.map (fun entry => Settle (func_call key entry) (func entry)) entries,
     List.map func entries).

Definition call_all (func : string -> outcome js_value) (key : string)
  (entries : list string) : M (outcome (list js_value)) :=
  issue_calls key entries ;;;
  updates <- settle_calls func key entries ;;
  ret (Promise_all updates).

(** Promises created together, as in
    [keys.forEach(key => promises.push(...))]: every request is issued
    before the first answer is read. *)
Definition issue_all (requests : list request) : M unit :=
  fun _ => (List.map Issue requests, tt).

Fixpoint await_all {P A : Type} (await : P -> M (outcome A))
  (promises : list P) : M (list (outcome A)) :=
  match promises with
  | [] => ret []
  | p :: rest =>
      o <- await p ;;
      os <- await_all await rest ;;
      ret (o :: os)
  end.

(** What a public method does when called: it throws at once, or returns
    a promise.  The promise may never settle: [None]. *)
Inductive api (A : Type) : Type :=
| Threw (e : js_value)
| Promised (promise : M (option (outcome A))).
Arguments Threw {A} e.
Arguments Promised {A} promise.

(** An argument that should be a function. *)
Inductive js_function (F : Type) : Type :=
| not_a_function (v : js_value)
| function (f : F).
Arguments not_a_function {F} v.
Arguments function {F} f.

(** The end of every operation: [if (err) fail(err); else success(result)]. *)
Definition finish {A : Type} (err : js_value) (result : A) : outcome A :=
  if truthy err then Rejected err else Resolved result.

(** ** The engine *)

Module S3renity.

(** The instance.  [delimiter] is [None] until [split] is called, and
    [transformer] until [transform] is; the strings of a context are those
    [context] has set.  The verbosity flag only logs and is left out. *)
Record t : Type := make {
  s3 : aws.S3;
  _marker : string;
  encoding : string;
  hasTarget : bool;
  bucket : string;
  prefix : string;
  targetBucket : string;
  targetPrefix : string;
  delimiter : option string;
  transformer : option (Buffer -> outcome string)
}.

(** *** The configuration surface *)

Definition context (this : t) (key : string) : outcome t :=
  let target := resolveKey key in
  if negb (target.type target =? TYPE_S3) then Rejected (Error S3_PATH_ERROR)
  else
    Resolved
      (make (s3 this) (_marker this) (encoding this) (hasTarget this)
         (match target.bucket target with Some b => b | None => "" end)
         (match target.prefix target with Some p => p | None => "" end)
         (targetBucket this) (targetPrefix this) (delimiter this)
         (transformer this)).

Definition marker (this : t) (marker : string) : t :=
  make (s3 this) marker (encoding this) (hasTarget this) (bucket this)
    (prefix this) (targetBucket this) (targetPrefix this) (delimiter this)
    (transformer this).

Definition encode (this : t) (encoding : string) : t :=
  make (s3 this) (_marker this) encoding (hasTarget this) (bucket this)
    (prefix this) (targetBucket this) (targetPrefix this) (delimiter this)
    (transformer this).

Definition transform (this : t) (transformer : Buffer -> outcome string) : t :=
  make (s3 this) (_marker this) (encoding this) (hasTarget this) (bucket this)
    (prefix this) (targetBucket this) (targetPrefix this) (delimiter this)
    (Some transformer).

(** [split(delimiter)]: [delimiter || '\n'], so that an omitted and an
    empty delimiter are both the line feed. *)
Definition split (this : t) (delimiter : option string) : t :=
  make (s3 this) (_marker this) (encoding this) (hasTarget this) (bucket this)
    (prefix this) (targetBucket this) (targetPrefix this)
    (Some match delimiter with
          | Some d => if d =? "" then newline else d
          | None => newline
          end)
    (transformer this).

Definition target (this : t) (target : string) : outcome t :=
  let output := resolveKey target in
  if negb (target.type output =? TYPE_S3) then Rejected (Error S3_PATH_ERROR)
  else
    Resolved
      (make (s3 this) (_marker this) (encoding this) true (bucket this)
         (prefix this)
         (match target.bucket output with Some b => b | None => "" end)
         (match target.prefix output with Some p => p | None => "" end)
         (delimiter this) (transformer this)).

Section Methods.

Variable this : t.

(** *** The promised wrappers of the store *)

(** The request [get(arg1, arg2)] sends: [arg1] alone when it is an s3
    path, the pair otherwise. *)
Definition get_target (arg1 arg2 : string) : string * string :=
  let target := resolveKey arg1 in
  if target.type target =? TYPE_S3 then
    (match target.bucket target with Some b => b | None => "" end,
     match target.prefix target with Some p => p | None => "" end)
  else (arg1, arg2).

Definition get_request (arg1 arg2 : string) : request :=
  getObject_request (fst (get_target arg1 arg2)) (snd (get_target arg1 arg2)).

(** The callback of [getObject]: the body is decoded with the encoding of
    the instance, or handed to the transformer, whose throw rejects. *)
Definition get_settle (arg1 arg2 : string) : M (outcome string) :=
  object <- settle (get_request arg1 arg2)
              (fun h =>
                 aws.getObject (s3 this) h
                   (fst (get_target arg1 arg2)) (snd (get_target arg1 arg2))) ;;
  match object with
  | Rejected err => ret (Rejected err)
  | Resolved Body =>
      match transformer this with
      | None => ret (Resolved (Body (encoding this)))
      | Some transformer => ret (transformer Body)
      end
  end.

Definition get (arg1 arg2 : string) : M (outcome string) :=
  issue (get_request arg1 arg2) ;;;
  get_settle arg1 arg2.

Definition put (bucket key : string) (body : js_value) : M (outcome unit) :=
  issue (putObject_request bucket key body) ;;;
  settle (putObject_request bucket key body)
    (fun h => aws.putObject (s3 this) h bucket key body).

(** The request of [copy]; [CopySource] is [`${sourceBucket}/${sourceKey}`]. *)
Definition copy_request (sourceBucket sourceKey targetBucket targetKey : string)
  : request :=
  copyObject_request targetBucket targetKey (sourceBucket ++ "/" ++ sourceKey).

Definition copy_settle (sourceBucket sourceKey targetBucket targetKey : string)
  : M (outcome unit) :=
  settle (copy_request sourceBucket sourceKey targetBucket targetKey)
    (fun h =>
       aws.copyObject (s3 this) h targetBucket targetKey
         (sourceBucket ++ "/" ++ sourceKey)).

Definition copy (sourceBucket sourceKey targetBucket targetKey : string)
  : M (outcome unit) :=
  issue (copy_request sourceBucket sourceKey targetBucket targetKey) ;;;
  copy_settle sourceBucket sourceKey targetBucket targetKey.

Definition deleteObjects (bucket : string) (keys : list string)
  : M (outcome unit) :=
  issue (deleteObjects_request bucket keys) ;;;
  settle (deleteObjects_request bucket keys)
    (fun h => aws.deleteObjects (s3 this) h bucket keys).

(** [delete(bucket, key)] with an array of keys, the only use the engine
    makes of it. *)
Definition delete (bucket : string) (key : list string) : M (outcome unit) :=
  deleteObjects bucket key.

(** [listObjects]: a slash is appended to a prefix that does not end in
    one, and a first key equal to that prefix is dropped from the page. *)
Definition listObjects (bucket prefix marker : string)
  : M (outcome (list string)) :=
  let prefix :=
    match String_charAt prefix (Z.of_nat (String.length prefix) - 1) with
    | Some "/"%char => prefix
    | _ => prefix ++ "/"
    end in
  issue (listObjects_request bucket prefix marker) ;;;
  keys <- settle (listObjects_request bucket prefix marker)
            (fun h => aws.listObjects (s3 this) h bucket prefix marker) ;;
  match keys with
  | Rejected err => ret (Rejected err)
  | Resolved keys =>
      ret (Resolved
             match keys with
             | Key :: rest => if Key =? prefix then rest else keys
             | [] => keys
             end)
  end.

(** *** list *)

(** [_keys]: one page after the other, each asked for behind the last key
    of the page before, until a page comes back empty.  The recursion is
    bounded by [fuel] pages; [None] is a listing still under way. *)
Fixpoint _keys (fuel : nat) (allKeys : list string) (marker : string)
  : M (option (outcome (list string))) :=
  match fuel with
  | O => ret None
  | S fuel' =>
      keys <- listObjects (bucket this) (prefix this) marker ;;
      match keys with
      | Rejected err => ret (Some (Rejected err))
      | Resolved keys =>
          if (List.length keys =? 0)%nat then ret (Some (Resolved allKeys))
          else _keys fuel' (allKeys ++ keys)%list (List.last keys marker)
      end
  end.

Definition list (fuel : nat) : M (option (outcome (Datatypes.list string))) :=
  _keys fuel [] (_marker this).

(** [this.list().then(keys => ...).catch(fail)] *)
Definition with_keys {A : Type} (fuel : nat)
  (k : Datatypes.list string -> M (outcome A)) : M (option (outcome A)) :=
  keys <- list fuel ;;
  match keys with
  | None => ret None
  | Some (Rejected err) => ret (Some (Rejected err))
  | Some (Resolved keys) => r <- k keys ;; ret (Some r)
  end.

(** *** splitObject *)

Definition splitObject (bucket key : string) (delimiter encoding : option string)
  : M (outcome (Datatypes.list string)) :=
  let delimiter := match delimiter with Some d => d | None => newline end in
  let encoding := match encoding with Some e => e | None => "utf8" end in
  body <- get bucket key ;;
  match body with
  | Rejected err => ret (Rejected err)
  | Resolved body =>
      if body =? "" then ret (Resolved [])
      else ret (Resolved (String_split body delimiter))
  end.

(** *** forEach

    The helpers of an operation hand to their callback the value they
    return here: [VNull] is [callback(null)].  They take the key only to
    label the calls in the trace.  [isAsync] chooses how the result of the
    user function is read: as a return or a throw, or as the settlement of
    the promise it returns. *)

Fixpoint forEach_eachObject (func : string -> outcome js_value) (isAsync : bool)
  (keys : Datatypes.list string) : M js_value :=
  match keys with
  | [] => ret VNull
  | key :: keys =>
      body <- get (bucket this) key ;;
      match body with
      | Rejected err => ret err
      | Resolved body =>
          if isAsync then
            r <- call (fun v => v) key body (func body) ;;
            match r with
            | Resolved _ => forEach_eachObject func isAsync keys
            | Rejected err => ret err
            end
          else
            r <- call (fun v => v) key body (func body) ;;
            match r with
            | Rejected e => ret e
            | Resolved _ => forEach_eachObject func isAsync keys
            end
      end
  end.

Definition forEach_eachSplit (func : string -> outcome js_value) (isAsync : bool)
  (key : string) (entries : Datatypes.list string) : M (outcome unit) :=
  if isAsync then
    updates <- call_all func key entries ;;
    match updates with
    | Resolved _ => ret (Resolved tt)
    | Rejected err => ret (Rejected err)
    end
  else
    r <- call_each func key entries ;;
    match r with
    | Resolved _ => ret (Resolved tt)
    | Rejected err => ret (Rejected err)
    end.

Fixpoint forEach_splitObjects (func : string -> outcome js_value) (isAsync : bool)
  (keys : Datatypes.list string) : M js_value :=
  match keys with
  | [] => ret VNull
  | key :: keys =>
      entries <- splitObject (bucket this) key (delimiter this)
                   (Some (encoding this)) ;;
      match entries with
      | Rejected err => ret err
      | Resolved entries =>
          r <- forEach_eachSplit func isAsync key entries ;;
          match r with
          | Resolved _ => forEach_splitObjects func isAsync keys
          | Rejected err => ret err
          end
      end
  end.

(** The promise [forEach] returns. *)
Definition forEach_promise (fuel : nat) (func : string -> outcome js_value)
  (isAsync : bool) : M (option (outcome unit)) :=
  with_keys fuel (fun keys =>
    match delimiter this with
    | None =>
        err <- forEach_eachObject func isAsync keys ;;
        ret (finish err tt)
    | Some _ =>
        err <- forEach_splitObjects func isAsync keys ;;
        ret (finish err tt)
    end).

Definition forEach (fuel : nat) (func : js_function (string -> outcome js_value))
  (isAsync : option bool) : api unit :=
  match func with
  | not_a_function _ => Threw (TypeError INPUT_FUNCTION_ERROR)
  | function func =>
      let isAsync := match isAsync with Some b => b | None => false end in
      Promised (forEach_promise fuel func isAsync)
  end.

(** *** map *)

(** [_output], up to its call of [_continue]. *)
Definition map_output (key : string) (body : js_value) : M (outcome unit) :=
  if hasTarget this then
    put (targetBucket this) (targetPrefix this ++ getFileName key) body
  else put (bucket this) key body.

Definition map_mapSplit (func : string -> outcome js_value) (isAsync : bool)
  (key : string) (entries : Datatypes.list string)
  : M (outcome (Datatypes.list js_value)) :=
  if isAsync then call_all func key entries
  else call_each func key entries.

(** [_continue]. *)
Definition map_continue {A : Type} (isSplit : bool)
  (_splitObjects _mapObject : A) : A :=
  if isSplit then _splitObjects else _mapObject.

(** [_mapObject] and [_splitObjects] call each other through [_output] and
    [_continue]. *)
Fixpoint map_mapObject (func : string -> outcome js_value) (isAsync isSplit : bool)
  (keys : Datatypes.list string) {struct keys} : M js_value :=
  match keys with
  | [] => ret VNull
  | key :: keys =>
      body <- get (bucket this) key ;;
      match body with
      | Rejected err => ret err
      | Resolved body =>
          if isAsync then
            newBody <- call (fun v => v) key body (func body) ;;
            match newBody with
            | Resolved newBody =>
                written <- map_output key newBody ;;
                match written with
                | Rejected err => ret err
                | Resolved _ =>
                    map_continue isSplit
                      (map_splitObjects func isAsync isSplit keys)
                      (map_mapObject func isAsync isSplit keys)
                end
            | Rejected err => ret err
            end
          else
            newBody <- call (fun v => v) key body (func body) ;;
            match newBody with
            | Rejected e => ret e
            | Resolved newBody =>
                written <- map_output key newBody ;;
                match written with
                | Rejected err => ret err
                | Resolved _ =>
                    map_continue isSplit
                      (map_splitObjects func isAsync isSplit keys)
                      (map_mapObject func isAsync isSplit keys)
                end
            end
      end
  end
with map_splitObjects (func : string -> outcome js_value) (isAsync isSplit : bool)
  (keys : Datatypes.list string) {struct keys} : M js_value :=
  match keys with
  | [] => ret VNull
  | key :: keys =>
      entries <- splitObject (bucket this) key (delimiter this)
                   (Some (encoding this)) ;;
      match entries with
      | Rejected err => ret err
      | Resolved entries =>
          newEntries <- map_mapSplit func isAsync key entries ;;
          match newEntries with
          | Rejected err => ret err
          | Resolved newEntries =>
              let newBody := Array_join newEntries (delimiter this) in
              written <- map_output key (VStr newBody) ;;
              match written with
              | Rejected err => ret err
              | Resolved _ =>
                  map_continue isSplit
                    (map_splitObjects func isAsync isSplit keys)
                    (map_mapObject func isAsync isSplit keys)
              end
          end
      end
  end.

(** The promise [map] returns.  The first key goes to [_mapObject] when a
    delimiter is set and to [_splitObjects] when none is, as the source
    has it; [_continue] chooses the other way round for the keys after. *)
Definition map_promise (fuel : nat) (func : string -> outcome js_value)
  (isAsync : bool) : M (option (outcome unit)) :=
  let isSplit := match delimiter this with Some _ => true | None => false end in
  with_keys fuel (fun keys =>
    if isSplit then
      err <- map_mapObject func isAsync isSplit keys ;;
      ret (finish err tt)
    else
      err <- map_splitObjects func isAsync isSplit keys ;;
      ret (finish err tt)).

Definition map (fuel : nat) (func : js_function (string -> outcome js_value))
  (isAsync : option bool) : api unit :=
  match func with
  | not_a_function _ => Threw (TypeError INPUT_FUNCTION_ERROR)
  | function func =>
      let isAsync := match isAsync with Some b => b | None => false end in
      Promised (map_promise fuel func isAsync)
  end.

(** *** reduce

    The accumulator [value] of the source is a variable the helpers
    assign; here it is passed along.  The engine never looks into it, so
    it has any type [A].  The callback gets the error and the result, and
    [None] is the [null] result of a failure. *)

Fixpoint reduce_reduceObjects {A : Type} (func : A -> string -> string -> outcome A)
  (isAsync : bool) (keys : Datatypes.list string) (value : A)
  : M (js_value * option A) :=
  match keys with
  | [] => ret (VNull, Some value)
  | key :: keys =>
      body <- get (bucket this) key ;;
      match body with
      | Rejected e => ret (e, None)
      | Resolved body =>
          if isAsync then
            newValue <- call (fun _ => VUndefined) key body (func value body key) ;;
            match newValue with
            | Resolved newValue => reduce_reduceObjects func isAsync keys newValue
            | Rejected e => ret (e, None)
            end
          else
            newValue <- call (fun _ => VUndefined) key body (func value body key) ;;
            match newValue with
            | Resolved newValue => reduce_reduceObjects func isAsync keys newValue
            | Rejected e => ret (e, None)
            end
      end
  end.

(** [_splitAndReduceObjects].  With keys left, its first statement is
    [key = keys.shift()], and [key] is declared nowhere in its scope: the
    file is in strict mode (['use strict'] is its first statement), where
    an assignment to an undeclared name throws a ReferenceError.  The
    throw happens in the handler of [list().then], before any object is
    fetched, and what follows in the source ([splitObject] and
    [_reduceSplitEntries]) is never reached. *)
Definition reduce_splitAndReduceObjects {A : Type}
  (keys : Datatypes.list string) (value : A)
  : outcome (js_value * option A) :=
  match keys with
  | [] => Resolved (VNull, Some value)
  | _ :: _ => Rejected (ReferenceError "key is not defined")
  end.

(** The promise [reduce] returns; a throw in the handler of [list().then]
    goes to [.catch(fail)]. *)
Definition reduce_promise {A : Type} (fuel : nat)
  (func : A -> string -> string -> outcome A) (initialValue : A)
  (isAsync : bool) : M (option (outcome (option A))) :=
  with_keys fuel (fun keys =>
    match delimiter this with
    | None =>
        r <- reduce_reduceObjects func isAsync keys initialValue ;;
        ret (finish (fst r) (snd r))
    | Some _ =>
        match reduce_splitAndReduceObjects keys initialValue with
        | Rejected e => ret (Rejected e)
        | Resolved r => ret (finish (fst r) (snd r))
        end
    end).

Definition reduce {A : Type} (fuel : nat)
  (func : js_function (A -> string -> string -> outcome A)) (initialValue : A)
  (isAsync : option bool) : api (option A) :=
  match func with
  | not_a_function _ => Threw (TypeError INPUT_FUNCTION_ERROR)
  | function func =>
      let isAsync := match isAsync with Some b => b | None => false end in
      Promised (reduce_promise fuel func initialValue isAsync)
  end.

(** *** filter *)

(** [checkResult]: the value it throws, if it throws. *)
Definition filter_checkResult (result : js_value) : outcome unit :=
  if not_boolean result
  then Rejected (TypeError "Filter function must return a boolean")
  else Resolved tt.

(** [_finish]: with a target every kept object is copied, all the copies
    being asked for before any is awaited; without one the objects to
    remove are deleted in a single request. *)
Definition filter_finish (keepObjects removeObjects : Datatypes.list string)
  : M js_value :=
  if hasTarget this then
    issue_all
      (List.map (fun key =>
                   copy_request (bucket this) key (targetBucket this)
                     (targetPrefix this ++ getFileName key)) keepObjects) ;;;
    promises <-
      await_all (fun key =>
                   copy_settle (bucket this) key (targetBucket this)
                     (targetPrefix this ++ getFileName key)) keepObjects ;;
    match Promise_all promises with
    | Resolved _ => ret VUndefined
    | Rejected err => ret err
    end
  else
    r <- delete (bucket this) removeObjects ;;
    match r with
    | Resolved _ => ret VNull
    | Rejected err => ret err
    end.

(** [_filterObjects]; the two lists are the variables [keepObjects] and
    [removeObjects] of the source.  A throw of [checkResult] happens in a
    promise handler and goes to [.catch(callback)]. *)
Fixpoint filter_filterObjects (func : string -> outcome js_value) (isAsync : bool)
  (keys keepObjects removeObjects : Datatypes.list string) : M js_value :=
  match keys with
  | [] => filter_finish keepObjects removeObjects
  | key :: keys =>
      body <- get (bucket this) key ;;
      match body with
      | Rejected err => ret err
      | Resolved body =>
          if isAsync then
            result <- call (fun v => v) key body (func body) ;;
            match result with
            | Resolved result =>
                match filter_checkResult result with
                | Rejected e => ret e
                | Resolved _ =>
                    if truthy result then
                      filter_filterObjects func isAsync keys
                        (keepObjects ++ [key])%list removeObjects
                    else
                      filter_filterObjects func isAsync keys
                        keepObjects (removeObjects ++ [key])%list
                end
            | Rejected err => ret err
            end
          else
            result <- call (fun v => v) key body (func body) ;;
            match result with
            | Rejected e => ret e
            | Resolved result =>
                match filter_checkResult result with
                | Rejected e => ret e
                | Resolved _ =>
                    if truthy result then
                      filter_filterObjects func isAsync keys
                        (keepObjects ++ [key])%list removeObjects
                    else
                      filter_filterObjects func isAsync keys
                        keepObjects (removeObjects ++ [key])%list
                end
            end
      end
  end.

(** [_filterSplitObject].  In asynchronous mode its first statement is
    [promises = []], and [promises] is declared nowhere in its scope (the
    [let promises] of [_finish] is local to a block there): in strict mode
    the executor of the promise throws a ReferenceError, the promise
    rejects, and the loop over the results below it is never reached.  In
    synchronous mode it is [entries.filter(func)], which keeps the records
    for which the result is truthy. *)
Definition filter_filterSplitObject (func : string -> outcome js_value)
  (isAsync : bool) (key : string) (entries : Datatypes.list string)
  : M (outcome (Datatypes.list string)) :=
  if isAsync then ret (Rejected (ReferenceError "promises is not defined"))
  else
    results <- call_each func key entries ;;
    match results with
    | Rejected err => ret (Rejected err)
    | Resolved results =>
        ret (Resolved
               (List.map fst
                  (List.filter (fun p => truthy (snd p))
                     (List.combine entries results))))
    end.

Fixpoint filter_splitObjects (func : string -> outcome js_value) (isAsync : bool)
  (keys : Datatypes.list string) : M js_value :=
  match keys with
  | [] => ret VNull
  | key :: keys =>
      entries <- splitObject (bucket this) key (delimiter this)
                   (Some (encoding this)) ;;
      match entries with
      | Rejected err => ret err
      | Resolved entries =>
          newEntries <- filter_filterSplitObject func isAsync key entries ;;
          match newEntries with
          | Rejected err => ret err
          | Resolved newEntries =>
              let newBody :=
                Array_join (List.map VStr newEntries) (delimiter this) in
              let targetBucket :=
                if hasTarget this then targetBucket this else bucket this in
              let targetKey :=
                if hasTarget this then (targetPrefix this ++ getFileName key)
                else key in
              written <- put targetBucket targetKey (VStr newBody) ;;
              match written with
              | Rejected err => ret err
              | Resolved _ => filter_splitObjects func isAsync keys
              end
          end
      end
  end.

(** The promise [filter] returns. *)
Definition filter_promise (fuel : nat) (func : string -> outcome js_value)
  (isAsync : bool) : M (option (outcome unit)) :=
  with_keys fuel (fun keys =>
    match delimiter this with
    | None =>
        err <- filter_filterObjects func isAsync keys [] [] ;;
        ret (finish err tt)
    | Some _ =>
        err <- filter_splitObjects func isAsync keys ;;
        ret (finish err tt)
    end).

Definition filter (fuel : nat) (func : js_function (string -> outcome js_value))
  (isAsync : option bool) : api unit :=
  match func with
  | not_a_function _ => Threw (TypeError INPUT_FUNCTION_ERROR)
  | function func =>
      let isAsync := match isAsync with Some b => b | None => false end in
      Promised (filter_promise fuel func isAsync)
  end.

(** [clean]. *)
Definition clean (fuel : nat) : api unit :=
  filter fuel
    (function (fun body =>
                 Resolved (VBool (0 <? Z.of_nat (String.length body))%Z)))
    None.

(** *** join *)

(** The promise [join] returns: every object is asked for before any
    answer is awaited. *)
Definition join_promise (fuel : nat) (delimiter : string)
  : M (option (outcome string)) :=
  with_keys fuel (fun keys =>
    issue_all (List.map (fun key => get_request (bucket this) key) keys) ;;;
    getPromises <- await_all (fun key => get_settle (bucket this) key) keys ;;
    match Promise_all getPromises with
    | Resolved objects =>
        ret (Resolved (Array_join (List.map VStr objects) (Some delimiter)))
    | Rejected err => ret (Rejected err)
    end).

Definition join (fuel : nat) (delimiter : option string) : api string :=
  let delimiter := match delimiter with Some d => d | None => newline end in
  Promised (join_promise fuel delimiter).

End Methods.
End S3renity.

(** ** A store to run the engine on *)

Module store.

(** The content of one bucket, as pairs of a key and a body, in the order
    of the listing. *)
Definition content : Type := list (string * string).

Fixpoint lookup (key : string) (objects : content) : option string :=
  match objects with
  | [] => None
  | (k, body) :: rest => if k =? key then Some body else lookup key rest
  end.

Fixpoint update (key body : string) (objects : content) : content :=
  match objects with
  | [] => [(key, body)]
  | (k, b) :: rest =>
      if k =? key then (key, body) :: rest else (k, b) :: update key body rest
  end.

(** The content after the puts of a trace. *)
Fixpoint after (bucket : string) (objects : content) (h : trace) : content :=
  match h with
  | [] => objects
  | Issue (putObject_request b key body) :: h' =>
      after bucket
        (if b =? bucket then update key (toString body) objects else objects) h'
  | _ :: h' => after bucket objects h'
  end.

(** The keys that follow [marker] in the listing; all of them for the
    empty marker. *)
Fixpoint behind (marker : string) (keys : list string) : list string :=
  match keys with
  | [] => []
  | k :: rest => if k =? marker then rest else behind marker rest
  end.

(** A store of one bucket that lists its keys in pages of [size] keys,
    never fails on a write and knows no other bucket. *)
Definition paged (size : nat) (bucket : string) (objects : content) : aws.S3 :=
  {| aws.listObjects := fun h b prefix marker =>
       if b =? bucket then
         Ok (List.firstn size
               (if marker =? "" then List.map fst objects
                else behind marker (List.map fst objects)))
       else Fail "NoSuchBucket" b;
     aws.getObject := fun h b key =>
       if b =? bucket then
         match lookup key (after bucket objects h) with
         | Some body => Ok (fun _ => body)
         | None => Fail "NoSuchKey" key
         end
       else Fail "NoSuchBucket" b;
     aws.putObject := fun h b key body => Ok tt;
     aws.copyObject := fun h b key source => Ok tt;
     aws.deleteObjects := fun h b keys => Ok tt |}.

(** The same with all the keys in one page. *)
Definition make (bucket : string) (objects : content) : aws.S3 :=
  paged (List.length objects) bucket objects.

(** An instance on [s3://bucket/prefix], as the constructor and [context]
    leave it. *)
Definition instance (s3 : aws.S3) (bucket prefix : string) : S3renity.t :=
  S3renity.make s3 "" "utf8" false bucket prefix "" "" None None.

End store.

(** What the promise of a call becomes, and the trace the call leaves,
    when it starts from an empty trace. *)
Definition run {A : Type} (call : api A) : option (trace * option (outcome A)) :=
  match call with
  | Threw _ => None
  | Promised promise => Some (promise [])
  end.

(** The requests of a given kind a trace issues, in order. *)
Definition puts (t : trace) : list (string * string * js_value) :=
  List.flat_map
    (fun e =>
       match e with
       | Issue (putObject_request b k body) => [(b, k, body)]
       | _ => []
       end) t.

Definition gets (t : trace) : list (string * string) :=
  List.flat_map
    (fun e =>
       match e with
       | Issue (getObject_request b k) => [(b, k)]
       | _ => []
       end) t.

(** ** The vocabulary of the properties *)

(** The pages a listing goes through when it starts at [marker] with the
    trace [h]: [listObjects] yields each page of the list, none of them
    empty, the next one being asked for behind the last key of the one
    before, and then an empty page.  [t] is the trace of these calls. *)
Inductive enumerated (this : S3renity.t)
  : trace -> string -> list (list string) -> trace -> Prop :=
| enumerated_end (h : trace) (marker : string) (t : trace) :
    S3renity.listObjects this (S3renity.bucket this) (S3renity.prefix this)
      marker h = (t, Resolved []) ->
    enumerated this h marker [] t
| enumerated_page (h : trace) (marker : string) (page : list string)
    (t : trace) (pages : list (list string)) (t' : trace) :
    S3renity.listObjects this (S3renity.bucket this) (S3renity.prefix this)
      marker h = (t, Resolved page) ->
    page <> [] ->
    enumerated this (h ++ t)%list (List.last page marker) pages t' ->
    enumerated this h marker (page :: pages) (t ++ t')%list.

(** A call of the user function that threw, or whose promise rejected,
    with the value it threw. *)
Definition failed_call (e : event) : option js_value :=
  match e with
  | Settle (func_call _ _) (Rejected err) => Some err
  | _ => None
  end.

Definition no_failed_call (t : trace) : Prop :=
  forall (key entry : string) (e : js_value),
    ~ In (Settle (func_call key entry) (Rejected e)) t.

Definition nothing_issued (t : trace) : Prop :=
  forall r : request, ~ In (Issue r) t.

(** The first failed call of a trace, with what follows it. *)
Fixpoint first_failure (t : trace) : option (js_value * trace) :=
  match t with
  | [] => None
  | e :: t' =>
      match failed_call e with
      | Some err => Some (err, t')
      | None => first_failure t'
      end
  end.

Definition is_issue (e : event) : bool :=
  match e with
  | Issue _ => true
  | Settle _ _ => false
  end.

(** An operation aborts on the failure of the user function: once a call
    has failed nothing more is issued, and the promise settles as
    [if (err) fail(err); else success(result)] does on the thrown value. *)
Definition aborts_on_failure {A : Type} (promise : M (option (outcome A)))
  (result : A) : Prop :=
  forall (h t : trace) (o : option (outcome A)) (a b : trace)
         (key entry : string) (e : js_value),
    promise h = (t, o) ->
    t = (a ++ Settle (func_call key entry) (Rejected e) :: b)%list ->
    no_failed_call a ->
    nothing_issued b /\ o = Some (finish e result).

(** *** Requests in flight *)

Fixpoint remove_first (r : request) (pending : list request) : list request :=
  match pending with
  | [] => []
  | p :: rest => if request_eq_dec r p then rest else p :: remove_first r rest
  end.

Definition step (pending : list request) (e : event) : list request :=
  match e with
  | Issue r => (pending ++ [r])%list
  | Settle r _ => remove_first r pending
  end.

(** The requests issued and not yet settled at the end of a trace. *)
Definition inflight (t : trace) : list request := List.fold_left step t [].

Definition is_call_of (key : string) (r : request) : bool :=
  match r with
  | func_call k _ => k =? key
  | _ => false
  end.

(** At most one request is under way, or several that are all calls of
    the user function on records of one and the same key. *)
Definition one_key (pending : list request) : bool :=
  match pending with
  | [] => true
  | r :: rest =>
      match rest with
      | [] => true
      | _ :: _ =>
          match r with
          | func_call key _ => forallb (is_call_of key) rest
          | _ => false
          end
      end
  end.

(** A trace is sequential across keys when this holds at every moment. *)
Definition sequential (t : trace) : Prop :=
  forall n : nat, one_key (inflight (List.firstn n t)) = true.

Fixpoint sequential_from (pending : list request) (t : trace) : bool :=
  one_key pending &&
  match t with
  | [] => true
  | e :: t' => sequential_from (step pending e) t'
  end.

(** *** Results of a predicate *)

Definition returned_non_boolean (t : trace) : Prop :=
  exists (key entry : string) (v : js_value),
    In (Settle (func_call key entry) (Resolved v)) t /\ not_boolean v = true.

Definition copies_or_deletes (t : trace) : Prop :=
  exists r : request,
    In (Issue r) t /\
    match r with
    | copyObject_request _ _ _ | deleteObjects_request _ _ => True
    | _ => False
    end.

(** *** Properties of computations *)

(** Every trace of [m] is sequential and leaves nothing in flight. *)
Definition tidy {A : Type} (m : M A) : Prop :=
  forall h : trace,
    sequential_from [] (fst (m h)) = true /\ inflight (fst (m h)) = [].

(** No trace of [m] has a failed call. *)
Definition silent {A : Type} (m : M A) : Prop :=
  forall h : trace, first_failure (fst (m h)) = None.

(** After the first failed call of [m] nothing is issued, and the result
    shows the thrown value as [view] says. *)
Definition reports {A : Type} (view : A -> js_value -> Prop) (m : M A) : Prop :=
  forall (h : trace) (e : js_value) (b : trace),
    first_failure (fst (m h)) = Some (e, b) ->
    forallb (fun x => negb (is_issue x)) b = true /\ view (snd (m h)) e.

(** *** Auxiliary notions of the proofs *)

(** A request to the store, as opposed to a call of the user function. *)
Definition store_request (r : request) : bool :=
  match r with
  | func_call _ _ => false
  | _ => true
  end.

(** How the value of a failed call shows in the result of a computation:
    as the rejection of a promise, as the error handed to a callback, as
    the error and the [null] result handed to the callback of [reduce],
    and as the settlement of the promise of an operation. *)
Definition rejected_with {A : Type} (o : outcome A) (e : js_value) : Prop :=
  o = Rejected e.

Definition passed_on (err e : js_value) : Prop := err = e.

Definition failed_with {A : Type} (r : js_value * option A) (e : js_value) : Prop :=
  r = (e, None).

Definition settled_with {A : Type} (result : A) (o : outcome A) (e : js_value)
  : Prop :=
  o = finish e result.

Definition promise_settled_with {A : Type} (result : A) (o : option (outcome A))
  (e : js_value) : Prop :=
  o = Some (finish e result).

(** A trace that is sequential and ends with nothing in flight. *)
Definition closed (t : trace) : Prop :=
  sequential_from [] t = true /\ inflight t = [].

(** The events behind [returned_non_boolean] and [copies_or_deletes]. *)
Definition non_boolean_result (e : event) : bool :=
  match e with
  | Settle (func_call _ _) (Resolved v) => not_boolean v
  | _ => false
  end.

Definition copy_or_delete (e : event) : bool :=
  match e with
  | Issue (copyObject_request _ _ _) | Issue (deleteObjects_request _ _) => true
  | _ => false
  end.

(** No trace of [m] has a result of the user function that is not a
    boolean, nor a copy or a deletion. *)
Definition harmless {A : Type} (m : M A) : Prop :=
  forall h : trace,
    existsb non_boolean_result (fst (m h)) = false /\
    existsb copy_or_delete (fst (m h)) = false.

(** A trace of [m] with a result that is not a boolean ends in the type
    error, without a copy or a deletion. *)
Definition checked (m : M js_value) : Prop :=
  forall h : trace,
    existsb non_boolean_result (fst (m h)) = true ->
    snd (m h) = TypeError "Filter function must return a boolean" /\
    existsb copy_or_delete (fst (m h)) = false.

Definition callfree {A : Type} (m : M A) : Prop :=
  forall h : trace, existsb non_boolean_result (fst (m h)) = false.

(** No trace of [m] issues a put. *)
Definition writes_nothing {A : Type} (m : M A) : Prop :=
  forall h : trace, puts (fst (m h)) = [].

(** Where [map] and [filter] write the object of [key]: under the target
    prefix with the file name of the key, or over the key itself. *)
Definition destination (this : S3renity.t) (key : string) : string * string :=
  if S3renity.hasTarget this
  then (S3renity.targetBucket this,
        (S3renity.targetPrefix this ++ getFileName key)%string)
  else (S3renity.bucket this, key).

(** No request and no call of the trace failed. *)
Definition all_resolved (t : trace) : bool :=
  forallb (fun e => match e with
                    | Settle _ (Rejected _) => false
                    | _ => true
                    end) t.

(** *** User functions and bodies of the examples *)

Definition lines (l : list string) : string := String.concat newline l.

(** [x => x + '!'] *)
Definition exclaim (x : string) : outcome js_value := Resolved (VStr (x ++ "!")%string).

(** [x => x == 'keep'] *)
Definition keep (x : string) : outcome js_value := Resolved (VBool (x =? "keep")%string).

(** [(acc, body) => acc + body.length] *)
Definition add_length (acc : Z) (body key : string) : outcome Z :=
  Resolved (acc + Z.of_nat (String.length body))%Z.

(** [x => true] *)
Definition always (x : string) : outcome js_value := Resolved (VBool true).

(** [x => 'yes'] *)
Definition label (x : string) : outcome js_value := Resolved (VStr "yes").

(** A function that throws [e] (or rejects with it) on the body [bad]. *)
Definition fail_on (bad : string) (e : js_value) (body : string)
  : outcome js_value :=
  if (body =? bad)%string then Rejected e else Resolved VUndefined.

(** ** Further vocabulary: what an operation sends, and to whom *)

(** Every request the trace issues is one [allowed] lets through. *)
Definition issues_only (allowed : request -> bool) (t : trace) : bool :=
  forallb (fun e => match e with
                    | Issue r => allowed r
                    | Settle _ _ => true
                    end) t.

Definition only_issues {A : Type} (allowed : request -> bool) (m : M A) : Prop :=
  forall h : trace, issues_only allowed (fst (m h)) = true.

(** The requests that change nothing in the store: listings, fetches,
    and the calls of the user function. *)
Definition is_read (r : request) : bool :=
  match r with
  | listObjects_request _ _ _ | getObject_request _ _ | func_call _ _ => true
  | _ => false
  end.

Definition is_put (r : request) : bool :=
  match r with
  | putObject_request _ _ _ => true
  | _ => false
  end.

Definition is_copy (r : request) : bool :=
  match r with
  | copyObject_request _ _ _ => true
  | _ => false
  end.

Definition is_delete (r : request) : bool :=
  match r with
  | deleteObjects_request _ _ => true
  | _ => false
  end.

Definition is_get (r : request) : bool :=
  match r with
  | getObject_request _ _ => true
  | _ => false
  end.

Definition read_or_put (r : request) : bool := is_read r || is_put r.
Definition read_or_copy (r : request) : bool := is_read r || is_copy r.
Definition read_or_delete (r : request) : bool := is_read r || is_delete r.

(** What the [filter] of whole objects may send: reads, and copies when
    there is a target or deletions when there is none. *)
Definition selection (this : S3renity.t) : request -> bool :=
  if S3renity.hasTarget this then read_or_copy else read_or_delete.

(** The copies, the deletions and the calls of the user function a trace
    issues, in order. *)
Definition copies (t : trace) : list (string * string * string) :=
  List.flat_map
    (fun e =>
       match e with
       | Issue (copyObject_request b k source) => [(b, k, source)]
       | _ => []
       end) t.

Definition deletes (t : trace) : list (string * list string) :=
  List.flat_map
    (fun e =>
       match e with
       | Issue (deleteObjects_request b keys) => [(b, keys)]
       | _ => []
       end) t.

Definition calls (t : trace) : list (string * string) :=
  List.flat_map
    (fun e =>
       match e with
       | Issue (func_call key entry) => [(key, entry)]
       | _ => []
       end) t.

(** The records [splitObject] makes of a body. *)
Definition records (delimiter : option string) (body : string) : list string :=
  if body =? "" then []
  else String_split body match delimiter with Some d => d | None => newline end.

(** A store of one bucket whose content no write changes: it lists all
    its keys in one page and accepts every write. *)
Definition archive (bucket : string) (objects : store.content) : aws.S3 :=
  {| aws.listObjects := fun h b prefix marker =>
       if b =? bucket then
         Ok (if marker =? "" then List.map fst objects
             else store.behind marker (List.map fst objects))
       else Fail "NoSuchBucket" b;
     aws.getObject := fun h b key =>
       if b =? bucket then
         match store.lookup key objects with
         | Some body => Ok (fun _ => body)
         | None => Fail "NoSuchKey" key
         end
       else Fail "NoSuchBucket" b;
     aws.putObject := fun h b key body => Ok tt;
     aws.copyObject := fun h b key source => Ok tt;
     aws.deleteObjects := fun h b keys => Ok tt |}.

(** [x => x.length > 0], the predicate of [clean]. *)
Definition not_empty (body : string) : bool :=
  (0 <? Z.of_nat (String.length body))%Z.

(** The store answers every fetch of a key of [keys] with the body
    [body] gives it, whatever happened before. *)
Definition fetches (this : S3renity.t) (body : string -> string)
  (keys : list string) : Prop :=
  forall (key : string) (h : trace),
    In key keys ->
    snd (S3renity.get_settle this (S3renity.bucket this) key h)
    = Resolved (body key).

(** The store accepts every put, whatever happened before. *)
Definition accepts_puts (this : S3renity.t) : Prop :=
  forall (h : trace) (bucket key : string) (body : js_value),
    aws.putObject (S3renity.s3 this) h bucket key body = Ok tt.

(** What [map] writes for an object: the result of the user function on
    the body, or, record by record, the results joined again. *)
Definition map_split_body (delimiter : option string) (f : string -> js_value)
  (body : string) : js_value :=
  VStr (Array_join (List.map f (records delimiter body)) delimiter).

Definition map_body (isSplit : bool) (delimiter : option string)
  (f : string -> js_value) (body : string) : js_value :=
  if isSplit then map_split_body delimiter f body else f body.

(** The body the archive holds for a key; empty for a key it has not. *)
Definition archived (objects : store.content) (key : string) : string :=
  match store.lookup key objects with
  | Some body => body
  | None => ""
  end.

(** The puts of [map] over [keys]: one per object, at its destination;
    [first] is the mode the first object is handled in and [isSplit] the
    mode of the others. *)
Definition map_puts (this : S3renity.t) (f : string -> js_value)
  (body : string -> string) (first isSplit : bool) (keys : list string)
  : list (string * string * js_value) :=
  match keys with
  | [] => []
  | key :: rest =>
      (fst (destination this key), snd (destination this key),
       map_body first (S3renity.delimiter this) f (body key)) ::
      List.map (fun key =>
                  (fst (destination this key), snd (destination this key),
                   map_body isSplit (S3renity.delimiter this) f (body key)))
        rest
  end.

(** *** Requests the store refuses *)

(** A request to the store that failed, with the error of the store. *)
Definition failed_request (e : event) : option js_value :=
  match e with
  | Settle r (Rejected err) => if store_request r then Some err else None
  | _ => None
  end.

Definition no_failed_request (t : trace) : Prop :=
  forall (r : request) (e : js_value),
    store_request r = true -> ~ In (Settle r (Rejected e)) t.

(** The first failed request of a trace, with what follows it. *)
Fixpoint first_refusal (t : trace) : option (js_value * trace) :=
  match t with
  | [] => None
  | e :: t' =>
      match failed_request e with
      | Some err => Some (err, t')
      | None => first_refusal t'
      end
  end.

(** No trace of [m] has a failed request. *)
Definition unrefused {A : Type} (m : M A) : Prop :=
  forall h : trace, first_refusal (fst (m h)) = None.

(** After the first failed request of [m] nothing is issued, and the
    result shows the error as [view] says. *)
Definition halts {A : Type} (view : A -> js_value -> Prop) (m : M A) : Prop :=
  forall (h : trace) (e : js_value) (b : trace),
    first_refusal (fst (m h)) = Some (e, b) ->
    forallb (fun x => negb (is_issue x)) b = true /\ view (snd (m h)) e.

(** How the error of the store shows in a result: as the rejection of a
    promise, as the error handed to a callback, as the error and the
    [null] result handed to the callback of [reduce], and as the
    rejection of the promise of an operation.  It is an error object,
    which no test takes for the absence of an error. *)
Definition refused_with {A : Type} (o : outcome A) (e : js_value) : Prop :=
  o = Rejected e /\ truthy e = true.

Definition handed_on (err e : js_value) : Prop := err = e /\ truthy e = true.

Definition broken_with {A : Type} (r : js_value * option A) (e : js_value) : Prop :=
  r = (e, None) /\ truthy e = true.

Definition promise_rejected_with {A : Type} (o : option (outcome A))
  (e : js_value) : Prop :=
  o = Some (Rejected e).

(** The archive with every put refused. *)
Definition read_only (bucket : string) (objects : store.content) : aws.S3 :=
  {| aws.listObjects := aws.listObjects (archive bucket objects);
     aws.getObject := aws.getObject (archive bucket objects);
     aws.putObject := fun h b key body => Fail "AccessDenied" key;
     aws.copyObject := aws.copyObject (archive bucket objects);
     aws.deleteObjects := aws.deleteObjects (archive bucket objects) |}.

(** *** The order of the fetches *)

(** The fetches of the trace are those of the first keys of [keys], in
    their order: no key is left out before one that is fetched, and none
    is fetched twice. *)
Definition fetched_in_order (this : S3renity.t) (keys : list string) (t : trace)
  : Prop :=
  exists n : nat,
    gets t = List.map (pair (S3renity.bucket this)) (List.firstn n keys).

Definition fetches_in_order {A : Type} (this : S3renity.t) (keys : list string)
  (m : M A) : Prop :=
  forall h : trace, fetched_in_order this keys (fst (m h)).

Definition no_get (r : request) : bool := negb (is_get r).

(** * Properties *)

(** ** Strings *)

Section Strings.

Lemma substring_all (s : string) : substring 0 (String.length s) s = s.
Proof. induction s as [|c s IH]; simpl; [reflexivity | now rewrite IH]. Qed.

Lemma substring_over (s : string) (n : nat) :
  String.length s <= n -> substring 0 n s = s.
Proof.
  revert n; induction s as [|c s IH]; intros [|n] H; simpl in *;
    try reflexivity; try lia.
  rewrite IH by lia. reflexivity.
Qed.

Lemma substring_app_skip (a b : string) (m : nat) :
  substring (String.length a) m (a ++ b) = substring 0 m b.
Proof.
  induction a as [|c a IH]; simpl; [reflexivity | exact IH].
Qed.

Lemma substring_app_take (a b : string) :
  substring 0 (String.length a) (a ++ b) = a.
Proof.
  induction a as [|c a IH]; simpl.
  - destruct b; reflexivity.
  - now rewrite IH.
Qed.

Lemma length_app (a b : string) :
  String.length (a ++ b) = String.length a + String.length b.
Proof. induction a as [|c a IH]; simpl; [reflexivity | now rewrite IH]. Qed.

Lemma prefix_nil (s : string) : String.prefix "" s = true.
Proof. destruct s; reflexivity. Qed.

Lemma prefix_app (p a b : string) :
  String.prefix p a = true -> String.prefix p (a ++ b) = true.
Proof.
  revert a; induction p as [|c p IH]; intros a H; [apply prefix_nil|].
  destruct a as [|d a]; simpl in *; [discriminate|].
  destruct (ascii_dec c d); [auto | discriminate].
Qed.

Lemma prefix_self_app (p b : string) : String.prefix p (p ++ b) = true.
Proof.
  induction p as [|c p IH]; simpl; [apply prefix_nil|].
  destruct (ascii_dec c c); [exact IH | congruence].
Qed.

Lemma prefix_split (p s : string) :
  String.prefix p s = true -> exists b, s = p ++ b.
Proof.
  revert s; induction p as [|c p IH]; intros s H.
  - exists s; reflexivity.
  - destruct s as [|d s]; simpl in H; [discriminate|].
    destruct (ascii_dec c d) as [->|]; [|discriminate].
    destruct (IH s H) as [b ->]. exists b; reflexivity.
Qed.

(** The first match of a separator cuts a string in a part without any
    match, the separator, and a rest. *)
Lemma index_cut (sep s : string) (q : nat) :
  String.index 0 sep s = Some q ->
  exists a b,
    s = a ++ sep ++ b /\ String.length a = q /\
    (sep <> "" -> String.index 0 sep a = None).
Proof.
  revert q; induction s as [|c s IH]; intros q H; cbn [String.index] in H.
  - destruct sep; [|discriminate]. inversion H; subst.
    exists "", "". split; [reflexivity|]. split; [reflexivity|]. congruence.
  - destruct (String.prefix sep (String c s)) eqn:P.
    + inversion H; subst. destruct (prefix_split _ _ P) as [b E].
      exists "", b. split; [exact E|]. split; [reflexivity|].
      intros N. destruct sep; [congruence | reflexivity].
    + destruct (String.index 0 sep s) as [n|] eqn:I; [|discriminate].
      inversion H; subst. destruct (IH n eq_refl) as (a & b & E & L & F).
      exists (String c a), b. split; [simpl; now rewrite <- E|].
      split; [simpl; now rewrite L|].
      intros N. specialize (F N). cbn [String.index].
      destruct (String.prefix sep (String c a)) eqn:P'.
      * apply prefix_app with (b := sep ++ b) in P'.
        cbn [append] in P'. rewrite <- E in P'. congruence.
      * now rewrite F.
Qed.

Lemma index_none_app (b p : string) :
  String.index 0 "/" b = None ->
  String.index 0 "/" (b ++ "/" ++ p) = Some (String.length b).
Proof.
  induction b as [|c b IH]; intros H.
  - simpl. destruct p; reflexivity.
  - cbn [String.index] in H. cbn [append String.index String.length].
    destruct (String.prefix "/" (String c b)) eqn:P; [discriminate|].
    destruct (String.index 0 "/" b) eqn:I; [discriminate|].
    destruct (String.prefix "/" (String c (b ++ "/" ++ p))) eqn:P'.
    + cbn [String.prefix] in P, P'.
      destruct (ascii_dec "/" c); [|discriminate].
      now rewrite prefix_nil in P.
    + specialize (IH eq_refl). cbn [append] in IH, P'.
      now rewrite P', IH.
Qed.

Lemma append_assoc' (a b c : string) : (a ++ b) ++ c = a ++ b ++ c.
Proof. induction a as [|x a IH]; simpl; [reflexivity | now rewrite IH]. Qed.

Lemma length_zero (s : string) : String.length s = 0 -> s = "".
Proof. destruct s; [reflexivity | discriminate]. Qed.

Lemma index_empty (sep : string) : sep <> "" -> String.index 0 sep "" = None.
Proof. destruct sep; [congruence | reflexivity]. Qed.

Lemma split_from_nonempty (fuel : nat) (sep s : string) :
  split_from fuel sep s <> [].
Proof.
  destruct fuel; simpl; [discriminate|].
  destruct (String.index 0 sep s); discriminate.
Qed.

Lemma concat_cons (sep x : string) (l : list string) :
  l <> [] -> String.concat sep (x :: l) = x ++ sep ++ String.concat sep l.
Proof. destruct l; [congruence | reflexivity]. Qed.

(** What [split] returns for a non-empty separator: joined again it is
    the string, and no record contains the separator. *)
Lemma split_from_spec (sep : string) :
  sep <> "" ->
  forall (fuel : nat) (s : string),
    String.length s <= fuel ->
    String.concat sep (split_from fuel sep s) = s /\
    Forall (fun r => String.index 0 sep r = None) (split_from fuel sep s).
Proof.
  intros N; induction fuel as [|fuel IH]; intros s L.
  - rewrite (length_zero s) by lia. simpl. split; [reflexivity|].
    constructor; [now apply index_empty | constructor].
  - cbn [split_from]. destruct (String.index 0 sep s) as [q|] eqn:I.
    + destruct (index_cut _ _ _ I) as (a & b & E & La & F).
      assert (Ha : substring 0 q s = a).
      { subst s q. apply substring_app_take. }
      assert (Hb : substring (q + String.length sep) (String.length s) s = b).
      { subst s q. rewrite <- append_assoc', <- length_app, substring_app_skip.
        apply substring_over. rewrite !length_app. lia. }
      rewrite Ha, Hb.
      assert (Lb : String.length b <= fuel).
      { subst s. rewrite !length_app in L.
        destruct sep; [congruence|]. simpl in L. lia. }
      destruct (IH b Lb) as [J A].
      split.
      * rewrite concat_cons by apply split_from_nonempty. now rewrite J.
      * constructor; auto.
    + simpl. split; [reflexivity|]. constructor; [exact I | constructor].
Qed.

Lemma split_chars (s : string) :
  String.concat "" (List.map (fun c => String c "") (list_ascii_of_string s)) = s.
Proof.
  induction s as [|c s IH]; [reflexivity|].
  cbn [list_ascii_of_string List.map].
  destruct s as [|d s]; [reflexivity|].
  rewrite concat_cons by discriminate. now rewrite IH.
Qed.

Lemma String_split_join (s sep : string) :
  s <> "" ->
  String_split s sep <> [] /\
  String.concat sep (String_split s sep) = s /\
  (sep <> "" -> Forall (fun r => String.index 0 sep r = None) (String_split s sep)).
Proof.
  intros Hs. destruct sep as [|c sep].
  - split; [|split; [apply split_chars | congruence]].
    destruct s; [congruence | discriminate].
  - assert (N : String c sep <> "") by discriminate.
    destruct (split_from_spec _ N (String.length s) s (le_n _)) as [J A].
    split; [apply split_from_nonempty | split; [exact J | intros _; exact A]].
Qed.

Lemma String_indexOf_scheme (x : string) : String_indexOf ("s3://" ++ x) "s3://" = 0%Z.
Proof.
  unfold String_indexOf. cbn [append String.index].
  change (String "s" (String "3" (String ":" (String "/" (String "/" x)))))
    with ("s3://" ++ x).
  now rewrite prefix_self_app.
Qed.

Lemma String_substr_scheme (x : string) :
  String_substr ("s3://" ++ x) 5 (Z.of_nat (String.length ("s3://" ++ x)) - 1) = x.
Proof.
  unfold String_substr. rewrite length_app.
  change (String.length "s3://") with 5.
  replace (5 <? 0)%Z with false by reflexivity.
  destruct (Z.min (Z.max (Z.of_nat (5 + String.length x) - 1) 0)
              (Z.of_nat (5 + String.length x) - Z.min 5 (Z.of_nat (5 + String.length x)))
            <=? 0)%Z eqn:E.
  - apply Z.leb_le in E. symmetry; apply length_zero. lia.
  - apply Z.leb_gt in E.
    replace (Z.to_nat (Z.min 5 (Z.of_nat (5 + String.length x))))
      with (String.length "s3://") by (simpl String.length; lia).
    rewrite substring_app_skip. apply substring_over. lia.
Qed.

Lemma String_substr_from (a b : string) :
  String_substr (a ++ b) (Z.of_nat (String.length a))
    (Z.of_nat (String.length (a ++ b))) = b.
Proof.
  unfold String_substr. rewrite length_app.
  destruct (Z.of_nat (String.length a) <? 0)%Z eqn:S; [apply Z.ltb_lt in S; lia|].
  match goal with |- (if ?c then _ else _) = _ => destruct c eqn:E end.
  - apply Z.leb_le in E. symmetry; apply length_zero. lia.
  - apply Z.leb_gt in E.
    replace (Z.to_nat (Z.min (Z.of_nat (String.length a))
                         (Z.of_nat (String.length a + String.length b))))
      with (String.length a) by lia.
    rewrite substring_app_skip. apply substring_over. lia.
Qed.

End Strings.

(** ** The key resolver *)

Lemma String_split_head (b p : string) :
  String.index 0 "/" b = None ->
  List.hd_error (String_split (b ++ "/" ++ p) "/") = Some b.
Proof.
  intros H. unfold String_split.
  assert (E : String.length (b ++ "/" ++ p) = S (String.length b + String.length p))
    by (rewrite length_app; simpl; lia).
  rewrite E. cbn [split_from].
  rewrite index_none_app by exact H. cbn [List.hd_error].
  now rewrite substring_app_take.
Qed.

Lemma String_split_whole (b : string) :
  String.index 0 "/" b = None -> String_split b "/" = [b].
Proof.
  intros H. unfold String_split.
  destruct (String.length b); cbn [split_from]; [reflexivity|].
  now rewrite H.
Qed.

Lemma String_substr_whole (b : string) :
  String_substr b 0 (Z.of_nat (String.length b)) = b.
Proof. exact (String_substr_from "" b). Qed.

Lemma resolveKey_path (b p : string) :
  String.index 0 "/" b = None ->
  resolveKey ("s3://" ++ b ++ "/" ++ p) =
  target.make (Some b) (Some p) None TYPE_S3.
Proof.
  intros H. unfold resolveKey.
  rewrite String_indexOf_scheme, String_substr_scheme. cbn [Z.eqb].
  rewrite String_split_head by exact H.
  unfold String_indexOf at 1. rewrite index_none_app by exact H.
  rewrite <- append_assoc'.
  replace (Z.of_nat (String.length b) + 1)%Z
    with (Z.of_nat (String.length (b ++ "/")))
    by (rewrite length_app; simpl String.length; lia).
  now rewrite String_substr_from.
Qed.

Lemma resolveKey_bare (b : string) :
  String.index 0 "/" b = None ->
  resolveKey ("s3://" ++ b) = target.make (Some b) (Some b) None TYPE_S3.
Proof.
  intros H. unfold resolveKey.
  rewrite String_indexOf_scheme, String_substr_scheme. cbn [Z.eqb].
  rewrite String_split_whole by exact H. unfold String_indexOf at 1.
  rewrite H. cbn [Z.add Z.opp Z.pos_sub List.hd_error].
  now rewrite String_substr_whole.
Qed.

Lemma resolveKey_file (key : string) :
  String.prefix "s3://" key = false ->
  resolveKey key = target.make None None (Some key) TYPE_FILE.
Proof.
  intros H. unfold resolveKey, String_indexOf.
  destruct key as [|c key]; [reflexivity|].
  cbn [String.index]. rewrite H.
  destruct (String.index 0 "s3://" key); reflexivity.
Qed.

(** C5 (as stated): a store URI without a slash behind the bucket does
    not degrade to an empty bucket and prefix: both are the bucket. *)
Lemma resolveKey_bare_not_empty :
  resolveKey "s3://bucket" = target.make (Some "bucket") (Some "bucket") None "s3"
  /\ ~ (forall b : string,
          String_indexOf b "/" = (-1)%Z ->
          (target.bucket (resolveKey ("s3://" ++ b)) = None \/
           target.bucket (resolveKey ("s3://" ++ b)) = Some "") /\
          (target.prefix (resolveKey ("s3://" ++ b)) = None \/
           target.prefix (resolveKey ("s3://" ++ b)) = Some "")).
Proof.
  split; [reflexivity|].
  intros H. destruct (H "bucket" eq_refl) as [[B|B] _]; discriminate B.
Qed.

(** C5 (amended): [resolveKey] is a total function of the string.  A
    string that begins with [s3://] gives a store location: with a slash
    behind the bucket, the bucket is what precedes the first slash and the
    prefix what follows it; without one, bucket and prefix are both the
    whole remainder (empty only for the bare [s3://]).  Any other string
    gives a local file. *)
Theorem resolveKey_location :
  (forall b p : string,
      String.index 0 "/" b = None ->
      resolveKey ("s3://" ++ b ++ "/" ++ p) =
      target.make (Some b) (Some p) None TYPE_S3) /\
  (forall b : string,
      String.index 0 "/" b = None ->
      resolveKey ("s3://" ++ b) = target.make (Some b) (Some b) None TYPE_S3) /\
  (forall key : string,
      String.prefix "s3://" key = false ->
      resolveKey key = target.make None None (Some key) TYPE_FILE).
Proof.
  split; [exact resolveKey_path | split; [exact resolveKey_bare | exact resolveKey_file]].
Qed.

Lemma resolveKey_location_witness :
  resolveKey ("s3://" ++ "my-bucket" ++ "/" ++ "logs/2016/") =
    target.make (Some "my-bucket") (Some "logs/2016/") None TYPE_S3 /\
  resolveKey ("s3://" ++ "") = target.make (Some "") (Some "") None TYPE_S3 /\
  resolveKey "/tmp/out.txt" = target.make None None (Some "/tmp/out.txt") TYPE_FILE.
Proof.
  destruct resolveKey_location as (P & B & F).
  split; [apply P; reflexivity | split; [apply B; reflexivity | apply F; reflexivity]].
Defined.

(** ** splitObject *)



(** ** list *)

Lemma bind_run {A B : Type} (m : M A) (f : A -> M B) (h t1 : trace) (a : A) :
  m h = (t1, a) ->
  bind m f h = ((t1 ++ fst (f a (h ++ t1)%list))%list, snd (f a (h ++ t1)%list)).
Proof. intros E. unfold bind. rewrite E. now destruct (f a (h ++ t1)%list). Qed.

Lemma _keys_enumerated (this : S3renity.t) (h : trace) (marker : string)
  (pages : list (list string)) (t : trace) :
  enumerated this h marker pages t ->
  forall (fuel : nat) (allKeys : list string),
    (List.length pages < fuel ->
     S3renity._keys this fuel allKeys marker h
     = (t, Some (Resolved (allKeys ++ List.concat pages)%list))) /\
    (fuel <= List.length pages ->
     snd (S3renity._keys this fuel allKeys marker h) = None).
Proof.
  induction 1 as [h marker t L | h marker page t pages t' L N E IH];
    intros fuel allKeys; (destruct fuel as [|fuel]; [split; [simpl; lia | reflexivity]|]).
  - split; [intros _ | simpl; lia].
    cbn [S3renity._keys]. rewrite (bind_run _ _ _ _ _ L). simpl.
    now rewrite !app_nil_r.
  - cbn [S3renity._keys]. rewrite (bind_run _ _ _ _ _ L).
    destruct page as [|k page]; [congruence|].
    replace (List.length (k :: page) =? 0)%nat with false by reflexivity.
    destruct (IH fuel (allKeys ++ k :: page)%list) as [I1 I2].
    cbn [List.length List.concat]. split; intros F.
    + rewrite I1 by lia. cbn [fst snd]. now rewrite <- app_assoc.
    + cbn [snd]. apply I2. lia.
Qed.

Lemma _keys_resolved (this : S3renity.t) :
  forall (fuel : nat) (allKeys : list string) (marker : string) (h t : trace)
         (keys : list string),
    S3renity._keys this fuel allKeys marker h = (t, Some (Resolved keys)) ->
    exists pages : list (list string),
      enumerated this h marker pages t /\
      keys = (allKeys ++ List.concat pages)%list /\
      List.length pages < fuel.
Proof.
  induction fuel as [|fuel IH]; intros allKeys marker h t keys E.
  - discriminate.
  - cbn [S3renity._keys] in E.
    destruct (S3renity.listObjects this (S3renity.bucket this)
                (S3renity.prefix this) marker h) as [t1 [page|err]] eqn:L;
      rewrite (bind_run _ _ _ _ _ L) in E.
    + destruct page as [|k page].
      * simpl in E. rewrite app_nil_r in E. inversion E; subst.
        exists []. split; [now constructor | split; [|simpl; lia]].
        simpl. now rewrite app_nil_r.
      * replace (List.length (k :: page) =? 0)%nat with false in E by reflexivity.
        destruct (S3renity._keys this fuel (allKeys ++ k :: page)%list
                    (List.last (k :: page) marker) (h ++ t1)%list)
          as [t2 r] eqn:K.
        cbn [fst snd] in E. inversion E; subst.
        destruct (IH _ _ _ _ _ K) as (pages & En & Ek & Lp).
        exists ((k :: page) :: pages). split; [|split].
        -- econstructor; eauto. discriminate.
        -- cbn [List.concat]. now rewrite Ek, <- app_assoc.
        -- simpl; lia.
    + simpl in E. inversion E.
Qed.

Lemma get_last (p : string) (c x : ascii) :
  String.get (String.length p) (String c p) = Some x <->
  exists q, String c p = q ++ String x "".
Proof.
  revert c; induction p as [|d p IH]; intros c.
  - simpl. split.
    + intros E; inversion E; subst. exists ""; reflexivity.
    + intros [q E]. destruct q as [|c' q]; simpl in E.
      * now inversion E.
      * inversion E as [[E1 E2]]. destruct q; discriminate.
  - cbn [String.length String.get]. rewrite (IH d). split.
    + intros [q E]. exists (String c q). simpl. now rewrite E.
    + intros [q E]. destruct q as [|c' q]; simpl in E; [discriminate|].
      inversion E as [[E1 E2]]. now exists q.
Qed.

Lemma ends_with_slash (p : string) :
  String_charAt p (Z.of_nat (String.length p) - 1) = Some "/"%char <->
  exists q, p = q ++ "/".
Proof.
  unfold String_charAt. destruct p as [|c p].
  - simpl. split; [discriminate | intros [[|] E]; discriminate].
  - replace (Z.of_nat (String.length (String c p)) - 1 <? 0)%Z with false
      by (symmetry; apply Z.ltb_ge; simpl String.length; lia).
    replace (Z.to_nat (Z.of_nat (String.length (String c p)) - 1))
      with (String.length p) by (simpl String.length; lia).
    apply get_last.
Qed.

Lemma listObjects_page (this : S3renity.t) (bucket prefix marker : string)
  (h : trace) :
  exists p' : string,
    ((exists q, prefix = q ++ "/") /\ p' = prefix \/
     ~ (exists q, prefix = q ++ "/") /\ p' = prefix ++ "/") /\
    let r := listObjects_request bucket p' marker in
    match aws.listObjects (S3renity.s3 this) (h ++ [Issue r])%list bucket p' marker with
    | Ok raw =>
        S3renity.listObjects this bucket prefix marker h
        = ([Issue r; Settle r (Resolved VUndefined)],
           Resolved match raw with
                    | Key :: rest => if Key =? p' then rest else raw
                    | [] => []
                    end)
    | Fail name message =>
        S3renity.listObjects this bucket prefix marker h
        = ([Issue r; Settle r (Rejected (VError name message))],
           Rejected (VError name message))
    end.
Proof.
  unfold S3renity.listObjects.
  destruct (String_charAt prefix (Z.of_nat (String.length prefix) - 1))
    as [c|] eqn:C.
  - destruct (ascii_dec c "/") as [->|N].
    + exists prefix. split; [left; split; [now apply ends_with_slash | reflexivity]|].
      cbv zeta. unfold bind, issue, settle. cbn [app].
      destruct (aws.listObjects _ _ _ _ _) as [raw|name message]; [|reflexivity].
      destruct raw; reflexivity.
    + exists (prefix ++ "/").
      split; [right; split; [|reflexivity]|].
      { intros E. apply ends_with_slash in E. congruence. }
      assert (P : match c with "/"%char => prefix | _ => prefix ++ "/" end
                  = prefix ++ "/").
      { destruct c as [[] [] [] [] [] [] [] []]; try reflexivity. congruence. }
      rewrite P. cbv zeta. unfold bind, issue, settle. cbn [app].
      destruct (aws.listObjects _ _ _ _ _) as [raw|name message]; [|reflexivity].
      destruct raw; reflexivity.
  - exists (prefix ++ "/").
    split; [right; split; [|reflexivity]|].
    { intros E. apply ends_with_slash in E. congruence. }
    cbv zeta. unfold bind, issue, settle. cbn [app].
    destruct (aws.listObjects _ _ _ _ _) as [raw|name message]; [|reflexivity].
    destruct raw; reflexivity.
Qed.



Open Scope list_scope.

(** ** Failed calls *)

Lemma first_failure_app (t1 t2 : trace) :
  first_failure (t1 ++ t2) =
  match first_failure t1 with
  | Some (e, b) => Some (e, (b ++ t2)%list)
  | None => first_failure t2
  end.
Proof.
  induction t1 as [|x t1 IH]; [reflexivity|].
  simpl. destruct (failed_call x); [reflexivity | exact IH].
Qed.

Lemma first_failure_split (a b : trace) (key entry : string) (e : js_value) :
  no_failed_call a ->
  first_failure (a ++ Settle (func_call key entry) (Rejected e) :: b) = Some (e, b).
Proof.
  intros N. induction a as [|x a IH]; [reflexivity|].
  simpl. destruct (failed_call x) as [err|] eqn:F.
  - destruct x as [r|[] []]; try discriminate.
    exfalso. apply (N key0 entry0 e0). now left.
  - apply IH. intros k x' e' I. apply (N k x' e'). now right.
Qed.

Lemma nothing_issued_forallb (b : trace) :
  forallb (fun x => negb (is_issue x)) b = true -> nothing_issued b.
Proof.
  intros F r I. rewrite forallb_forall in F. specialize (F _ I). discriminate.
Qed.

Lemma silent_ret {A : Type} (a : A) : silent (ret a).
Proof. intros h; reflexivity. Qed.

Lemma silent_bind {A B : Type} (m : M A) (f : A -> M B) :
  silent m -> (forall a, silent (f a)) -> silent (bind m f).
Proof.
  intros Hm Hf h. unfold bind. specialize (Hm h).
  destruct (m h) as [t1 a]. specialize (Hf a (h ++ t1)%list).
  destruct (f a (h ++ t1)%list) as [t2 b]. cbn [fst] in *.
  now rewrite first_failure_app, Hm.
Qed.

Lemma silent_issue (r : request) : silent (issue r).
Proof. intros h; reflexivity. Qed.

Lemma silent_issue_all (requests : list request) : silent (issue_all requests).
Proof.
  intros h. unfold issue_all. cbn [fst].
  induction requests; [reflexivity | exact IHrequests].
Qed.

Lemma silent_settle {A : Type} (r : request) (answer : trace -> response A) :
  store_request r = true -> silent (settle r answer).
Proof.
  intros S h. unfold settle. destruct (answer h); destruct r; try discriminate; reflexivity.
Qed.

Lemma silent_await_all {P A : Type} (await : P -> M (outcome A)) (promises : list P) :
  (forall p, silent (await p)) -> silent (await_all await promises).
Proof.
  intros H. induction promises as [|p rest IH]; cbn [await_all].
  - apply silent_ret.
  - apply silent_bind; [apply H|]. intros o.
    apply silent_bind; [exact IH|]. intros os. apply silent_ret.
Qed.

Lemma reports_silent {A : Type} (view : A -> js_value -> Prop) (m : M A) :
  silent m -> reports view m.
Proof. intros S h e b F. rewrite S in F. discriminate. Qed.

Lemma reports_ret {A : Type} (view : A -> js_value -> Prop) (a : A) :
  reports view (ret a).
Proof. apply reports_silent, silent_ret. Qed.

Lemma reports_bind {A B : Type} (vA : A -> js_value -> Prop)
  (vB : B -> js_value -> Prop) (m : M A) (f : A -> M B) :
  reports vA m ->
  (forall a, reports vB (f a)) ->
  (forall a e h, vA a e -> fst (f a h) = [] /\ vB (snd (f a h)) e) ->
  reports vB (bind m f).
Proof.
  intros Hm Hf Hv h e b. unfold bind. specialize (Hm h).
  destruct (m h) as [t1 a]. specialize (Hf a (h ++ t1)%list).
  specialize (Hv a). cbn [fst snd] in *.
  destruct (f a (h ++ t1)%list) as [t2 r] eqn:E. cbn [fst snd] in *.
  rewrite first_failure_app.
  destruct (first_failure t1) as [[e1 b1]|].
  - intros F; inversion F; subst. destruct (Hm _ _ eq_refl) as [Q V].
    destruct (Hv e (h ++ t1)%list V) as [T R]. rewrite E in T, R. cbn in T, R.
    subst t2. rewrite app_nil_r. split; assumption.
  - intros F. exact (Hf _ _ F).
Qed.

Lemma reports_bind_silent {A B : Type} (vB : B -> js_value -> Prop)
  (m : M A) (f : A -> M B) :
  silent m -> (forall a, reports vB (f a)) -> reports vB (bind m f).
Proof.
  intros S Hf. apply reports_bind with (vA := fun _ _ => False);
    [now apply reports_silent | exact Hf | contradiction].
Qed.

Lemma reports_call {A : Type} (show : A -> js_value) (key entry : string)
  (result : outcome A) :
  reports rejected_with (call show key entry result).
Proof.
  intros h e b. unfold call. cbn [fst snd first_failure failed_call].
  destruct result as [a|err]; [discriminate|].
  intros F; inversion F; subst. split; reflexivity.
Qed.

Lemma reports_call_each (func : string -> outcome js_value) (key : string)
  (entries : list string) :
  reports rejected_with (call_each func key entries).
Proof.
  induction entries as [|entry entries IH]; cbn [call_each].
  - apply reports_ret.
  - apply reports_bind with (vA := rejected_with); [apply reports_call | |].
    + intros [v|e]; [|apply reports_ret].
      apply reports_bind with (vA := rejected_with); [exact IH | |].
      * intros [vs|e]; apply reports_ret.
      * intros a e h ->. split; reflexivity.
    + intros a e h ->. split; reflexivity.
Qed.

Lemma first_failure_issues (key : string) (entries : list string) (t : trace) :
  first_failure (List.map (fun entry => Issue (func_call key entry)) entries ++ t)
  = first_failure t.
Proof. induction entries; [reflexivity | exact IHentries]. Qed.

Lemma settles_quiet (func : string -> outcome js_value) (key : string)
  (entries : list string) :
  forallb (fun x => negb (is_issue x))
    (List.map (fun entry => Settle (func_call key entry) (func entry)) entries)
  = true.
Proof. induction entries; [reflexivity | exact IHentries]. Qed.

Lemma reports_call_all (func : string -> outcome js_value) (key : string)
  (entries : list string) :
  reports rejected_with (call_all func key entries).
Proof.
  intros h e b. unfold call_all, bind, issue_all, issue_calls, settle_calls, ret.
  cbn [fst snd]. rewrite app_nil_r, first_failure_issues.
  induction entries as [|entry entries IH]; [discriminate|].
  cbn [List.map first_failure failed_call Promise_all].
  destruct (func entry) as [v|err].
  - intros F. destruct (IH F) as [Q V]. split; [exact Q|].
    unfold rejected_with in *. now rewrite V.
  - intros F; inversion F; subst. split; [apply settles_quiet | reflexivity].
Qed.

Create HintDb silent.
Create HintDb reports.

Ltac silence :=
  repeat first
    [ apply silent_ret
    | apply silent_issue
    | apply silent_issue_all
    | solve [auto with silent]
    | apply silent_settle; reflexivity
    | apply silent_await_all; intros
    | apply silent_bind; [|intros]
    | match goal with
      | |- silent (match ?x with _ => _ end) => destruct x
      end ].

Section Silent.

Variable this : S3renity.t.

Lemma silent_get (arg1 arg2 : string) : silent (S3renity.get this arg1 arg2).
Proof. unfold S3renity.get, S3renity.get_settle, S3renity.get_request. silence. Qed.

Lemma silent_get_settle (arg1 arg2 : string) :
  silent (S3renity.get_settle this arg1 arg2).
Proof. unfold S3renity.get_settle, S3renity.get_request. silence. Qed.

Lemma silent_put (bucket key : string) (body : js_value) :
  silent (S3renity.put this bucket key body).
Proof. unfold S3renity.put. silence. Qed.

Lemma silent_copy_settle (sb sk tb tk : string) :
  silent (S3renity.copy_settle this sb sk tb tk).
Proof. unfold S3renity.copy_settle, S3renity.copy_request. silence. Qed.

Lemma silent_delete (bucket : string) (keys : list string) :
  silent (S3renity.delete this bucket keys).
Proof. unfold S3renity.delete, S3renity.deleteObjects. silence. Qed.

Lemma silent_listObjects (bucket prefix marker : string) :
  silent (S3renity.listObjects this bucket prefix marker).
Proof. unfold S3renity.listObjects. silence. Qed.

Hint Resolve silent_get silent_get_settle silent_put silent_copy_settle
  silent_delete silent_listObjects : silent.

Lemma silent__keys (fuel : nat) (allKeys : list string) (marker : string) :
  silent (S3renity._keys this fuel allKeys marker).
Proof.
  revert allKeys marker; induction fuel as [|fuel IH]; intros allKeys marker;
    cbn [S3renity._keys]; silence.
Qed.

Lemma silent_list (fuel : nat) : silent (S3renity.list this fuel).
Proof. apply silent__keys. Qed.

Lemma silent_splitObject (bucket key : string) (delimiter encoding : option string) :
  silent (S3renity.splitObject this bucket key delimiter encoding).
Proof. unfold S3renity.splitObject. silence. Qed.

Lemma silent_map_output (key : string) (body : js_value) :
  silent (S3renity.map_output this key body).
Proof. unfold S3renity.map_output. silence. Qed.

Hint Resolve silent_list silent_splitObject silent_map_output : silent.

Lemma silent_filter_finish (keepObjects removeObjects : list string) :
  silent (S3renity.filter_finish this keepObjects removeObjects).
Proof. unfold S3renity.filter_finish. silence. Qed.

End Silent.

#[export] Hint Resolve silent_get silent_get_settle silent_put silent_copy_settle
  silent_delete silent_listObjects silent_list silent_splitObject
  silent_map_output silent_filter_finish : silent.
#[export] Hint Resolve reports_call reports_call_each reports_call_all : reports.

Ltac report :=
  repeat first
    [ apply reports_ret
    | solve [auto with reports]
    | apply reports_bind_silent; [solve [silence] | intros]
    | eapply reports_bind;
      [ solve [eauto with reports]
      | intros
      | let V := fresh in intros ? ? ? V; red in V; subst; split; reflexivity ]
    | match goal with
      | |- reports _ (match ?x with _ => _ end) => destruct x
      end ].

Section Reports.

Variable this : S3renity.t.

Lemma reports_forEach_eachObject func isAsync keys :
  reports passed_on (S3renity.forEach_eachObject this func isAsync keys).
Proof.
  induction keys as [|key keys IH]; cbn [S3renity.forEach_eachObject]; report.
Qed.

Lemma reports_forEach_eachSplit func isAsync key entries :
  reports rejected_with (S3renity.forEach_eachSplit func isAsync key entries).
Proof. unfold S3renity.forEach_eachSplit. report. Qed.

Hint Resolve reports_forEach_eachSplit : reports.

Lemma reports_forEach_splitObjects func isAsync keys :
  reports passed_on (S3renity.forEach_splitObjects this func isAsync keys).
Proof.
  induction keys as [|key keys IH]; cbn [S3renity.forEach_splitObjects]; report.
Qed.

Lemma reports_map_mapSplit func isAsync key entries :
  reports rejected_with (S3renity.map_mapSplit func isAsync key entries).
Proof. unfold S3renity.map_mapSplit. report. Qed.

Hint Resolve reports_map_mapSplit : reports.

Lemma reports_map func isAsync isSplit keys :
  reports passed_on (S3renity.map_mapObject this func isAsync isSplit keys) /\
  reports passed_on (S3renity.map_splitObjects this func isAsync isSplit keys).
Proof.
  induction keys as [|key keys [IH1 IH2]];
    cbn [S3renity.map_mapObject S3renity.map_splitObjects];
    (split; unfold S3renity.map_continue; report).
Qed.

Lemma reports_reduce_reduceObjects {A : Type}
  (func : A -> string -> string -> outcome A) isAsync keys value :
  reports failed_with (S3renity.reduce_reduceObjects this func isAsync keys value).
Proof.
  revert value; induction keys as [|key keys IH]; intros value;
    cbn [S3renity.reduce_reduceObjects]; report.
Qed.

Lemma reports_filter_filterObjects func isAsync keys keepObjects removeObjects :
  reports passed_on
    (S3renity.filter_filterObjects this func isAsync keys keepObjects removeObjects).
Proof.
  revert keepObjects removeObjects; induction keys as [|key keys IH];
    intros keepObjects removeObjects; cbn [S3renity.filter_filterObjects].
  - apply reports_silent. auto with silent.
  - unfold S3renity.filter_checkResult. report.
Qed.

Lemma reports_filter_filterSplitObject func isAsync key entries :
  reports rejected_with
    (S3renity.filter_filterSplitObject func isAsync key entries).
Proof. unfold S3renity.filter_filterSplitObject. report. Qed.

Hint Resolve reports_filter_filterSplitObject : reports.

Lemma reports_filter_splitObjects func isAsync keys :
  reports passed_on (S3renity.filter_splitObjects this func isAsync keys).
Proof.
  induction keys as [|key keys IH]; cbn [S3renity.filter_splitObjects]; report.
Qed.

Lemma reports_with_keys {A : Type} (result : A) (fuel : nat)
  (k : list string -> M (outcome A)) :
  (forall keys, reports (settled_with result) (k keys)) ->
  reports (promise_settled_with result) (S3renity.with_keys this fuel k).
Proof.
  intros H. unfold S3renity.with_keys.
  apply reports_bind_silent; [auto with silent|].
  intros [[keys|err]|]; try apply reports_ret.
  eapply reports_bind; [apply H | intros; apply reports_ret |].
  intros a e h V. red in V. subst. split; reflexivity.
Qed.

Hint Resolve reports_forEach_eachObject reports_forEach_splitObjects
  reports_reduce_reduceObjects reports_filter_filterObjects
  reports_filter_splitObjects : reports.

Lemma reports_forEach_promise fuel func isAsync :
  reports (promise_settled_with tt) (S3renity.forEach_promise this fuel func isAsync).
Proof.
  unfold S3renity.forEach_promise. apply reports_with_keys. intros keys. report.
Qed.

Lemma reports_map_promise fuel func isAsync :
  reports (promise_settled_with tt) (S3renity.map_promise this fuel func isAsync).
Proof.
  unfold S3renity.map_promise. apply reports_with_keys. intros keys.
  destruct (S3renity.delimiter this);
    (eapply reports_bind;
     [ apply reports_map
     | intros; apply reports_ret
     | intros a e h V; red in V; subst; split; reflexivity ]).
Qed.

Lemma reports_reduce_promise {A : Type} fuel
  (func : A -> string -> string -> outcome A) initialValue isAsync :
  reports (promise_settled_with None)
    (S3renity.reduce_promise this fuel func initialValue isAsync).
Proof.
  unfold S3renity.reduce_promise. apply reports_with_keys. intros keys. report.
Qed.

Lemma reports_filter_promise fuel func isAsync :
  reports (promise_settled_with tt) (S3renity.filter_promise this fuel func isAsync).
Proof.
  unfold S3renity.filter_promise. apply reports_with_keys. intros keys. report.
Qed.

Lemma reports_aborts {A : Type} (result : A) (promise : M (option (outcome A))) :
  reports (promise_settled_with result) promise ->
  aborts_on_failure promise result.
Proof.
  intros R h t o a b key entry e E T N.
  specialize (R h e b). rewrite E in R. cbn [fst snd] in R. subst t.
  destruct (R (first_failure_split _ _ _ _ _ N)) as [Q V].
  split; [now apply nothing_issued_forallb | exact V].
Qed.

End Reports.

(** ** Requests in flight *)

Lemma sequential_from_app (t1 t2 : trace) (pending : list request) :
  sequential_from pending (t1 ++ t2) =
  sequential_from pending t1 && sequential_from (List.fold_left step t1 pending) t2.
Proof.
  revert pending; induction t1 as [|e t1 IH]; intros pending; cbn.
  - destruct t2; cbn; destruct (one_key pending); reflexivity.
  - rewrite IH. now rewrite andb_assoc.
Qed.

Lemma sequential_from_prefixes (t : trace) :
  forall pending : list request,
    sequential_from pending t = true ->
    forall n : nat, one_key (List.fold_left step (List.firstn n t) pending) = true.
Proof.
  induction t as [|e t IH]; intros pending S n; cbn in S;
    apply andb_prop in S; destruct S as [O S].
  - now rewrite firstn_nil.
  - destruct n as [|n]; [exact O|]. cbn. now apply IH.
Qed.

Lemma closed_nil : closed [].
Proof. split; reflexivity. Qed.

Lemma closed_app (t1 t2 : trace) : closed t1 -> closed t2 -> closed (t1 ++ t2).
Proof.
  intros [S1 I1] [S2 I2]. unfold closed, inflight in *. split.
  - now rewrite sequential_from_app, S1, I1, S2.
  - now rewrite fold_left_app, I1.
Qed.

Lemma closed_pair (r : request) (o : outcome js_value) :
  closed [Issue r; Settle r o].
Proof.
  unfold closed, inflight. cbn.
  destruct (request_eq_dec r r); [split; reflexivity | congruence].
Qed.

Lemma tidy_closed {A : Type} (m : M A) :
  tidy m <-> forall h, closed (fst (m h)).
Proof. reflexivity. Qed.

Lemma tidy_ret {A : Type} (a : A) : tidy (ret a).
Proof. intros h. apply closed_nil. Qed.

Lemma tidy_bind {A B : Type} (m : M A) (f : A -> M B) :
  tidy m -> (forall a, tidy (f a)) -> tidy (bind m f).
Proof.
  intros Hm Hf h. unfold bind. specialize (Hm h).
  destruct (m h) as [t1 a]. specialize (Hf a (h ++ t1)).
  destruct (f a (h ++ t1)) as [t2 b]. now apply closed_app.
Qed.

Lemma tidy_request {A B : Type} (r : request) (answer : trace -> response A)
  (f : outcome A -> M B) :
  (forall o, tidy (f o)) ->
  tidy (bind (issue r) (fun _ => bind (settle r answer) f)).
Proof.
  intros Hf h. unfold bind, issue, settle.
  destruct (answer (h ++ [Issue r])) as [data|name message].
  - specialize (Hf (Resolved data) ((h ++ [Issue r]) ++ [Settle r (Resolved VUndefined)])).
    destruct (f _ _) as [t2 b].
    apply (closed_app [Issue r; Settle r (Resolved VUndefined)] t2);
      [apply closed_pair | exact Hf].
  - specialize (Hf (Rejected (VError name message))
                  ((h ++ [Issue r]) ++ [Settle r (Rejected (VError name message))])).
    destruct (f _ _) as [t2 b].
    apply (closed_app [Issue r; Settle r (Rejected (VError name message))] t2);
      [apply closed_pair | exact Hf].
Qed.

Lemma tidy_request_only {A : Type} (r : request) (answer : trace -> response A) :
  tidy (bind (issue r) (fun _ => settle r answer)).
Proof.
  intros h. unfold bind, issue, settle.
  destruct (answer (h ++ [Issue r])); apply closed_pair.
Qed.

Lemma tidy_call {A : Type} (show : A -> js_value) (key entry : string)
  (result : outcome A) :
  tidy (call show key entry result).
Proof. intros h. apply closed_pair. Qed.

Lemma one_key_calls (key : string) (pending : list request) :
  forallb (is_call_of key) pending = true -> one_key pending = true.
Proof.
  destruct pending as [|r [|r' rest]]; try reflexivity.
  cbn [forallb]. intros F. apply andb_prop in F. destruct F as [F1 F2].
  destruct r; try discriminate. cbn in F1. apply String.eqb_eq in F1. subst.
  exact F2.
Qed.

Lemma calls_of_key (key : string) (entries : list string) :
  forallb (is_call_of key) (List.map (func_call key) entries) = true.
Proof.
  induction entries; [reflexivity|]. cbn. now rewrite String.eqb_refl.
Qed.

(** Calls handed out together and awaited together. *)
Lemma issues_sequential (key : string) (entries : list string) (t : trace) :
  forall pending : list string,
    sequential_from (List.map (func_call key) pending)
      (List.map (fun entry => Issue (func_call key entry)) entries ++ t)
    = sequential_from (List.map (func_call key) (pending ++ entries)) t.
Proof.
  induction entries as [|entry entries IH]; intros pending.
  - now rewrite app_nil_r.
  - cbn [List.map app sequential_from step].
    rewrite (one_key_calls key) by apply calls_of_key.
    replace (List.map (func_call key) pending ++ [func_call key entry])
      with (List.map (func_call key) (pending ++ [entry]))
      by (rewrite List.map_app; reflexivity).
    rewrite IH, <- app_assoc. reflexivity.
Qed.

Lemma issues_inflight (key : string) (entries : list string) (t : trace) :
  forall pending : list request,
    List.fold_left step
      (List.map (fun entry => Issue (func_call key entry)) entries ++ t) pending
    = List.fold_left step t (pending ++ List.map (func_call key) entries).
Proof.
  induction entries as [|entry entries IH]; intros pending.
  - now rewrite app_nil_r.
  - cbn [List.map app List.fold_left step]. rewrite IH, <- app_assoc. reflexivity.
Qed.

Lemma settles_sequential (func : string -> outcome js_value) (key : string)
  (entries : list string) :
  sequential_from (List.map (func_call key) entries)
    (List.map (fun entry => Settle (func_call key entry) (func entry)) entries)
  = true /\
  List.fold_left step
    (List.map (fun entry => Settle (func_call key entry) (func entry)) entries)
    (List.map (func_call key) entries) = [].
Proof.
  induction entries as [|entry entries [IH1 IH2]]; [split; reflexivity|].
  cbn [List.map sequential_from List.fold_left step remove_first].
  destruct (request_eq_dec (func_call key entry) (func_call key entry));
    [|congruence].
  rewrite (one_key_calls key) by apply (calls_of_key key (entry :: entries)).
  split; assumption.
Qed.

Lemma tidy_call_all (func : string -> outcome js_value) (key : string)
  (entries : list string) :
  tidy (call_all func key entries).
Proof.
  intros h. unfold call_all, bind, issue_calls, settle_calls, ret.
  cbn [fst]. rewrite app_nil_r.
  destruct (settles_sequential func key entries) as [S I].
  split.
  - rewrite (issues_sequential key entries _ []). exact S.
  - unfold inflight. rewrite issues_inflight. exact I.
Qed.

Create HintDb tidy.

Ltac tidy_up :=
  repeat first
    [ apply tidy_ret
    | apply tidy_call
    | apply tidy_call_all
    | solve [auto with tidy]
    | apply tidy_request_only
    | apply tidy_request; intros
    | apply tidy_bind; [|intros]
    | match goal with
      | |- tidy (match ?x with _ => _ end) => destruct x
      end ].

Lemma tidy_call_each (func : string -> outcome js_value) (key : string)
  (entries : list string) :
  tidy (call_each func key entries).
Proof.
  induction entries as [|entry entries IH]; cbn [call_each]; tidy_up.
Qed.

#[export] Hint Resolve tidy_call_each : tidy.

Section Tidy.

Variable this : S3renity.t.

Lemma tidy_get (arg1 arg2 : string) : tidy (S3renity.get this arg1 arg2).
Proof. unfold S3renity.get, S3renity.get_settle. tidy_up. Qed.

Lemma tidy_put (bucket key : string) (body : js_value) :
  tidy (S3renity.put this bucket key body).
Proof. unfold S3renity.put. tidy_up. Qed.

Lemma tidy_delete (bucket : string) (keys : list string) :
  tidy (S3renity.delete this bucket keys).
Proof. unfold S3renity.delete, S3renity.deleteObjects. tidy_up. Qed.

Lemma tidy_listObjects (bucket prefix marker : string) :
  tidy (S3renity.listObjects this bucket prefix marker).
Proof. unfold S3renity.listObjects. tidy_up. Qed.

Hint Resolve tidy_get tidy_put tidy_delete tidy_listObjects : tidy.

Lemma tidy__keys (fuel : nat) (allKeys : list string) (marker : string) :
  tidy (S3renity._keys this fuel allKeys marker).
Proof.
  revert allKeys marker; induction fuel as [|fuel IH]; intros allKeys marker;
    cbn [S3renity._keys]; tidy_up.
Qed.

Lemma tidy_list (fuel : nat) : tidy (S3renity.list this fuel).
Proof. apply tidy__keys. Qed.

Lemma tidy_splitObject (bucket key : string) (delimiter encoding : option string) :
  tidy (S3renity.splitObject this bucket key delimiter encoding).
Proof. unfold S3renity.splitObject. tidy_up. Qed.

Lemma tidy_map_output (key : string) (body : js_value) :
  tidy (S3renity.map_output this key body).
Proof. unfold S3renity.map_output. tidy_up. Qed.

Hint Resolve tidy_list tidy_splitObject tidy_map_output : tidy.

Lemma tidy_with_keys {A : Type} (fuel : nat) (k : list string -> M (outcome A)) :
  (forall keys, tidy (k keys)) -> tidy (S3renity.with_keys this fuel k).
Proof. intros H. unfold S3renity.with_keys. tidy_up. Qed.

Lemma tidy_forEach_eachObject func isAsync keys :
  tidy (S3renity.forEach_eachObject this func isAsync keys).
Proof.
  induction keys as [|key keys IH]; cbn [S3renity.forEach_eachObject]; tidy_up.
Qed.

Lemma tidy_forEach_splitObjects func isAsync keys :
  tidy (S3renity.forEach_splitObjects this func isAsync keys).
Proof.
  induction keys as [|key keys IH]; cbn [S3renity.forEach_splitObjects];
    unfold S3renity.forEach_eachSplit; tidy_up.
Qed.

Lemma tidy_map func isAsync isSplit keys :
  tidy (S3renity.map_mapObject this func isAsync isSplit keys) /\
  tidy (S3renity.map_splitObjects this func isAsync isSplit keys).
Proof.
  induction keys as [|key keys [IH1 IH2]];
    cbn [S3renity.map_mapObject S3renity.map_splitObjects];
    (split; unfold S3renity.map_continue, S3renity.map_mapSplit; tidy_up).
Qed.

Lemma tidy_reduce_reduceObjects {A : Type}
  (func : A -> string -> string -> outcome A) isAsync keys value :
  tidy (S3renity.reduce_reduceObjects this func isAsync keys value).
Proof.
  revert value; induction keys as [|key keys IH]; intros value;
    cbn [S3renity.reduce_reduceObjects]; tidy_up.
Qed.

Lemma tidy_filter_filterObjects func isAsync keys keepObjects removeObjects :
  S3renity.hasTarget this = false ->
  tidy (S3renity.filter_filterObjects this func isAsync keys keepObjects removeObjects).
Proof.
  intros T. revert keepObjects removeObjects; induction keys as [|key keys IH];
    intros keepObjects removeObjects; cbn [S3renity.filter_filterObjects].
  - unfold S3renity.filter_finish. rewrite T. tidy_up.
  - unfold S3renity.filter_checkResult. tidy_up.
Qed.

Lemma tidy_filter_splitObjects func isAsync keys :
  tidy (S3renity.filter_splitObjects this func isAsync keys).
Proof.
  induction keys as [|key keys IH]; cbn [S3renity.filter_splitObjects];
    unfold S3renity.filter_filterSplitObject; tidy_up.
Qed.

Hint Resolve tidy_forEach_eachObject tidy_forEach_splitObjects
  tidy_reduce_reduceObjects tidy_filter_splitObjects : tidy.

Lemma tidy_forEach_promise fuel func isAsync :
  tidy (S3renity.forEach_promise this fuel func isAsync).
Proof. unfold S3renity.forEach_promise. apply tidy_with_keys. intros. tidy_up. Qed.

Lemma tidy_map_promise fuel func isAsync :
  tidy (S3renity.map_promise this fuel func isAsync).
Proof.
  unfold S3renity.map_promise. apply tidy_with_keys. intros.
  destruct (S3renity.delimiter this);
    (apply tidy_bind; [apply tidy_map | intros; apply tidy_ret]).
Qed.

Lemma tidy_reduce_promise {A : Type} fuel
  (func : A -> string -> string -> outcome A) initialValue isAsync :
  tidy (S3renity.reduce_promise this fuel func initialValue isAsync).
Proof. unfold S3renity.reduce_promise. apply tidy_with_keys. intros. tidy_up. Qed.

Lemma tidy_filter_promise fuel func isAsync :
  S3renity.hasTarget this = false \/ S3renity.delimiter this <> None ->
  tidy (S3renity.filter_promise this fuel func isAsync).
Proof.
  intros H. unfold S3renity.filter_promise. apply tidy_with_keys. intros.
  destruct (S3renity.delimiter this) as [d|].
  - tidy_up.
  - destruct H as [H|H]; [|congruence].
    apply tidy_bind; [now apply tidy_filter_filterObjects | intros; apply tidy_ret].
Qed.

Lemma tidy_sequential {A : Type} (m : M A) (h : trace) :
  tidy m -> sequential (fst (m h)).
Proof.
  intros T n. destruct (T h) as [S _].
  exact (sequential_from_prefixes _ _ S n).
Qed.

End Tidy.

(** ** The results of a predicate *)

Lemma returned_non_boolean_existsb (t : trace) :
  returned_non_boolean t -> existsb non_boolean_result t = true.
Proof.
  intros (key & entry & v & I & N). apply existsb_exists.
  exists (Settle (func_call key entry) (Resolved v)). split; [exact I | exact N].
Qed.

Lemma copies_or_deletes_existsb (t : trace) :
  copies_or_deletes t -> existsb copy_or_delete t = true.
Proof.
  intros (r & I & C). apply existsb_exists. exists (Issue r). split; [exact I|].
  destruct r; try contradiction; reflexivity.
Qed.

Lemma harmless_ret {A : Type} (a : A) : harmless (ret a).
Proof. intros h; split; reflexivity. Qed.

Lemma harmless_bind {A B : Type} (m : M A) (f : A -> M B) :
  harmless m -> (forall a, harmless (f a)) -> harmless (bind m f).
Proof.
  intros Hm Hf h. unfold bind. destruct (Hm h) as [N1 C1].
  destruct (m h) as [t1 a]. destruct (Hf a (h ++ t1)) as [N2 C2].
  destruct (f a (h ++ t1)) as [t2 b]. cbn [fst] in *.
  rewrite !existsb_app, N1, C1, N2, C2. split; reflexivity.
Qed.

Section Checked.

Variable this : S3renity.t.

Lemma harmless_get (arg1 arg2 : string) : harmless (S3renity.get this arg1 arg2).
Proof.
  intros h. unfold S3renity.get, S3renity.get_settle, bind, issue, settle.
  destruct (aws.getObject _ _ _ _); [destruct (S3renity.transformer this)|];
    split; reflexivity.
Qed.

Lemma harmless_listObjects (bucket prefix marker : string) :
  harmless (S3renity.listObjects this bucket prefix marker).
Proof.
  intros h. unfold S3renity.listObjects, bind, issue, settle.
  destruct (aws.listObjects _ _ _ _ _); split; reflexivity.
Qed.

Lemma harmless__keys (fuel : nat) (allKeys : list string) (marker : string) :
  harmless (S3renity._keys this fuel allKeys marker).
Proof.
  revert allKeys marker; induction fuel as [|fuel IH]; intros allKeys marker;
    cbn [S3renity._keys]; [apply harmless_ret|].
  apply harmless_bind; [apply harmless_listObjects|].
  intros [keys|err]; [|apply harmless_ret].
  destruct (List.length keys =? 0)%nat; [apply harmless_ret | apply IH].
Qed.

Lemma checked_harmless (m : M js_value) : harmless m -> checked m.
Proof. intros H h N. destruct (H h) as [N' _]. congruence. Qed.

Lemma checked_bind {A : Type} (m : M A) (f : A -> M js_value) :
  harmless m -> (forall a, checked (f a)) -> checked (bind m f).
Proof.
  intros Hm Hf h. unfold bind. destruct (Hm h) as [N1 C1].
  destruct (m h) as [t1 a]. specialize (Hf a (h ++ t1)).
  destruct (f a (h ++ t1)) as [t2 b]. cbn [fst snd] in *.
  rewrite !existsb_app, N1, C1. exact Hf.
Qed.

Lemma checked_call (key entry : string) (result : outcome js_value)
  (f : outcome js_value -> M js_value) :
  (forall v h, not_boolean v = true ->
               f (Resolved v) h
               = ([], TypeError "Filter function must return a boolean")) ->
  (forall o, checked (f o)) ->
  checked (bind (call (fun v => v) key entry result) f).
Proof.
  intros Hn Hf h. unfold bind, call.
  destruct result as [v|e].
  - destruct (not_boolean v) eqn:N.
    + rewrite (Hn v _ N). intros _. split; reflexivity.
    + specialize (Hf (Resolved v)
                    (h ++ [Issue (func_call key entry);
                           Settle (func_call key entry) (Resolved v)])).
      destruct (f _ _) as [t2 b]. cbn [fst snd app existsb non_boolean_result] in *.
      rewrite N. exact Hf.
  - specialize (Hf (Rejected e)
                  (h ++ [Issue (func_call key entry);
                         Settle (func_call key entry) (Rejected e)])).
    destruct (f _ _) as [t2 b]. exact Hf.
Qed.

Lemma callfree_ret {A : Type} (a : A) : callfree (ret a).
Proof. intros h; reflexivity. Qed.

Lemma callfree_bind {A B : Type} (m : M A) (f : A -> M B) :
  callfree m -> (forall a, callfree (f a)) -> callfree (bind m f).
Proof.
  intros Hm Hf h. unfold bind. specialize (Hm h).
  destruct (m h) as [t1 a]. specialize (Hf a (h ++ t1)).
  destruct (f a (h ++ t1)) as [t2 b]. cbn [fst] in *.
  now rewrite existsb_app, Hm, Hf.
Qed.

Lemma callfree_issue_all (requests : list request) : callfree (issue_all requests).
Proof.
  intros h. unfold issue_all. cbn [fst].
  induction requests; [reflexivity | exact IHrequests].
Qed.

Lemma callfree_copy_settle (sb sk tb tk : string) :
  callfree (S3renity.copy_settle this sb sk tb tk).
Proof.
  intros h. unfold S3renity.copy_settle, settle.
  destruct (aws.copyObject _ _ _ _ _); reflexivity.
Qed.

Lemma callfree_await_all {P A : Type} (await : P -> M (outcome A))
  (promises : list P) :
  (forall p, callfree (await p)) -> callfree (await_all await promises).
Proof.
  intros H. induction promises as [|p rest IH]; cbn [await_all].
  - apply callfree_ret.
  - apply callfree_bind; [apply H|]. intros o.
    apply callfree_bind; [exact IH|]. intros os. apply callfree_ret.
Qed.

Lemma callfree_delete (bucket : string) (keys : list string) :
  callfree (S3renity.delete this bucket keys).
Proof.
  intros h. unfold S3renity.delete, S3renity.deleteObjects, bind, issue, settle.
  destruct (aws.deleteObjects _ _ _ _); reflexivity.
Qed.

Lemma finish_has_no_call (keepObjects removeObjects : list string) :
  callfree (S3renity.filter_finish this keepObjects removeObjects).
Proof.
  unfold S3renity.filter_finish. destruct (S3renity.hasTarget this).
  - apply callfree_bind; [apply callfree_issue_all|]. intros _.
    apply callfree_bind.
    + apply callfree_await_all. intros p. apply callfree_copy_settle.
    + intros os. destruct (Promise_all os); apply callfree_ret.
  - apply callfree_bind; [apply callfree_delete|].
    intros [u|e]; apply callfree_ret.
Qed.

Lemma checked_filter_filterObjects func isAsync keys keepObjects removeObjects :
  checked
    (S3renity.filter_filterObjects this func isAsync keys keepObjects removeObjects).
Proof.
  revert keepObjects removeObjects; induction keys as [|key keys IH];
    intros keepObjects removeObjects; cbn [S3renity.filter_filterObjects].
  - intros h N. rewrite finish_has_no_call in N. discriminate.
  - apply checked_bind; [apply harmless_get|].
    intros [body|err]; [|apply checked_harmless, harmless_ret].
    destruct isAsync; apply checked_call.
    all: try (intros v h N; unfold S3renity.filter_checkResult; now rewrite N).
    all: intros [result|e]; [|apply checked_harmless, harmless_ret].
    all: unfold S3renity.filter_checkResult; destruct (not_boolean result);
      [apply checked_harmless, harmless_ret|].
    all: destruct (truthy result); apply IH.
Qed.

Lemma checked_filter_promise fuel func isAsync (h t : trace)
  (o : option (outcome unit)) :
  S3renity.delimiter this = None ->
  S3renity.filter_promise this fuel func isAsync h = (t, o) ->
  existsb non_boolean_result t = true ->
  o = Some (Rejected (TypeError "Filter function must return a boolean")) /\
  existsb copy_or_delete t = false.
Proof.
  intros D E. unfold S3renity.filter_promise, S3renity.with_keys, S3renity.list in E.
  rewrite D in E. unfold bind in E.
  destruct (harmless__keys fuel [] (S3renity._marker this) h) as [N1 C1].
  destruct (S3renity._keys this fuel [] (S3renity._marker this) h) as [t1 keys].
  cbn [fst snd] in *.
  destruct keys as [[keys|err]|]; cbn [ret] in E;
    try (inversion E; subst; rewrite app_nil_r, N1; discriminate).
  pose proof (checked_filter_filterObjects func isAsync keys [] [] (h ++ t1)) as K.
  destruct (S3renity.filter_filterObjects _ _ _ _ _ _ _) as [t2 err].
  cbn [fst snd] in K. inversion E; subst.
  rewrite !app_nil_r, !existsb_app, N1, C1. cbn [orb].
  intros N. destruct (K N) as [Er C]. subst err. split; [reflexivity | exact C].
Qed.

End Checked.

(** ** The shape of a run *)

Lemma run_pair {A : Type} (m : M A) (h : trace) : m h = (fst (m h), snd (m h)).
Proof. now destruct (m h). Qed.

Lemma with_keys_run {A : Type} (this : S3renity.t) (fuel : nat)
  (k : list string -> M (outcome A)) (h t : trace) (keys : list string) :
  S3renity.list this fuel h = (t, Some (Resolved keys)) ->
  S3renity.with_keys this fuel k h
  = (t ++ fst (k keys (h ++ t)), Some (snd (k keys (h ++ t)))).
Proof.
  intros L. unfold S3renity.with_keys. rewrite (bind_run _ _ _ _ _ L).
  cbv beta iota. unfold bind. destruct (k keys (h ++ t)) as [t1 r].
  cbn [ret fst snd]. now rewrite app_nil_r.
Qed.

Lemma puts_app (t1 t2 : trace) : puts (t1 ++ t2) = puts t1 ++ puts t2.
Proof. apply flat_map_app. Qed.

Lemma gets_app (t1 t2 : trace) : gets (t1 ++ t2) = gets t1 ++ gets t2.
Proof. apply flat_map_app. Qed.

Lemma writes_nothing_ret {A : Type} (a : A) : writes_nothing (ret a).
Proof. intros h; reflexivity. Qed.

Lemma writes_nothing_bind {A B : Type} (m : M A) (f : A -> M B) :
  writes_nothing m -> (forall a, writes_nothing (f a)) -> writes_nothing (bind m f).
Proof.
  intros Hm Hf h. unfold bind. specialize (Hm h).
  destruct (m h) as [t1 a]. specialize (Hf a (h ++ t1)).
  destruct (f a (h ++ t1)) as [t2 b]. cbn [fst] in *.
  now rewrite puts_app, Hm, Hf.
Qed.

Section Shape.

Variable this : S3renity.t.

Lemma get_writes_nothing (arg1 arg2 : string) :
  writes_nothing (S3renity.get this arg1 arg2).
Proof.
  intros h. unfold S3renity.get, S3renity.get_settle, S3renity.get_request,
    bind, issue, settle.
  destruct (aws.getObject _ _ _ _); [destruct (S3renity.transformer this)|];
    reflexivity.
Qed.

Lemma listObjects_writes_nothing (bucket prefix marker : string) :
  writes_nothing (S3renity.listObjects this bucket prefix marker).
Proof.
  intros h. unfold S3renity.listObjects, bind, issue, settle.
  destruct (aws.listObjects _ _ _ _ _); reflexivity.
Qed.

Lemma list_writes_nothing (fuel : nat) : writes_nothing (S3renity.list this fuel).
Proof.
  unfold S3renity.list. generalize (@nil string) (S3renity._marker this).
  induction fuel as [|fuel IH]; intros allKeys marker; cbn [S3renity._keys].
  - apply writes_nothing_ret.
  - apply writes_nothing_bind; [apply listObjects_writes_nothing|].
    intros [keys|err]; [|apply writes_nothing_ret].
    destruct (List.length keys =? 0)%nat; [apply writes_nothing_ret | apply IH].
Qed.

Lemma splitObject_writes_nothing bucket key delimiter encoding :
  writes_nothing (S3renity.splitObject this bucket key delimiter encoding).
Proof.
  unfold S3renity.splitObject.
  apply writes_nothing_bind; [apply get_writes_nothing|].
  intros [body|err]; [destruct (body =? "")%string|]; apply writes_nothing_ret.
Qed.

(** In asynchronous mode the split filter ends at its first object. *)
Lemma filter_splitObjects_async_run func key keys (h : trace) :
  S3renity.filter_splitObjects this func true (key :: keys) h
  = (fst (S3renity.splitObject this (S3renity.bucket this) key
            (S3renity.delimiter this) (Some (S3renity.encoding this)) h),
     match snd (S3renity.splitObject this (S3renity.bucket this) key
                  (S3renity.delimiter this) (Some (S3renity.encoding this)) h)
     with
     | Resolved _ => ReferenceError "promises is not defined"
     | Rejected err => err
     end).
Proof.
  cbn [S3renity.filter_splitObjects]. unfold bind at 1.
  destruct (S3renity.splitObject _ _ _ _ _ h) as [t1 [entries|err]];
    cbn; now rewrite ?app_nil_r.
Qed.

Lemma filter_splitObjects_async_writes_nothing func keys :
  writes_nothing (S3renity.filter_splitObjects this func true keys).
Proof.
  intros h. destruct keys as [|key keys]; [reflexivity|].
  rewrite filter_splitObjects_async_run. cbn [fst].
  apply splitObject_writes_nothing.
Qed.

Lemma splitObject_run bucket key delimiter encoding (h t : trace) (body : string) :
  S3renity.get this bucket key h = (t, Resolved body) ->
  S3renity.splitObject this bucket key delimiter encoding h
  = (t, Resolved (if (body =? "")%string then []
                  else String_split body
                         match delimiter with Some d => d | None => newline end)).
Proof.
  intros G. unfold S3renity.splitObject. rewrite (bind_run _ _ _ _ _ G).
  destruct (body =? "")%string; cbn; now rewrite app_nil_r.
Qed.

End Shape.

(** C2: in asynchronous mode, on a split instance with a non-empty
    working set whose first object is fetched, [filter] ends there: its
    trace is the listing and that one fetch, nothing is written, and the
    promise rejects with the ReferenceError of [_filterSplitObject]. *)
Theorem filter_split_async_rejects (this : S3renity.t) (fuel : nat)
  (func : string -> outcome js_value) (h t t1 : trace) (d key body : string)
  (keys : list string) :
  S3renity.delimiter this = Some d ->
  S3renity.list this fuel h = (t, Some (Resolved (key :: keys))) ->
  S3renity.get this (S3renity.bucket this) key (h ++ t) = (t1, Resolved body) ->
  exists promise,
    S3renity.filter this fuel (function func) (Some true) = Promised promise /\
    promise h
    = (t ++ t1, Some (Rejected (ReferenceError "promises is not defined"))).
Proof.
  intros D L G. eexists. split; [reflexivity|].
  unfold S3renity.filter_promise. rewrite (with_keys_run _ _ _ _ _ _ L), D.
  unfold bind. rewrite filter_splitObjects_async_run.
  rewrite (splitObject_run _ _ _ _ _ _ _ _ G). cbn. now rewrite app_nil_r.
Qed.

Lemma filter_split_async_rejects_witness :
  let s3 := store.make "bucket" [("dir/a", lines ["keep"; "drop"; "keep"])] in
  let this := S3renity.split (store.instance s3 "bucket" "dir") (Some newline) in
  option_map (fun r => (gets (fst r), puts (fst r), snd r))
    (run (S3renity.filter this 2 (function keep) (Some true)))
  = Some ([("bucket", "dir/a")], [],
          Some (Rejected (ReferenceError "promises is not defined"))).
Proof.
  intros s3 this.
  destruct (filter_split_async_rejects this 2 keep []
              (fst (S3renity.list this 2 []))
              (fst (S3renity.get this "bucket" "dir/a" (fst (S3renity.list this 2 []))))
              newline "dir/a" (lines ["keep"; "drop"; "keep"]) []
              eq_refl eq_refl eq_refl)
    as (promise & F & R).
  rewrite F. cbn [run option_map]. rewrite R. vm_compute. reflexivity.
Defined.

(** C10: in asynchronous mode [filter] on a split instance writes no
    object, whatever the working set and the predicate. *)
Theorem filter_split_async_writes_nothing (this : S3renity.t) (fuel : nat)
  (func : string -> outcome js_value) (h : trace) (d : string) :
  S3renity.delimiter this = Some d ->
  exists promise,
    S3renity.filter this fuel (function func) (Some true) = Promised promise /\
    puts (fst (promise h)) = [].
Proof.
  intros D. eexists. split; [reflexivity|].
  unfold S3renity.filter_promise, S3renity.with_keys. rewrite D.
  apply writes_nothing_bind; [apply list_writes_nothing|].
  intros [[keys|err]|]; try apply writes_nothing_ret.
  apply writes_nothing_bind; [|intros; apply writes_nothing_ret].
  apply writes_nothing_bind; [|intros; apply writes_nothing_ret].
  apply filter_splitObjects_async_writes_nothing.
Qed.

Lemma filter_split_async_writes_nothing_witness :
  let s3 := store.make "bucket"
              [("dir/a", lines ["x"; "y"]); ("dir/b", lines ["z"])] in
  let this := S3renity.split (store.instance s3 "bucket" "dir") None in
  option_map (fun r => puts (fst r))
    (run (S3renity.filter this 2 (function always) (Some true))) = Some []
  /\
  option_map (fun r => puts (fst r))
    (run (S3renity.filter this 2 (function always) None))
  = Some [("bucket", "dir/a", VStr (lines ["x"; "y"]));
          ("bucket", "dir/b", VStr (lines ["z"]))].
Proof.
  intros s3 this. split; [|vm_compute; reflexivity].
  destruct (filter_split_async_writes_nothing this 2 always [] newline eq_refl)
    as (promise & F & P).
  rewrite F. cbn [run option_map]. now rewrite P.
Defined.

(** C3: on a split instance with a non-empty working set [reduce] does
    nothing beyond the listing and rejects with the ReferenceError of
    [_splitAndReduceObjects]. *)
Theorem reduce_split_rejects (A : Type) (this : S3renity.t) (fuel : nat)
  (func : A -> string -> string -> outcome A) (initialValue : A)
  (isAsync : option bool) (h t : trace) (d key : string) (keys : list string) :
  S3renity.delimiter this = Some d ->
  S3renity.list this fuel h = (t, Some (Resolved (key :: keys))) ->
  exists promise,
    S3renity.reduce this fuel (function func) initialValue isAsync
    = Promised promise /\
    promise h = (t, Some (Rejected (ReferenceError "key is not defined"))).
Proof.
  intros D L. eexists. split; [reflexivity|].
  unfold S3renity.reduce_promise. rewrite (with_keys_run _ _ _ _ _ _ L), D.
  cbn. now rewrite app_nil_r.
Qed.

Lemma reduce_split_rejects_witness :
  let s3 := store.make "bucket" [("dir/a", lines ["ab"; "c"]); ("dir/b", "de")] in
  let this := S3renity.split (store.instance s3 "bucket" "dir") (Some newline) in
  option_map (fun r => (gets (fst r), snd r))
    (run (S3renity.reduce this 2 (function add_length) 0%Z None))
  = Some ([], Some (Rejected (ReferenceError "key is not defined"))).
Proof.
  intros s3 this.
  destruct (reduce_split_rejects Z this 2 add_length 0%Z None []
              (fst (S3renity.list this 2 [])) newline "dir/a" ["dir/b"]
              eq_refl eq_refl)
    as (promise & F & R).
  rewrite F. cbn [run option_map]. rewrite R. vm_compute. reflexivity.
Defined.

Lemma map_output_issue (this : S3renity.t) (key : string) (body : js_value)
  (h : trace) :
  exists o,
    fst (S3renity.map_output this key body h)
    = [Issue (putObject_request (fst (destination this key))
                (snd (destination this key)) body);
       Settle (putObject_request (fst (destination this key))
                 (snd (destination this key)) body) o].
Proof.
  unfold S3renity.map_output, destination, S3renity.put, bind, issue, settle.
  destruct (S3renity.hasTarget this); cbn [fst snd];
    destruct (aws.putObject _ _ _ _ _); eexists; reflexivity.
Qed.

Lemma bind_ret_fst {A B : Type} (m : M A) (g : A -> B) (h : trace) :
  fst (bind m (fun a => ret (g a)) h) = fst (m h).
Proof.
  unfold bind, ret. destruct (m h) as [t a]. cbn [fst]. apply app_nil_r.
Qed.

Lemma bind_fst {A B : Type} (m : M A) (f : A -> M B) (h t1 : trace) (a : A) :
  m h = (t1, a) -> fst (bind m f h) = t1 ++ fst (f a (h ++ t1)).
Proof. intros E. now rewrite (bind_run _ _ _ _ _ E). Qed.

Lemma map_mapObject_first (this : S3renity.t) func isAsync isSplit key keys
  (h t1 : trace) (body : string) (v : js_value) :
  S3renity.get this (S3renity.bucket this) key h = (t1, Resolved body) ->
  func body = Resolved v ->
  exists rest,
    fst (S3renity.map_mapObject this func isAsync isSplit (key :: keys) h)
    = t1 ++
      [Issue (func_call key body);
       Settle (func_call key body) (Resolved v);
       Issue (putObject_request (fst (destination this key))
                (snd (destination this key)) v)] ++ rest.
Proof.
  intros G F. cbn [S3renity.map_mapObject]. rewrite (bind_fst _ _ _ _ _ G).
  set (h1 := h ++ t1).
  assert (C : call (fun x : js_value => x) key body (func body) h1
              = ([Issue (func_call key body);
                  Settle (func_call key body) (Resolved v)], Resolved v))
    by (unfold call; now rewrite F).
  destruct (map_output_issue this key v
              (h1 ++ [Issue (func_call key body);
                      Settle (func_call key body) (Resolved v)])) as [o P].
  destruct isAsync; rewrite (bind_fst _ _ _ _ _ C);
    rewrite (bind_fst _ _ _ _ _ (run_pair _ _)), P;
    eexists; cbn [app]; reflexivity.
Qed.

Lemma map_splitObjects_first (this : S3renity.t) func isAsync isSplit key keys
  (h t1 t2 : trace) (body : string) (newEntries : list js_value) :
  S3renity.get this (S3renity.bucket this) key h = (t1, Resolved body) ->
  S3renity.map_mapSplit func isAsync key
    (if (body =? "")%string then []
     else String_split body
            match S3renity.delimiter this with Some d => d | None => newline end)
    (h ++ t1)
  = (t2, Resolved newEntries) ->
  exists rest,
    fst (S3renity.map_splitObjects this func isAsync isSplit (key :: keys) h)
    = t1 ++ t2 ++
      [Issue (putObject_request (fst (destination this key))
                (snd (destination this key))
                (VStr (Array_join newEntries (S3renity.delimiter this))))] ++ rest.
Proof.
  intros G S. cbn [S3renity.map_splitObjects].
  rewrite (bind_fst _ _ _ _ _ (splitObject_run this _ _ _ _ _ _ _ G)).
  rewrite (bind_fst _ _ _ _ _ S).
  destruct (map_output_issue this key
              (VStr (Array_join newEntries (S3renity.delimiter this)))
              ((h ++ t1) ++ t2)) as [o P].
  rewrite (bind_fst _ _ _ _ _ (run_pair _ _)), P.
  eexists; cbn [app]; reflexivity.
Qed.

(** C1: [map] starts in the wrong mode.  On a split instance the user
    function is called on the whole body of the first object and its
    result is the body written; on an instance without delimiter the
    first object is split on the line feed, and what is written is the
    mapped lines joined with a comma. *)
Theorem map_first_object_wrong_mode (this : S3renity.t) (fuel : nat)
  (func : string -> outcome js_value) (isAsync : option bool)
  (h t t1 : trace) (key body : string) (keys : list string) :
  S3renity.list this fuel h = (t, Some (Resolved (key :: keys))) ->
  S3renity.get this (S3renity.bucket this) key (h ++ t) = (t1, Resolved body) ->
  exists promise,
    S3renity.map this fuel (function func) isAsync = Promised promise /\
    (forall d v,
        S3renity.delimiter this = Some d ->
        func body = Resolved v ->
        exists rest,
          fst (promise h)
          = t ++ t1 ++
            [Issue (func_call key body);
             Settle (func_call key body) (Resolved v);
             Issue (putObject_request (fst (destination this key))
                      (snd (destination this key)) v)] ++ rest) /\
    (forall t2 newEntries,
        S3renity.delimiter this = None ->
        S3renity.map_mapSplit func
          match isAsync with Some b => b | None => false end key
          (if (body =? "")%string then [] else String_split body newline)
          ((h ++ t) ++ t1)
        = (t2, Resolved newEntries) ->
        exists rest,
          fst (promise h)
          = t ++ t1 ++ t2 ++
            [Issue (putObject_request (fst (destination this key))
                      (snd (destination this key))
                      (VStr (Array_join newEntries None)))] ++ rest).
Proof.
  intros L G. eexists. split; [reflexivity|]. split.
  - intros d v D F. unfold S3renity.map_promise.
    rewrite (with_keys_run _ _ _ _ _ _ L), D. cbn [fst]. rewrite bind_ret_fst.
    destruct (map_mapObject_first this func
                match isAsync with Some b => b | None => false end
                true key keys _ _ _ _ G F) as [rest R].
    rewrite R. now exists rest.
  - intros t2 newEntries D S. unfold S3renity.map_promise.
    rewrite (with_keys_run _ _ _ _ _ _ L), D. cbn [fst]. rewrite bind_ret_fst.
    destruct (map_splitObjects_first this func
                match isAsync with Some b => b | None => false end
                false key keys (h ++ t) t1 t2 body newEntries G) as [rest R].
    + now rewrite D.
    + rewrite R, D. now exists rest.
Qed.

Lemma map_first_object_wrong_mode_witness :
  let s3 := store.make "bucket" [("dir/a", lines ["a"; "b"; "c"])] in
  let whole := store.instance s3 "bucket" "dir" in
  let split := S3renity.split whole (Some newline) in
  option_map (fun r => List.hd_error (puts (fst r)))
    (run (S3renity.map split 2 (function exclaim) None))
  = Some (Some ("bucket", "dir/a", VStr (lines ["a"; "b"; "c!"])))
  /\
  option_map (fun r => List.hd_error (puts (fst r)))
    (run (S3renity.map whole 2 (function exclaim) None))
  = Some (Some ("bucket", "dir/a", VStr "a!,b!,c!")).
Proof.
  intros s3 whole split. split.
  - destruct (map_first_object_wrong_mode split 2 exclaim None []
                (fst (S3renity.list split 2 []))
                (fst (S3renity.get split "bucket" "dir/a"
                        (fst (S3renity.list split 2 []))))
                "dir/a" (lines ["a"; "b"; "c"]) [] eq_refl eq_refl)
      as (promise & F & S & _).
    destruct (S newline (VStr (lines ["a"; "b"; "c!"])) eq_refl eq_refl)
      as [rest R].
    rewrite F. cbn [run option_map]. rewrite R. vm_compute. reflexivity.
  - destruct (map_first_object_wrong_mode whole 2 exclaim None []
                (fst (S3renity.list whole 2 []))
                (fst (S3renity.get whole "bucket" "dir/a"
                        (fst (S3renity.list whole 2 []))))
                "dir/a" (lines ["a"; "b"; "c"]) [] eq_refl eq_refl)
      as (promise & F & _ & W).
    destruct (W (fst (S3renity.map_mapSplit exclaim false "dir/a" ["a"; "b"; "c"] []))
                [VStr "a!"; VStr "b!"; VStr "c!"] eq_refl eq_refl)
      as [rest R].
    rewrite F. cbn [run option_map]. rewrite R. vm_compute. reflexivity.
Defined.

(** ** What the working paths do *)

(** The whole-object fold: with a user function that returns, over
    objects whose bodies are fetched, [reduce] resolves with the left
    fold over the keys in their order. *)
Lemma reduce_reduceObjects_fold {A : Type} (this : S3renity.t)
  (f : A -> string -> string -> A) (isAsync : bool) (body : string -> string)
  (keys : list string) :
  (forall key h, In key keys ->
                 snd (S3renity.get this (S3renity.bucket this) key h)
                 = Resolved (body key)) ->
  forall (value : A) (h : trace),
    snd (S3renity.reduce_reduceObjects this
           (fun acc b k => Resolved (f acc b k)) isAsync keys value h)
    = (VNull, Some (List.fold_left (fun acc key => f acc (body key) key) keys value)).
Proof.
  induction keys as [|key keys IH]; intros G value h; [reflexivity|].
  cbn [S3renity.reduce_reduceObjects List.fold_left]. unfold bind at 1.
  pose proof (G key h (or_introl eq_refl)) as E.
  destruct (S3renity.get this (S3renity.bucket this) key h) as [t1 o].
  cbn [snd] in E. subst o.
  destruct isAsync; unfold bind, call;
    match goal with
    | |- context [S3renity.reduce_reduceObjects ?t ?g ?a ?k ?v ?x] =>
        specialize (IH (fun key h I => G key h (or_intror I)) v x);
        destruct (S3renity.reduce_reduceObjects t g a k v x) as [t2 r]
    end; cbn [snd] in *; exact IH.
Qed.

Lemma reduce_whole_is_fold {A : Type} (this : S3renity.t) (fuel : nat)
  (f : A -> string -> string -> A) (initialValue : A) (isAsync : option bool)
  (body : string -> string) (h t : trace) (keys : list string) :
  S3renity.delimiter this = None ->
  S3renity.list this fuel h = (t, Some (Resolved keys)) ->
  (forall key h, In key keys ->
                 snd (S3renity.get this (S3renity.bucket this) key h)
                 = Resolved (body key)) ->
  exists promise,
    S3renity.reduce this fuel (function (fun acc b k => Resolved (f acc b k)))
      initialValue isAsync = Promised promise /\
    snd (promise h)
    = Some (Resolved
              (Some (List.fold_left (fun acc key => f acc (body key) key)
                       keys initialValue))).
Proof.
  intros D L G. eexists. split; [reflexivity|].
  unfold S3renity.reduce_promise. rewrite (with_keys_run _ _ _ _ _ _ L), D.
  cbn [snd]. unfold bind.
  pose proof (reduce_reduceObjects_fold this f
                match isAsync with Some b => b | None => false end
                body keys G initialValue (h ++ t)) as R.
  destruct (S3renity.reduce_reduceObjects _ _ _ _ _ _) as [t2 r].
  cbn [snd] in *. subst r. reflexivity.
Qed.

Lemma all_resolved_app (t1 t2 : trace) :
  all_resolved (t1 ++ t2) = all_resolved t1 && all_resolved t2.
Proof. apply forallb_app. Qed.

Lemma bind_inv {A B : Type} (m : M A) (f : A -> M B) (h t : trace) (b : B) :
  bind m f h = (t, b) ->
  exists t1 a t2, m h = (t1, a) /\ f a (h ++ t1) = (t2, b) /\ t = t1 ++ t2.
Proof.
  unfold bind. destruct (m h) as [t1 a].
  destruct (f a (h ++ t1)) as [t2 b'] eqn:F.
  intros E; inversion E; subst. exists t1, a, t2. repeat split. exact F.
Qed.

Lemma all_resolved_cons (e : event) (t : trace) :
  all_resolved (e :: t) = true -> all_resolved t = true.
Proof. intros A. apply andb_prop in A. tauto. Qed.

Lemma call_each_resolved func key entries (h : trace) :
  puts (fst (call_each func key entries h)) = [] /\
  (forall e, snd (call_each func key entries h) = Rejected e ->
             all_resolved (fst (call_each func key entries h)) = false).
Proof.
  revert h; induction entries as [|entry entries IH]; intros h.
  - split; [reflexivity | discriminate].
  - cbn [call_each]. unfold bind at 1, call.
    destruct (func entry) as [v|e0].
    + unfold bind.
      specialize (IH (h ++ [Issue (func_call key entry);
                            Settle (func_call key entry) (Resolved v)])).
      destruct (call_each func key entries _) as [t2 [vs|e1]];
        cbn [fst snd ret] in *; rewrite !app_nil_r;
        destruct IH as [P R]; (split; [exact P|]).
      * discriminate.
      * intros e _. cbn. now apply R with (e := e1).
    + cbn. split; [reflexivity | reflexivity].
Qed.

Lemma splitObject_cases (this : S3renity.t) bucket key delimiter encoding
  (h : trace) :
  S3renity.transformer this = None ->
  let g := S3renity.get_request bucket key in
  (exists entries,
      S3renity.splitObject this bucket key delimiter encoding h
      = ([Issue g; Settle g (Resolved VUndefined)], Resolved entries)) \/
  (exists e,
      S3renity.splitObject this bucket key delimiter encoding h
      = ([Issue g; Settle g (Rejected e)], Rejected e)).
Proof.
  intros T g. unfold S3renity.splitObject, S3renity.get, S3renity.get_settle,
    bind, issue, settle. rewrite T. fold g.
  destruct (aws.getObject _ _ _ _) as [Body|name message].
  - left. cbn [ret]. destruct (Body (S3renity.encoding this) =? "")%string;
      eexists; cbn; reflexivity.
  - right. eexists; cbn; reflexivity.
Qed.

Lemma put_cases (this : S3renity.t) bucket key body (h : trace) :
  let p := putObject_request bucket key body in
  S3renity.put this bucket key body h
  = ([Issue p; Settle p (Resolved VUndefined)], Resolved tt) \/
  (exists e,
      S3renity.put this bucket key body h
      = ([Issue p; Settle p (Rejected e)], Rejected e)).
Proof.
  intros p. unfold S3renity.put, bind, issue, settle. fold p.
  destruct (aws.putObject _ _ _ _ _) as [[]|name message].
  - left. reflexivity.
  - right. eexists; reflexivity.
Qed.

Lemma filter_splitObjects_step (this : S3renity.t) func isAsync key keys :
  S3renity.filter_splitObjects this func isAsync (key :: keys)
  = (entries <- S3renity.splitObject this (S3renity.bucket this) key
                  (S3renity.delimiter this) (Some (S3renity.encoding this)) ;;
     match entries with
     | Rejected err => ret err
     | Resolved entries =>
         newEntries <- S3renity.filter_filterSplitObject func isAsync key entries ;;
         match newEntries with
         | Rejected err => ret err
         | Resolved newEntries =>
             written <-
               S3renity.put this (fst (destination this key))
                 (snd (destination this key))
                 (VStr (Array_join (List.map VStr newEntries)
                          (S3renity.delimiter this))) ;;
             match written with
             | Rejected err => ret err
             | Resolved _ => S3renity.filter_splitObjects this func isAsync keys
             end
         end
     end).
Proof.
  cbn [S3renity.filter_splitObjects]. unfold destination.
  destruct (S3renity.hasTarget this); reflexivity.
Qed.

(** In synchronous mode, a run of the split filter in which nothing fails
    writes each object of the working set once, in order, to its
    destination: over the source key when there is no target. *)
Lemma filter_split_sync_one_put_per_object (this : S3renity.t)
  (func : string -> outcome js_value) (keys : list string) :
  S3renity.transformer this = None ->
  forall (h t : trace) (err : js_value),
    S3renity.filter_splitObjects this func false keys h = (t, err) ->
    all_resolved t = true ->
    List.map fst (puts t) = List.map (destination this) keys.
Proof.
  intros T. induction keys as [|key keys IH]; intros h t err E A.
  - inversion E. reflexivity.
  - rewrite filter_splitObjects_step in E.
    apply bind_inv in E. destruct E as (t1 & entries & t2 & S & E & ->).
    rewrite all_resolved_app in A. apply andb_prop in A. destruct A as [A1 A].
    destruct (splitObject_cases this (S3renity.bucket this) key
                (S3renity.delimiter this) (Some (S3renity.encoding this)) h T)
      as [[entries' S']|[e S']]; rewrite S' in S; inversion S; subst;
      [|discriminate A1].
    apply bind_inv in E. destruct E as (tc & newEntries & t3 & C & E & ->).
    rewrite all_resolved_app in A. apply andb_prop in A. destruct A as [A2 A].
    unfold S3renity.filter_filterSplitObject in C.
    apply bind_inv in C. destruct C as (tc' & results & tr & C & Rt & ->).
    destruct (call_each_resolved func key entries'
                (h ++ [Issue (S3renity.get_request (S3renity.bucket this) key);
                       Settle (S3renity.get_request (S3renity.bucket this) key)
                         (Resolved VUndefined)])) as [P R].
    rewrite C in P, R. cbn [fst snd] in P, R.
    rewrite all_resolved_app in A2. apply andb_prop in A2. destruct A2 as [A2 _].
    destruct results as [results|e];
      [|rewrite (R e eq_refl) in A2; discriminate A2].
    inversion Rt; subst. clear Rt.
    apply bind_inv in E. destruct E as (tp & written & t4 & W & E & ->).
    rewrite all_resolved_app in A. apply andb_prop in A. destruct A as [A3 A].
    match type of W with
    | S3renity.put ?t ?b ?k ?v ?x = _ =>
        destruct (put_cases t b k v x) as [W'|[e W']]
    end; rewrite W' in W; inversion W; subst; [|discriminate A3].
    rewrite !puts_app, P, !List.map_app, (IH _ _ _ E A).
    unfold S3renity.get_request. cbn. now destruct (destination this key).
Qed.

(** ** The operations on concrete stores *)

(** A working set of one object: on a split instance the user function
    gets the whole body; without a delimiter it gets the lines, which
    are joined with a comma. *)
Example map_one_object :
  let s3 := store.make "bucket" [("dir/a", lines ["a"; "b"; "c"])] in
  let whole := store.instance s3 "bucket" "dir" in
  let split := S3renity.split whole (Some newline) in
  option_map (fun r => (puts (fst r), snd r))
    (run (S3renity.map split 2 (function exclaim) None))
  = Some ([("bucket", "dir/a", VStr (lines ["a"; "b"; "c!"]))], Some (Resolved tt))
  /\
  option_map (fun r => (puts (fst r), snd r))
    (run (S3renity.map whole 2 (function exclaim) None))
  = Some ([("bucket", "dir/a", VStr "a!,b!,c!")], Some (Resolved tt)).
Proof. split; vm_compute; reflexivity. Qed.

(** From the second object on, [_continue] chooses the mode the instance
    is in. *)
Example map_later_objects_right_mode :
  let s3 := store.make "bucket"
              [("dir/a", lines ["a"; "b"]); ("dir/b", lines ["c"; "d"])] in
  let split := S3renity.split (store.instance s3 "bucket" "dir") None in
  option_map (fun r => puts (fst r))
    (run (S3renity.map split 2 (function exclaim) None))
  = Some [("bucket", "dir/a", VStr (lines ["a"; "b!"]));
          ("bucket", "dir/b", VStr (lines ["c!"; "d!"]))].
Proof. vm_compute; reflexivity. Qed.

(** The split filter in asynchronous mode. *)
Example filter_split_async_run :
  let s3 := store.make "bucket" [("dir/a", lines ["keep"; "drop"; "keep"])] in
  let this := S3renity.split (store.instance s3 "bucket" "dir") (Some newline) in
  option_map (fun r => (gets (fst r), puts (fst r), snd r))
    (run (S3renity.filter this 2 (function keep) (Some true)))
  = Some ([("bucket", "dir/a")], [],
          Some (Rejected (ReferenceError "promises is not defined"))).
Proof. vm_compute; reflexivity. Qed.

(** In synchronous mode the records that pass are rejoined and written. *)
Example filter_split_sync_writes :
  let s3 := store.make "bucket"
              [("dir/a", lines ["keep"; "drop"; "keep"]); ("dir/b", lines ["drop"])] in
  let this := S3renity.split (store.instance s3 "bucket" "dir") (Some newline) in
  option_map (fun r => (puts (fst r), snd r))
    (run (S3renity.filter this 2 (function keep) None))
  = Some ([("bucket", "dir/a", VStr (lines ["keep"; "keep"]));
           ("bucket", "dir/b", VStr "")], Some (Resolved tt)).
Proof. vm_compute; reflexivity. Qed.

(** [reduce] on a split instance. *)
Example reduce_split_run :
  let s3 := store.make "bucket" [("dir/a", lines ["ab"; "c"]); ("dir/b", "de")] in
  let this := S3renity.split (store.instance s3 "bucket" "dir") (Some newline) in
  option_map (fun r => (gets (fst r), snd r))
    (run (S3renity.reduce this 2 (function add_length) 0%Z None))
  = Some ([], Some (Rejected (ReferenceError "key is not defined"))).
Proof. vm_compute; reflexivity. Qed.

(** Over whole objects of lengths 3, 5 and 2 the fold yields 10. *)
Example reduce_whole_lengths :
  let s3 := store.make "bucket" [("dir/a", "abc"); ("dir/b", "defgh"); ("dir/c", "ij")] in
  let this := store.instance s3 "bucket" "dir" in
  option_map snd (run (S3renity.reduce this 2 (function add_length) 0%Z None))
  = Some (Some (Resolved (Some 10%Z))).
Proof. vm_compute; reflexivity. Qed.

(** The writes of the split filter when every record passes: none in
    asynchronous mode, one per object in synchronous mode. *)
Example filter_split_unchanged_run :
  let s3 := store.make "bucket"
              [("dir/a", lines ["x"; "y"]); ("dir/b", lines ["z"])] in
  let this := S3renity.split (store.instance s3 "bucket" "dir") None in
  option_map (fun r => puts (fst r))
    (run (S3renity.filter this 2 (function always) (Some true))) = Some []
  /\
  option_map (fun r => puts (fst r))
    (run (S3renity.filter this 2 (function always) None))
  = Some [("bucket", "dir/a", VStr (lines ["x"; "y"]));
          ("bucket", "dir/b", VStr (lines ["z"]))].
Proof. split; vm_compute; reflexivity. Qed.

(** ** A predicate that does not return a boolean *)

(** C4 (as stated): [filter] does not throw when the predicate returns a
    string.  On whole objects the call returns its promise, and it is the
    promise that rejects with the type error; on a split instance there
    is no type error at all, the string counts as true and the record is
    kept and written. *)
Lemma non_boolean_is_not_thrown :
  let s3 := store.make "bucket" [("dir/a", "x")] in
  let whole := store.instance s3 "bucket" "dir" in
  let split := S3renity.split whole None in
  (forall e, S3renity.filter whole 2 (function label) None <> Threw e) /\
  option_map snd (run (S3renity.filter whole 2 (function label) None))
  = Some (Some (Rejected (TypeError "Filter function must return a boolean"))) /\
  option_map (fun r => (puts (fst r), snd r))
    (run (S3renity.filter split 2 (function label) None))
  = Some ([("bucket", "dir/a", VStr "x")], Some (Resolved tt)).
Proof.
  split; [discriminate | split; vm_compute; reflexivity].
Qed.

(** C4 (amended): on whole objects, in synchronous and in asynchronous
    mode, a result of the predicate that is not a boolean makes the
    promise of [filter] reject with the type error, and the run neither
    copies nor deletes anything. *)
Theorem non_boolean_rejects_whole_object (this : S3renity.t) (fuel : nat)
  (func : js_function (string -> outcome js_value)) (isAsync : option bool)
  (promise : M (option (outcome unit))) (h t : trace)
  (o : option (outcome unit)) :
  S3renity.delimiter this = None ->
  S3renity.filter this fuel func isAsync = Promised promise ->
  promise h = (t, o) ->
  returned_non_boolean t ->
  o = Some (Rejected (TypeError "Filter function must return a boolean")) /\
  ~ copies_or_deletes t.
Proof.
  intros D F E N. destruct func as [v|func]; [discriminate|].
  cbn [S3renity.filter] in F. inversion F; subst promise.
  destruct (checked_filter_promise this _ _ _ _ _ _ D E
              (returned_non_boolean_existsb _ N)) as [R C].
  split; [exact R|]. intros X. apply copies_or_deletes_existsb in X. congruence.
Qed.

Lemma non_boolean_rejects_whole_object_witness :
  let s3 := store.make "bucket" [("dir/a", "x"); ("dir/b", "y")] in
  let this := store.instance s3 "bucket" "dir" in
  let promise := S3renity.filter_promise this 2 label true in
  snd (promise [])
  = Some (Rejected (TypeError "Filter function must return a boolean")) /\
  ~ copies_or_deletes (fst (promise [])).
Proof.
  intros s3 this promise.
  apply (non_boolean_rejects_whole_object this 2 (function label) (Some true)
           promise [] (fst (promise [])) (snd (promise []))).
  - reflexivity.
  - reflexivity.
  - now destruct (promise []).
  - exists "dir/a", "x", (VStr "yes"). split; [|reflexivity].
    vm_compute. do 7 right. left. reflexivity.
Defined.

(** ** A user function that fails *)

(** C7 (as stated): a user function that rejects with [undefined] on the
    second object stops the iteration, the third object is not fetched,
    but the promise of [forEach] resolves: the value is not delivered as
    a rejection. *)
Lemma falsy_failure_resolves :
  let s3 := store.make "bucket" [("dir/a", "1"); ("dir/b", "2"); ("dir/c", "3")] in
  let this := store.instance s3 "bucket" "dir" in
  option_map (fun r => (gets (fst r), snd r))
    (run (S3renity.forEach this 2 (function (fail_on "2" VUndefined)) (Some true)))
  = Some ([("bucket", "dir/a"); ("bucket", "dir/b")], Some (Resolved tt)).
Proof. vm_compute; reflexivity. Qed.

(** C7 (amended): in [forEach], [map], [reduce] and [filter], in both
    modes, once a call of the user function has thrown or rejected with a
    value [e], no request is issued any more: no object is fetched or
    written after it.  The promise of the operation rejects with [e]
    itself when [e] is truthy; when [e] is falsy ([undefined], [null],
    [false], [0], the empty string) it resolves. *)
Theorem user_failure_aborts (this : S3renity.t) (fuel : nat) :
  (forall func isAsync promise,
      S3renity.forEach this fuel func isAsync = Promised promise ->
      aborts_on_failure promise tt) /\
  (forall func isAsync promise,
      S3renity.map this fuel func isAsync = Promised promise ->
      aborts_on_failure promise tt) /\
  (forall (A : Type) func (initialValue : A) isAsync promise,
      S3renity.reduce this fuel func initialValue isAsync = Promised promise ->
      aborts_on_failure promise None) /\
  (forall func isAsync promise,
      S3renity.filter this fuel func isAsync = Promised promise ->
      aborts_on_failure promise tt).
Proof.
  split; [|split; [|split]].
  - intros [v|func] isAsync promise E; [discriminate|]. inversion E; subst.
    apply reports_aborts, reports_forEach_promise.
  - intros [v|func] isAsync promise E; [discriminate|]. inversion E; subst.
    apply reports_aborts, reports_map_promise.
  - intros A [v|func] initialValue isAsync promise E; [discriminate|].
    inversion E; subst. apply reports_aborts, reports_reduce_promise.
  - intros [v|func] isAsync promise E; [discriminate|]. inversion E; subst.
    apply reports_aborts, reports_filter_promise.
Qed.

Lemma user_failure_aborts_witness :
  let s3 := store.make "bucket" [("dir/a", "1"); ("dir/b", "2"); ("dir/c", "3")] in
  let this := store.instance s3 "bucket" "dir" in
  let promise := S3renity.map_promise this 2 (fail_on "2" (Error "boom")) false in
  nothing_issued (List.skipn 14 (fst (promise []))) /\
  snd (promise []) = Some (Rejected (Error "boom")).
Proof.
  intros s3 this promise.
  destruct (user_failure_aborts this 2) as (_ & H & _).
  apply (H (function (fail_on "2" (Error "boom"))) None promise eq_refl
           [] (fst (promise [])) (snd (promise []))
           (List.firstn 13 (fst (promise []))) (List.skipn 14 (fst (promise [])))
           "dir/b" "2" (Error "boom")).
  - now destruct (promise []).
  - vm_compute. reflexivity.
  - intros key entry e I. vm_compute in I.
    repeat (destruct I as [I|I]; [discriminate I|]). exact I.
Defined.

(** ** One key at a time *)

(** C9 (as stated): [join] asks for every object of the working set
    before it awaits any: with two keys, two fetches are under way at the
    same time. *)
Lemma join_fetches_all_at_once :
  let s3 := store.make "bucket" [("dir/a", "1"); ("dir/b", "2")] in
  let this := store.instance s3 "bucket" "dir" in
  exists (t : trace) (o : option (outcome string)),
    run (S3renity.join this 2 None) = Some (t, o) /\
    inflight (List.firstn 6 t)
    = [getObject_request "bucket" "dir/a"; getObject_request "bucket" "dir/b"] /\
    ~ sequential t.
Proof.
  intros s3 this. eexists. eexists. split; [vm_compute; reflexivity|].
  split; [vm_compute; reflexivity|].
  intros S. specialize (S 6). vm_compute in S. discriminate S.
Qed.

(** With a target, the filter of whole objects copies every kept object
    at once, when all the keys have been gone through. *)
Example filter_copies_all_at_once :
  let s3 := store.make "bucket" [("dir/a", "1"); ("dir/b", "2")] in
  match S3renity.target (store.instance s3 "bucket" "dir") "s3://bucket/out/" with
  | Rejected _ => False
  | Resolved this =>
      exists (t : trace) (o : option (outcome unit)),
        run (S3renity.filter this 2 (function always) None) = Some (t, o) /\
        inflight (List.firstn 14 t)
        = [copyObject_request "bucket" "out/a" "bucket/dir/a";
           copyObject_request "bucket" "out/b" "bucket/dir/b"] /\
        ~ sequential t
  end.
Proof.
  cbv zeta. cbn [S3renity.target]. vm_compute S3renity.target.
  eexists. eexists. split; [vm_compute; reflexivity|].
  split; [vm_compute; reflexivity|].
  intros S. specialize (S 14). vm_compute in S. discriminate S.
Qed.

(** C9 (amended): in [forEach], [map] and [reduce], and in [filter] on a
    split instance or without a target, at every moment of a run at most
    one request is under way, or several that are all calls of the user
    function on records of one key.  ([join] fetches all the objects at
    once, and [filter] on whole objects with a target copies all the kept
    objects at once.) *)
Theorem cross_key_sequential (this : S3renity.t) (fuel : nat) (h : trace) :
  (forall func isAsync promise,
      S3renity.forEach this fuel func isAsync = Promised promise ->
      sequential (fst (promise h))) /\
  (forall func isAsync promise,
      S3renity.map this fuel func isAsync = Promised promise ->
      sequential (fst (promise h))) /\
  (forall (A : Type) func (initialValue : A) isAsync promise,
      S3renity.reduce this fuel func initialValue isAsync = Promised promise ->
      sequential (fst (promise h))) /\
  (forall func isAsync promise,
      S3renity.hasTarget this = false \/ S3renity.delimiter this <> None ->
      S3renity.filter this fuel func isAsync = Promised promise ->
      sequential (fst (promise h))).
Proof.
  split; [|split; [|split]].
  - intros [v|func] isAsync promise E; [discriminate|]. inversion E; subst.
    apply tidy_sequential, tidy_forEach_promise.
  - intros [v|func] isAsync promise E; [discriminate|]. inversion E; subst.
    apply tidy_sequential, tidy_map_promise.
  - intros A [v|func] initialValue isAsync promise E; [discriminate|].
    inversion E; subst. apply tidy_sequential, tidy_reduce_promise.
  - intros [v|func] isAsync promise T E; [discriminate|]. inversion E; subst.
    apply tidy_sequential, tidy_filter_promise. exact T.
Qed.

Lemma cross_key_sequential_witness :
  let s3 := store.make "bucket"
              [("dir/a", lines ["x"; "y"]); ("dir/b", lines ["z"])] in
  let this := S3renity.split (store.instance s3 "bucket" "dir") None in
  sequential (fst (S3renity.forEach_promise this 2 exclaim true [])) /\
  sequential (fst (S3renity.filter_promise this 2 always false [])).
Proof.
  intros s3 this. destruct (cross_key_sequential this 2 []) as (F & _ & _ & G).
  split.
  - exact (F (function exclaim) (Some true) _ eq_refl).
  - apply (G (function always) (Some false) _); [right; discriminate | reflexivity].
Defined.

(** * Further properties of the engine *)

(** ** Paths *)

Section Paths.

Open Scope string_scope.

Lemma index_slash_decompose (s : string) :
  match String.index 0 "/" s with
  | Some q => exists a b, s = a ++ "/" ++ b /\ String.index 0 "/" a = None
  | None => True
  end.
Proof.
  destruct (String.index 0 "/" s) as [q|] eqn:I; [|exact Logic.I].
  destruct (index_cut _ _ _ I) as (a & b & E & _ & F).
  exists a, b. split; [exact E | apply F; discriminate].
Qed.

Lemma prefix_scheme_no_slash (b : string) :
  String.index 0 "/" b = None -> String.prefix "s3://" b = false.
Proof.
  intros H. destruct (String.prefix "s3://" b) eqn:P; [|reflexivity].
  destruct (prefix_split _ _ P) as [r ->].
  change ("s3://" ++ r) with ("s3:" ++ "/" ++ ("/" ++ r)) in H.
  rewrite index_none_app in H by reflexivity. discriminate.
Qed.

Lemma scheme_or_file (key : string) :
  (exists rest, key = "s3://" ++ rest) \/ String.prefix "s3://" key = false.
Proof.
  destruct (String.prefix "s3://" key) eqn:P; [left | now right].
  exact (prefix_split _ _ P).
Qed.

Lemma slash_or_none (s : string) :
  String.index 0 "/" s = None \/
  exists a b, s = a ++ "/" ++ b /\ String.index 0 "/" a = None.
Proof.
  pose proof (index_slash_decompose s) as D.
  destruct (String.index 0 "/" s); [right; exact D | now left].
Qed.

(** X1: [resolveKey] loses nothing of an s3 path: the bucket it returns has
    no slash, and the path is the scheme, the bucket, a slash and the
    prefix, or, for a path without a slash after the scheme, the scheme
    and the bucket, which is then the prefix as well. *)
Theorem resolveKey_reassembles (key b p : string) :
  target.bucket (resolveKey key) = Some b ->
  target.prefix (resolveKey key) = Some p ->
  String.index 0 "/" b = None /\
  (key = "s3://" ++ b ++ "/" ++ p \/ key = "s3://" ++ b /\ p = b).
Proof.
  intros B P. destruct (scheme_or_file key) as [[rest ->]|F].
  - destruct (slash_or_none rest) as [N|(a & c & -> & N)].
    + rewrite (resolveKey_bare _ N) in B, P. cbn in B, P.
      inversion B; inversion P; subst. split; [exact N | right; now split].
    + rewrite (resolveKey_path _ _ N) in B, P. cbn in B, P.
      inversion B; inversion P; subst. split; [exact N | now left].
  - rewrite (resolveKey_file _ F) in B. discriminate B.
Qed.

Lemma resolveKey_reassembles_witness :
  String.index 0 "/" "bucket" = None /\
  ("s3://bucket/dir/a.txt" = "s3://" ++ "bucket" ++ "/" ++ "dir/a.txt" \/
   "s3://bucket/dir/a.txt" = "s3://" ++ "bucket" /\ "dir/a.txt" = "bucket").
Proof.
  exact (resolveKey_reassembles "s3://bucket/dir/a.txt" "bucket" "dir/a.txt"
           eq_refl eq_refl).
Defined.

Lemma last_index_spec (s : string) :
  match last_index "/" s with
  | Some n =>
      exists a b, s = a ++ "/" ++ b /\ String.length a = n /\
                  String.index 0 "/" b = None
  | None => String.index 0 "/" s = None
  end.
Proof.
  induction s as [|c s IH]; [reflexivity|].
  cbn [last_index]. destruct (last_index "/" s) as [n|].
  - destruct IH as (a & b & -> & L & N).
    exists (String c a), b. cbn. now rewrite L.
  - destruct (String.prefix "/" (String c s)) eqn:P.
    + destruct (prefix_split _ _ P) as [r E].
      exists "", s. cbn in E. inversion E; subst. now split.
    + cbn [String.index]. now rewrite P, IH.
Qed.

(** X2: [getFileName] returns what follows the last slash of the key: a name
    without a slash, which is the whole key when the key has none. *)
Theorem getFileName_after_last_slash (key : string) :
  String.index 0 "/" (getFileName key) = None /\
  (getFileName key = key \/ exists dir, key = dir ++ "/" ++ getFileName key).
Proof.
  unfold getFileName, String_lastIndexOf.
  pose proof (last_index_spec key) as S.
  destruct (last_index "/" key) as [n|].
  - destruct S as (a & b & -> & L & N).
    assert (E : String_substr (a ++ "/" ++ b) (Z.of_nat n + 1)
                  (Z.of_nat (String.length (a ++ "/" ++ b))) = b).
    { rewrite <- append_assoc'.
      replace (Z.of_nat n + 1)%Z with (Z.of_nat (String.length (a ++ "/")))
        by (rewrite length_app; simpl String.length; lia).
      apply String_substr_from. }
    rewrite E. split; [exact N | right; now exists a].
  - cbn [Z.add Z.opp Z.pos_sub]. rewrite String_substr_whole.
    split; [exact S | now left].
Qed.

(** ** The configuration surface *)

(** X3: [context] throws on anything that is not an s3 path, and otherwise
    sets the bucket and the prefix of the instance and nothing else; for
    a path without a slash after the scheme the prefix is the bucket. *)
Theorem context_sets_source (this : S3renity.t) :
  (forall key, String.prefix "s3://" key = false ->
               S3renity.context this key = Rejected (Error S3_PATH_ERROR)) /\
  (forall b p, String.index 0 "/" b = None ->
               S3renity.context this ("s3://" ++ b ++ "/" ++ p)
               = Resolved
                   (S3renity.make (S3renity.s3 this) (S3renity._marker this)
                      (S3renity.encoding this) (S3renity.hasTarget this) b p
                      (S3renity.targetBucket this) (S3renity.targetPrefix this)
                      (S3renity.delimiter this) (S3renity.transformer this))) /\
  (forall b, String.index 0 "/" b = None ->
             S3renity.context this ("s3://" ++ b)
             = Resolved
                 (S3renity.make (S3renity.s3 this) (S3renity._marker this)
                    (S3renity.encoding this) (S3renity.hasTarget this) b b
                    (S3renity.targetBucket this) (S3renity.targetPrefix this)
                    (S3renity.delimiter this) (S3renity.transformer this))).
Proof.
  unfold S3renity.context. split; [|split].
  - intros key F. now rewrite (resolveKey_file _ F).
  - intros b p N. now rewrite (resolveKey_path _ _ N).
  - intros b N. now rewrite (resolveKey_bare _ N).
Qed.

Lemma context_sets_source_witness :
  let this := store.instance (store.make "old" []) "old" "dir" in
  S3renity.context this "/tmp/folder" = Rejected (Error S3_PATH_ERROR) /\
  option_map (fun i => (S3renity.bucket i, S3renity.prefix i))
    match S3renity.context this "s3://bucket/path/to" with
    | Resolved i => Some i
    | Rejected _ => None
    end = Some ("bucket", "path/to") /\
  option_map (fun i => (S3renity.bucket i, S3renity.prefix i))
    match S3renity.context this "s3://bucket" with
    | Resolved i => Some i
    | Rejected _ => None
    end = Some ("bucket", "bucket").
Proof.
  intros this. destruct (context_sets_source this) as (F & P & B).
  split; [exact (F "/tmp/folder" eq_refl)|]. split.
  - change "s3://bucket/path/to" with ("s3://" ++ "bucket" ++ "/" ++ "path/to").
    rewrite (P "bucket" "path/to" eq_refl). reflexivity.
  - change "s3://bucket" with ("s3://" ++ "bucket").
    rewrite (B "bucket" eq_refl). reflexivity.
Defined.




End Paths.

(** ** The wrappers of the store *)

Lemma get_target_path (b k arg2 : string) :
  String.index 0 "/" b = None ->
  S3renity.get_target ("s3://" ++ b ++ "/" ++ k)%string arg2 = (b, k).
Proof.
  intros N. unfold S3renity.get_target. now rewrite (resolveKey_path _ _ N).
Qed.

Lemma get_target_pair (b k : string) :
  String.prefix "s3://" b = false -> S3renity.get_target b k = (b, k).
Proof.
  intros F. unfold S3renity.get_target. now rewrite (resolveKey_file _ F).
Qed.

(** X6: [get] of an s3 path is [get] of the bucket and the key the path
    names, and the second argument is not looked at; a first argument
    that is not an s3 path is taken as the bucket. *)
Theorem get_path_is_get_pair (this : S3renity.t) (b k arg2 : string) :
  String.index 0 "/" b = None ->
  S3renity.get this ("s3://" ++ b ++ "/" ++ k)%string arg2 = S3renity.get this b k /\
  S3renity.get_request b k = getObject_request b k.
Proof.
  intros N.
  unfold S3renity.get, S3renity.get_settle, S3renity.get_request.
  rewrite (get_target_path b k arg2 N),
    (get_target_pair b k (prefix_scheme_no_slash b N)).
  split; reflexivity.
Qed.

Lemma get_path_is_get_pair_witness :
  let this := store.instance (store.make "b" [("dir/a", "text")]) "b" "dir" in
  S3renity.get this "s3://b/dir/a" "ignored" []
  = ([Issue (getObject_request "b" "dir/a");
      Settle (getObject_request "b" "dir/a") (Resolved VUndefined)],
     Resolved "text").
Proof.
  intros this.
  change "s3://b/dir/a" with ("s3://" ++ "b" ++ "/" ++ "dir/a")%string.
  destruct (get_path_is_get_pair this "b" "dir/a" "ignored" eq_refl) as [E _].
  rewrite E. reflexivity.
Defined.

(** ** What an operation sends *)

Lemma forallb_image {A B : Type} (f : B -> bool) (g : A -> B) (l : list A) :
  forallb f (List.map g l) = forallb (fun x => f (g x)) l.
Proof. induction l as [|x l IH]; cbn; [reflexivity | now rewrite IH]. Qed.

Lemma issues_only_app (allowed : request -> bool) (t1 t2 : trace) :
  issues_only allowed (t1 ++ t2)
  = issues_only allowed t1 && issues_only allowed t2.
Proof. apply forallb_app. Qed.

Lemma issues_only_In (allowed : request -> bool) (t : trace) :
  issues_only allowed t = true ->
  forall r, In (Issue r) t -> allowed r = true.
Proof.
  intros F r I. unfold issues_only in F. rewrite forallb_forall in F.
  exact (F _ I).
Qed.

Lemma only_issues_ret {A : Type} allowed (a : A) : only_issues allowed (ret a).
Proof. intros h; reflexivity. Qed.

Lemma only_issues_bind {A B : Type} allowed (m : M A) (f : A -> M B) :
  only_issues allowed m -> (forall a, only_issues allowed (f a)) ->
  only_issues allowed (bind m f).
Proof.
  intros Hm Hf h. unfold bind. specialize (Hm h).
  destruct (m h) as [t1 a]. specialize (Hf a (h ++ t1)).
  destruct (f a (h ++ t1)) as [t2 b]. cbn [fst] in *.
  now rewrite issues_only_app, Hm, Hf.
Qed.

Lemma only_issues_issue allowed (r : request) :
  allowed r = true -> only_issues allowed (issue r).
Proof. intros H h. cbn. now rewrite H. Qed.

Lemma only_issues_settle {A : Type} allowed (r : request)
  (answer : trace -> response A) :
  only_issues allowed (settle r answer).
Proof. intros h. unfold settle. destruct (answer h); reflexivity. Qed.

Lemma only_issues_issue_all allowed (requests : list request) :
  forallb allowed requests = true -> only_issues allowed (issue_all requests).
Proof.
  intros F h. unfold issue_all, issues_only. cbn [fst].
  rewrite forallb_image. exact F.
Qed.

Lemma only_issues_await_all {P A : Type} allowed (await : P -> M (outcome A))
  (promises : list P) :
  (forall p, only_issues allowed (await p)) ->
  only_issues allowed (await_all await promises).
Proof.
  intros H. induction promises as [|p rest IH]; cbn [await_all].
  - apply only_issues_ret.
  - apply only_issues_bind; [apply H|]. intros o.
    apply only_issues_bind; [exact IH|]. intros os. apply only_issues_ret.
Qed.

Lemma only_issues_call {A : Type} allowed (show : A -> js_value)
  (key entry : string) (result : outcome A) :
  allowed (func_call key entry) = true ->
  only_issues allowed (call show key entry result).
Proof. intros H h. cbn. now rewrite H. Qed.

Lemma only_issues_call_each allowed func key entries :
  (forall entry, allowed (func_call key entry) = true) ->
  only_issues allowed (call_each func key entries).
Proof.
  intros H. induction entries as [|entry entries IH]; cbn [call_each].
  - apply only_issues_ret.
  - apply only_issues_bind; [apply only_issues_call, H|].
    intros [v|e]; [|apply only_issues_ret].
    apply only_issues_bind; [exact IH|].
    intros [vs|e]; apply only_issues_ret.
Qed.

Lemma only_issues_call_all allowed func key entries :
  (forall entry, allowed (func_call key entry) = true) ->
  only_issues allowed (call_all func key entries).
Proof.
  intros H h. unfold call_all, bind, issue_calls, settle_calls, ret, issues_only.
  cbn [fst]. rewrite !forallb_app, !forallb_image. cbn [forallb].
  rewrite !andb_true_r. apply andb_true_intro. split.
  - apply forallb_forall. intros x _. apply H.
  - apply forallb_forall. reflexivity.
Qed.

Create HintDb issues.

(** The requests of a computation are allowed when those of its parts
    are. *)
Ltac allow :=
  repeat first
    [ apply only_issues_ret
    | apply only_issues_settle
    | apply only_issues_issue; reflexivity
    | solve [auto with issues]
    | apply only_issues_await_all; intros
    | apply only_issues_bind; [|intros]
    | match goal with
      | |- only_issues _ (match ?x with _ => _ end) => destruct x
      end ].

Section Issues.

Variable this : S3renity.t.
Variable allowed : request -> bool.
Hypothesis allowed_reads : forall r, is_read r = true -> allowed r = true.

Lemma only_issues_get arg1 arg2 : only_issues allowed (S3renity.get this arg1 arg2).
Proof.
  unfold S3renity.get, S3renity.get_settle.
  apply only_issues_bind; [apply only_issues_issue, allowed_reads; reflexivity|].
  intros _. allow.
Qed.

Lemma only_issues_get_settle arg1 arg2 :
  only_issues allowed (S3renity.get_settle this arg1 arg2).
Proof. unfold S3renity.get_settle. allow. Qed.

Lemma only_issues_listObjects bucket prefix marker :
  only_issues allowed (S3renity.listObjects this bucket prefix marker).
Proof.
  unfold S3renity.listObjects.
  apply only_issues_bind; [apply only_issues_issue, allowed_reads; reflexivity|].
  intros _. allow.
Qed.

Lemma only_issues__keys fuel allKeys marker :
  only_issues allowed (S3renity._keys this fuel allKeys marker).
Proof.
  revert allKeys marker; induction fuel as [|fuel IH]; intros allKeys marker;
    cbn [S3renity._keys]; [apply only_issues_ret|].
  apply only_issues_bind; [apply only_issues_listObjects|].
  intros [keys|err]; [|apply only_issues_ret].
  destruct (List.length keys =? 0)%nat; [apply only_issues_ret | apply IH].
Qed.

Lemma only_issues_list fuel : only_issues allowed (S3renity.list this fuel).
Proof. apply only_issues__keys. Qed.

Lemma only_issues_splitObject bucket key delimiter encoding :
  only_issues allowed (S3renity.splitObject this bucket key delimiter encoding).
Proof.
  unfold S3renity.splitObject.
  apply only_issues_bind; [apply only_issues_get|]. intros. allow.
Qed.

Lemma only_issues_calls func key entries :
  only_issues allowed (call_each func key entries) /\
  only_issues allowed (call_all func key entries).
Proof.
  split; [apply only_issues_call_each | apply only_issues_call_all];
    intros; apply allowed_reads; reflexivity.
Qed.

Lemma only_issues_one_call {A : Type} (show : A -> js_value) key entry result :
  only_issues allowed (call show key entry result).
Proof. apply only_issues_call, allowed_reads. reflexivity. Qed.

Lemma only_issues_with_keys {A : Type} fuel (k : list string -> M (outcome A)) :
  (forall keys, only_issues allowed (k keys)) ->
  only_issues allowed (S3renity.with_keys this fuel k).
Proof.
  intros H. unfold S3renity.with_keys.
  apply only_issues_bind; [apply only_issues_list|].
  intros [[keys|err]|]; try apply only_issues_ret.
  apply only_issues_bind; [apply H | intros; apply only_issues_ret].
Qed.

Hint Resolve only_issues_get only_issues_get_settle only_issues_listObjects
  only_issues_list only_issues_splitObject only_issues_one_call : issues.
Hint Extern 1 (only_issues _ (call_each _ _ _)) => apply only_issues_calls : issues.
Hint Extern 1 (only_issues _ (call_all _ _ _)) => apply only_issues_calls : issues.

Lemma only_issues_forEach_promise fuel func isAsync :
  only_issues allowed (S3renity.forEach_promise this fuel func isAsync).
Proof.
  unfold S3renity.forEach_promise. apply only_issues_with_keys. intros keys.
  destruct (S3renity.delimiter this);
    (apply only_issues_bind; [|intros; apply only_issues_ret]);
    induction keys as [|key keys IH];
    cbn [S3renity.forEach_eachObject S3renity.forEach_splitObjects];
    unfold S3renity.forEach_eachSplit; allow.
Qed.

Lemma only_issues_reduce_promise {A : Type} fuel
  (func : A -> string -> string -> outcome A) initialValue isAsync :
  only_issues allowed (S3renity.reduce_promise this fuel func initialValue isAsync).
Proof.
  unfold S3renity.reduce_promise. apply only_issues_with_keys. intros keys.
  destruct (S3renity.delimiter this).
  - allow.
  - apply only_issues_bind; [|intros; apply only_issues_ret].
    generalize initialValue. induction keys as [|key keys IH]; intros value;
      cbn [S3renity.reduce_reduceObjects]; allow.
Qed.

Lemma only_issues_join_promise fuel delimiter :
  only_issues allowed (S3renity.join_promise this fuel delimiter).
Proof.
  unfold S3renity.join_promise. apply only_issues_with_keys. intros keys.
  apply only_issues_bind.
  - apply only_issues_issue_all. rewrite forallb_image.
    apply forallb_forall. intros key _. apply allowed_reads. reflexivity.
  - intros _. allow.
Qed.

Lemma only_issues_put bucket key body :
  (forall r, is_put r = true -> allowed r = true) ->
  only_issues allowed (S3renity.put this bucket key body).
Proof.
  intros H. unfold S3renity.put.
  apply only_issues_bind; [apply only_issues_issue, H; reflexivity|].
  intros _. allow.
Qed.

Lemma only_issues_map_output key body :
  (forall r, is_put r = true -> allowed r = true) ->
  only_issues allowed (S3renity.map_output this key body).
Proof.
  intros H. unfold S3renity.map_output.
  destruct (S3renity.hasTarget this); now apply only_issues_put.
Qed.

Lemma only_issues_map func isAsync isSplit keys :
  (forall r, is_put r = true -> allowed r = true) ->
  only_issues allowed (S3renity.map_mapObject this func isAsync isSplit keys) /\
  only_issues allowed (S3renity.map_splitObjects this func isAsync isSplit keys).
Proof.
  intros H. pose proof (fun key body => only_issues_map_output key body H) as O.
  induction keys as [|key keys [IH1 IH2]];
    cbn [S3renity.map_mapObject S3renity.map_splitObjects];
    (split; unfold S3renity.map_continue, S3renity.map_mapSplit;
     repeat first [assumption | apply O | progress allow]).
Qed.

Lemma only_issues_filter_splitObjects func isAsync keys :
  (forall r, is_put r = true -> allowed r = true) ->
  only_issues allowed (S3renity.filter_splitObjects this func isAsync keys).
Proof.
  intros H. pose proof (fun b k v => only_issues_put b k v H) as O.
  induction keys as [|key keys IH]; cbn [S3renity.filter_splitObjects];
    unfold S3renity.filter_filterSplitObject;
    repeat first [assumption | apply O | progress allow].
Qed.

End Issues.

Lemma read_or_put_reads r : is_read r = true -> read_or_put r = true.
Proof. unfold read_or_put. now intros ->. Qed.

Lemma read_or_put_puts r : is_put r = true -> read_or_put r = true.
Proof. unfold read_or_put. intros ->. apply orb_true_r. Qed.

(** X7: [forEach], [reduce] and [join] only read: whatever the store answers
    and the user function does, they list, fetch and call the function,
    and send no put, no copy and no deletion. *)
Theorem forEach_reduce_join_only_read (this : S3renity.t) (fuel : nat) (h : trace) :
  (forall func isAsync,
      issues_only is_read
        (fst (S3renity.forEach_promise this fuel func isAsync h)) = true) /\
  (forall (A : Type) (func : A -> string -> string -> outcome A) initialValue isAsync,
      issues_only is_read
        (fst (S3renity.reduce_promise this fuel func initialValue isAsync h))
      = true) /\
  (forall delimiter,
      issues_only is_read (fst (S3renity.join_promise this fuel delimiter h))
      = true).
Proof.
  split; [|split]; intros.
  - now apply only_issues_forEach_promise.
  - now apply only_issues_reduce_promise.
  - now apply only_issues_join_promise.
Qed.

(** X8: [map] reads and puts: it never copies and never deletes, so that no
    object of the source is removed by it. *)
Theorem map_only_reads_and_puts (this : S3renity.t) (fuel : nat)
  (func : string -> outcome js_value) (isAsync : bool) (h : trace) :
  issues_only read_or_put (fst (S3renity.map_promise this fuel func isAsync h))
  = true.
Proof.
  revert h. change (only_issues read_or_put (S3renity.map_promise this fuel func isAsync)).
  unfold S3renity.map_promise.
  apply (only_issues_with_keys this _ read_or_put_reads). intros keys.
  destruct (S3renity.delimiter this);
    (apply only_issues_bind;
     [apply (only_issues_map this _ read_or_put_reads), read_or_put_puts
     | intros; apply only_issues_ret]).
Qed.

(** X9: On a split instance [filter] reads and puts, as [map] does: it
    rewrites objects and removes none. *)
Theorem filter_split_only_reads_and_puts (this : S3renity.t) (fuel : nat)
  (func : string -> outcome js_value) (isAsync : bool) (h : trace) (d : string) :
  S3renity.delimiter this = Some d ->
  issues_only read_or_put (fst (S3renity.filter_promise this fuel func isAsync h))
  = true.
Proof.
  intros D. revert h.
  change (only_issues read_or_put (S3renity.filter_promise this fuel func isAsync)).
  unfold S3renity.filter_promise.
  apply (only_issues_with_keys this _ read_or_put_reads). intros keys.
  rewrite D. apply only_issues_bind; [|intros; apply only_issues_ret].
  apply (only_issues_filter_splitObjects this _ read_or_put_reads), read_or_put_puts.
Qed.

Lemma filter_split_only_reads_and_puts_witness :
  let s3 := store.make "b" [("p/a", lines ["keep"; "drop"])] in
  let this := S3renity.split (store.instance s3 "b" "p") None in
  issues_only read_or_put (fst (S3renity.filter_promise this 2 keep false []))
  = true.
Proof.
  intros s3 this.
  exact (filter_split_only_reads_and_puts this 2 keep false [] newline eq_refl).
Defined.

Section Selection.

Variable this : S3renity.t.

Lemma selection_reads r : is_read r = true -> selection this r = true.
Proof.
  unfold selection. intros R.
  destruct (S3renity.hasTarget this); unfold read_or_copy, read_or_delete;
    now rewrite R.
Qed.

Lemma only_issues_filter_finish keepObjects removeObjects :
  only_issues (selection this) (S3renity.filter_finish this keepObjects removeObjects).
Proof.
  unfold S3renity.filter_finish, selection.
  destruct (S3renity.hasTarget this).
  - apply only_issues_bind.
    + apply only_issues_issue_all. rewrite forallb_image.
      apply forallb_forall. reflexivity.
    + intros _. apply only_issues_bind.
      * apply only_issues_await_all. intros key.
        unfold S3renity.copy_settle. apply only_issues_settle.
      * intros promises. destruct (Promise_all promises); apply only_issues_ret.
  - unfold S3renity.delete, S3renity.deleteObjects. allow.
Qed.

Lemma only_issues_filter_filterObjects func isAsync keys :
  forall keepObjects removeObjects,
    only_issues (selection this)
      (S3renity.filter_filterObjects this func isAsync keys keepObjects
         removeObjects).
Proof.
  pose proof selection_reads as R.
  induction keys as [|key keys IH]; intros keepObjects removeObjects;
    cbn [S3renity.filter_filterObjects]; [apply only_issues_filter_finish|].
  apply only_issues_bind; [now apply only_issues_get|].
  intros [body|err]; [|apply only_issues_ret].
  destruct isAsync;
    (apply only_issues_bind; [now apply only_issues_one_call|]);
    intros [result|e]; try apply only_issues_ret;
    destruct (S3renity.filter_checkResult result); try apply only_issues_ret;
    destruct (truthy result); apply IH.
Qed.

End Selection.

(** X10: On whole objects [filter] never puts: without a target it reads and
    deletes, and with a target it reads and copies, so that the source
    is then left as it is. *)
Theorem filter_whole_never_puts (this : S3renity.t) (fuel : nat)
  (func : string -> outcome js_value) (isAsync : bool) (h : trace) :
  S3renity.delimiter this = None ->
  issues_only (if S3renity.hasTarget this then read_or_copy else read_or_delete)
    (fst (S3renity.filter_promise this fuel func isAsync h)) = true.
Proof.
  intros D. revert h.
  change (only_issues (selection this)
            (S3renity.filter_promise this fuel func isAsync)).
  unfold S3renity.filter_promise.
  apply (only_issues_with_keys this _ (selection_reads this)). intros keys.
  rewrite D. apply only_issues_bind; [|intros; apply only_issues_ret].
  apply only_issues_filter_filterObjects.
Qed.

Lemma filter_whole_never_puts_witness :
  let s3 := store.make "b" [("p/a", "keep"); ("p/b", "drop")] in
  let this := store.instance s3 "b" "p" in
  issues_only read_or_delete (fst (S3renity.filter_promise this 2 keep false []))
  = true.
Proof.
  intros s3 this. exact (filter_whole_never_puts this 2 keep false [] eq_refl).
Defined.

(** ** A listing that fails *)

Lemma _keys_rejected (this : S3renity.t) (fuel : nat) :
  forall (allKeys : list string) (marker : string) (h t : trace) (e : js_value),
    S3renity._keys this fuel allKeys marker h = (t, Some (Rejected e)) ->
    exists (t' : trace) (p m name message : string),
      let r := listObjects_request (S3renity.bucket this) p m in
      t = t' ++ [Issue r; Settle r (Rejected e)] /\
      e = VError name message /\
      aws.listObjects (S3renity.s3 this) (h ++ t' ++ [Issue r])
        (S3renity.bucket this) p m = Fail name message.
Proof.
  induction fuel as [|fuel IH]; intros allKeys marker h t e E; [discriminate|].
  cbn [S3renity._keys] in E.
  destruct (listObjects_page this (S3renity.bucket this) (S3renity.prefix this)
              marker h) as (p' & _ & L).
  cbv zeta in L.
  destruct (aws.listObjects (S3renity.s3 this)
              (h ++ [Issue (listObjects_request (S3renity.bucket this) p' marker)])
              (S3renity.bucket this) p' marker) as [raw|name message] eqn:Q;
    rewrite (bind_run _ _ _ _ _ L) in E.
  - match type of E with
    | context [(List.length ?page =? 0)%nat] =>
        destruct (List.length page =? 0)%nat;
        [cbn in E; discriminate E|]
    end.
    match type of E with
    | context [S3renity._keys this fuel ?a ?m ?x] =>
        destruct (S3renity._keys this fuel a m x) as [t2 r2] eqn:K
    end.
    cbn [fst snd] in E. inversion E; subst.
    destruct (IH _ _ _ _ _ K) as (t' & p & m & name & message & T & V & F).
    cbv zeta in T, F.
    exists ([Issue (listObjects_request (S3renity.bucket this) p' marker);
             Settle (listObjects_request (S3renity.bucket this) p' marker)
               (Resolved VUndefined)] ++ t'), p, m, name, message.
    cbv zeta. split; [rewrite T; reflexivity|]. split; [exact V|].
    rewrite <- F. now rewrite <- !app_assoc.
  - cbn in E. inversion E; subst.
    exists [], p', marker, name, message. cbv zeta.
    split; [reflexivity | split; [reflexivity | exact Q]].
Qed.

(** X11: When [list] rejects, it is with the error of the store, as it is:
    the listing ends with the failed request for a page, no page is asked
    for after it, and the keys of the pages before are dropped. *)
Theorem list_rejects_with_store_error (this : S3renity.t) (fuel : nat)
  (h t : trace) (e : js_value) :
  S3renity.list this fuel h = (t, Some (Rejected e)) ->
  exists (t' : trace) (p m name message : string),
    let r := listObjects_request (S3renity.bucket this) p m in
    t = t' ++ [Issue r; Settle r (Rejected e)] /\
    e = VError name message /\
    aws.listObjects (S3renity.s3 this) (h ++ t' ++ [Issue r])
      (S3renity.bucket this) p m = Fail name message.
Proof. apply _keys_rejected. Qed.

Lemma list_rejects_with_store_error_witness :
  let this := store.instance (store.make "b" [("p/a", "x")]) "missing" "p" in
  exists (t' : trace) (p m name message : string),
    fst (S3renity.list this 3 [])
    = t' ++ [Issue (listObjects_request "missing" p m);
             Settle (listObjects_request "missing" p m)
               (Rejected (VError "NoSuchBucket" "missing"))] /\
    VError "NoSuchBucket" "missing" = VError name message.
Proof.
  intros this.
  destruct (list_rejects_with_store_error this 3 []
              (fst (S3renity.list this 3 [])) (VError "NoSuchBucket" "missing")
              eq_refl)
    as (t' & p & m & name & message & T & V & _).
  exists t', p, m, name, message. split; [exact T | exact V].
Defined.

Lemma with_keys_stops {A : Type} (this : S3renity.t) (fuel : nat)
  (k : list string -> M (outcome A)) (h t : trace) :
  (forall e, S3renity.list this fuel h = (t, Some (Rejected e)) ->
             S3renity.with_keys this fuel k h = (t, Some (Rejected e))) /\
  (S3renity.list this fuel h = (t, None) ->
   S3renity.with_keys this fuel k h = (t, None)).
Proof.
  split; [intros e L | intros L]; unfold S3renity.with_keys;
    rewrite (bind_run _ _ _ _ _ L); cbn; now rewrite app_nil_r.
Qed.

(** X12: A listing that fails ends every operation where it failed: the
    promise of [forEach], [map], [reduce], [filter] and [join] rejects
    with the error of the listing, and nothing is sent after the listing;
    a listing still under way leaves the promise pending. *)
Theorem listing_failure_ends_operation (this : S3renity.t) (fuel : nat)
  (h t : trace) (o : option js_value) :
  S3renity.list this fuel h
  = (t, match o with Some e => Some (Rejected e) | None => None end) ->
  let settled (A : Type) : option (outcome A) :=
    match o with Some e => Some (Rejected e) | None => None end in
  (forall func isAsync,
      S3renity.forEach_promise this fuel func isAsync h = (t, settled unit)) /\
  (forall func isAsync,
      S3renity.map_promise this fuel func isAsync h = (t, settled unit)) /\
  (forall (A : Type) (func : A -> string -> string -> outcome A) initialValue isAsync,
      S3renity.reduce_promise this fuel func initialValue isAsync h
      = (t, settled (option A))) /\
  (forall func isAsync,
      S3renity.filter_promise this fuel func isAsync h = (t, settled unit)) /\
  (forall delimiter,
      S3renity.join_promise this fuel delimiter h = (t, settled string)).
Proof.
  intros L settled. unfold settled.
  unfold S3renity.forEach_promise, S3renity.map_promise, S3renity.reduce_promise,
    S3renity.filter_promise, S3renity.join_promise.
  destruct o as [e|];
    (split; [|split; [|split; [|split]]]); intros;
    now apply with_keys_stops.
Qed.

Lemma listing_failure_ends_operation_witness :
  let this := store.instance (store.make "b" [("p/a", "x")]) "missing" "p" in
  let t := [Issue (listObjects_request "missing" "p/" "");
            Settle (listObjects_request "missing" "p/" "")
              (Rejected (VError "NoSuchBucket" "missing"))] in
  S3renity.map_promise this 3 exclaim false []
  = (t, Some (Rejected (VError "NoSuchBucket" "missing"))) /\
  S3renity.join_promise this 3 newline []
  = (t, Some (Rejected (VError "NoSuchBucket" "missing"))).
Proof.
  intros this t.
  destruct (listing_failure_ends_operation this 3 [] t
              (Some (VError "NoSuchBucket" "missing")) eq_refl)
    as (_ & Mp & _ & _ & J).
  split; [exact (Mp exclaim false) | exact (J newline)].
Defined.

(** ** Runs in which nothing fails *)

Lemma calls_app (t1 t2 : trace) : calls (t1 ++ t2) = calls t1 ++ calls t2.
Proof. apply flat_map_app. Qed.

Lemma copies_app (t1 t2 : trace) : copies (t1 ++ t2) = copies t1 ++ copies t2.
Proof. apply flat_map_app. Qed.

Lemma deletes_app (t1 t2 : trace) : deletes (t1 ++ t2) = deletes t1 ++ deletes t2.
Proof. apply flat_map_app. Qed.

Lemma call_run {A : Type} (show : A -> js_value) (key entry : string) (a : A)
  (h : trace) :
  call show key entry (Resolved a) h
  = ([Issue (func_call key entry);
      Settle (func_call key entry) (Resolved (show a))], Resolved a).
Proof. reflexivity. Qed.

Lemma get_run (this : S3renity.t) (b k x : string) (h : trace) :
  snd (S3renity.get_settle this b k (h ++ [Issue (S3renity.get_request b k)]))
  = Resolved x ->
  S3renity.get this b k h
  = ([Issue (S3renity.get_request b k);
      Settle (S3renity.get_request b k) (Resolved VUndefined)], Resolved x).
Proof.
  unfold S3renity.get, S3renity.get_settle, bind, issue, settle.
  destruct (aws.getObject _ _ _ _) as [Body|name message]; cbn.
  - destruct (S3renity.transformer this); cbn; now intros ->.
  - discriminate.
Qed.

Lemma put_run (this : S3renity.t) (b k : string) (v : js_value) (h : trace) :
  accepts_puts this ->
  S3renity.put this b k v h
  = ([Issue (putObject_request b k v);
      Settle (putObject_request b k v) (Resolved VUndefined)], Resolved tt).
Proof.
  intros P. unfold S3renity.put, bind, issue, settle. now rewrite P.
Qed.

Lemma Promise_all_resolved {A : Type} (l : list A) :
  Promise_all (List.map Resolved l) = Resolved l.
Proof. induction l as [|a l IH]; cbn; [reflexivity | now rewrite IH]. Qed.

Lemma call_each_run (f : string -> js_value) (key : string) (entries : list string) :
  forall h : trace,
    snd (call_each (fun x => Resolved (f x)) key entries h)
    = Resolved (List.map f entries) /\
    calls (fst (call_each (fun x => Resolved (f x)) key entries h))
    = List.map (pair key) entries /\
    puts (fst (call_each (fun x => Resolved (f x)) key entries h)) = [].
Proof.
  induction entries as [|entry entries IH]; intros h; [now cbn|].
  cbn [call_each]. rewrite (bind_run _ _ _ _ _ (call_run _ _ _ _ _)).
  cbv beta iota. unfold bind.
  match goal with
  | |- context [call_each ?g key entries ?x] =>
      destruct (IH x) as (R & C & P);
      destruct (call_each g key entries x) as [t2 r]
  end.
  cbn [fst snd] in *. subst r. cbn [ret fst snd].
  rewrite app_nil_r, calls_app, puts_app, C, P. now cbn.
Qed.

Lemma call_all_run (f : string -> js_value) (key : string) (entries : list string)
  (h : trace) :
  snd (call_all (fun x => Resolved (f x)) key entries h)
  = Resolved (List.map f entries) /\
  calls (fst (call_all (fun x => Resolved (f x)) key entries h))
  = List.map (pair key) entries /\
  puts (fst (call_all (fun x => Resolved (f x)) key entries h)) = [].
Proof.
  unfold call_all, bind, issue_calls, settle_calls, ret. cbn [fst snd].
  rewrite app_nil_r. split; [|split].
  - rewrite <- (Promise_all_resolved (List.map f entries)).
    now rewrite List.map_map.
  - rewrite calls_app.
    assert (S : forall l, calls (List.map (fun entry => Settle (func_call key entry)
                                              (Resolved (f entry))) l) = []).
    { induction l; [reflexivity | exact IHl]. }
    rewrite S, app_nil_r. induction entries as [|e l IH]; [reflexivity|].
    cbn. f_equal. exact IH.
  - rewrite puts_app. induction entries as [|e l IH]; [reflexivity | exact IH].
Qed.

Lemma fetches_tail this body key keys :
  fetches this body (key :: keys) -> fetches this body keys.
Proof. intros F k h I. apply F. now right. Qed.

Lemma fetches_get this body key keys (h : trace) :
  fetches this body (key :: keys) ->
  S3renity.get this (S3renity.bucket this) key h
  = ([Issue (S3renity.get_request (S3renity.bucket this) key);
      Settle (S3renity.get_request (S3renity.bucket this) key)
        (Resolved VUndefined)], Resolved (body key)).
Proof. intros F. apply get_run, F. now left. Qed.

Lemma fetches_splitObject this body key keys delimiter encoding (h : trace) :
  fetches this body (key :: keys) ->
  S3renity.splitObject this (S3renity.bucket this) key delimiter encoding h
  = ([Issue (S3renity.get_request (S3renity.bucket this) key);
      Settle (S3renity.get_request (S3renity.bucket this) key)
        (Resolved VUndefined)], Resolved (records delimiter (body key))).
Proof.
  intros F. rewrite (splitObject_run _ _ _ _ _ _ _ _ (fetches_get _ _ _ _ h F)).
  reflexivity.
Qed.

Lemma forEach_eachObject_run this body f isAsync keys :
  fetches this body keys ->
  forall h : trace,
    snd (S3renity.forEach_eachObject this (fun x => Resolved (f x)) isAsync keys h)
    = VNull /\
    calls (fst (S3renity.forEach_eachObject this (fun x => Resolved (f x))
                  isAsync keys h))
    = List.map (fun key => (key, body key)) keys.
Proof.
  induction keys as [|key keys IH]; intros F h; [now cbn|].
  cbn [S3renity.forEach_eachObject].
  rewrite (bind_run _ _ _ _ _ (fetches_get _ _ _ _ h F)). cbv beta iota.
  destruct isAsync;
    rewrite (bind_run _ _ _ _ _ (call_run _ _ _ _ _)); cbv beta iota;
    cbn [fst snd];
    match goal with
    | |- context [S3renity.forEach_eachObject this ?g ?a keys ?x] =>
        destruct (IH (fetches_tail _ _ _ _ F) x) as [R C]
    end;
    rewrite R, !calls_app, C; now cbn.
Qed.

Lemma calls_run (f : string -> js_value) (isAsync : bool) (key : string)
  (entries : list string) (h : trace) :
  exists tc : trace,
    (if isAsync then call_all (fun x => Resolved (f x)) key entries h
     else call_each (fun x => Resolved (f x)) key entries h)
    = (tc, Resolved (List.map f entries)) /\
    calls tc = List.map (pair key) entries /\
    puts tc = [].
Proof.
  destruct isAsync.
  - destruct (call_all_run f key entries h) as (R & C & P).
    rewrite (run_pair (call_all _ _ _) h), R. eexists. split; [reflexivity|].
    now split.
  - destruct (call_each_run f key entries h) as (R & C & P).
    rewrite (run_pair (call_each _ _ _) h), R. eexists. split; [reflexivity|].
    now split.
Qed.

Lemma forEach_eachSplit_run (f : string -> js_value) (isAsync : bool)
  (key : string) (entries : list string) (h : trace) :
  exists tc : trace,
    S3renity.forEach_eachSplit (fun x => Resolved (f x)) isAsync key entries h
    = (tc, Resolved tt) /\
    calls tc = List.map (pair key) entries.
Proof.
  destruct (calls_run f isAsync key entries h) as (tc & E & C & _).
  exists tc. split; [|exact C].
  unfold S3renity.forEach_eachSplit.
  destruct isAsync; rewrite (bind_run _ _ _ _ _ E); cbn; now rewrite app_nil_r.
Qed.

Lemma forEach_splitObjects_run this body f isAsync keys :
  fetches this body keys ->
  forall h : trace,
    snd (S3renity.forEach_splitObjects this (fun x => Resolved (f x)) isAsync keys h)
    = VNull /\
    calls (fst (S3renity.forEach_splitObjects this (fun x => Resolved (f x))
                  isAsync keys h))
    = List.flat_map
        (fun key => List.map (pair key)
                      (records (S3renity.delimiter this) (body key))) keys.
Proof.
  induction keys as [|key keys IH]; intros F h; [now cbn|].
  cbn [S3renity.forEach_splitObjects].
  rewrite (bind_run _ _ _ _ _ (fetches_splitObject _ _ _ _ _ _ h F)).
  cbv beta iota.
  match goal with
  | |- context [bind (S3renity.forEach_eachSplit ?g ?a ?k ?e) _ ?x] =>
      destruct (forEach_eachSplit_run f a k e x) as (tc & E & Cc)
  end.
  rewrite (bind_run _ _ _ _ _ E). cbv beta iota. cbn [fst snd].
  match goal with
  | |- context [S3renity.forEach_splitObjects this ?g ?a keys ?x] =>
      destruct (IH (fetches_tail _ _ _ _ F) x) as [R C]
  end.
  rewrite R, !calls_app, Cc, C. now cbn.
Qed.

(** X13: [forEach], when no fetch fails and the user function returns: the
    function is called once on the body of every object of the working
    set, in the order of the listing, or, on a split instance, once on
    every record of every object, object after object and record after
    record; an empty object has no record and gets no call.  The promise
    resolves. *)
Theorem forEach_calls_in_order (this : S3renity.t) (fuel : nat)
  (f : string -> js_value) (isAsync : bool) (body : string -> string)
  (h t : trace) (keys : list string) :
  S3renity.list this fuel h = (t, Some (Resolved keys)) ->
  fetches this body keys ->
  exists t' : trace,
    S3renity.forEach_promise this fuel (fun x => Resolved (f x)) isAsync h
    = (t ++ t', Some (Resolved tt)) /\
    calls t'
    = match S3renity.delimiter this with
      | None => List.map (fun key => (key, body key)) keys
      | Some _ =>
          List.flat_map
            (fun key => List.map (pair key)
                          (records (S3renity.delimiter this) (body key))) keys
      end.
Proof.
  intros L F. unfold S3renity.forEach_promise.
  rewrite (with_keys_run _ _ _ _ _ _ L).
  destruct (S3renity.delimiter this) as [d|] eqn:D; unfold bind.
  - destruct (forEach_splitObjects_run this body f isAsync keys F (h ++ t))
      as [R C].
    destruct (S3renity.forEach_splitObjects _ _ _ _ _) as [t' r].
    cbn [fst snd ret] in *. subst r. exists t'.
    rewrite app_nil_r. split; [reflexivity|]. now rewrite <- D.
  - destruct (forEach_eachObject_run this body f isAsync keys F (h ++ t))
      as [R C].
    destruct (S3renity.forEach_eachObject _ _ _ _ _) as [t' r].
    cbn [fst snd ret] in *. subst r. exists t'.
    rewrite app_nil_r. split; [reflexivity | exact C].
Qed.

Lemma forEach_calls_in_order_witness :
  let objects := [("p/a", lines ["x"; "y"]); ("p/b", ""); ("p/c", "z")] in
  let this := S3renity.split (store.instance (archive "b" objects) "b" "p") None in
  exists t' : trace,
    S3renity.forEach_promise this 2 exclaim true []
    = (fst (S3renity.list this 2 []) ++ t', Some (Resolved tt)) /\
    calls t' = [("p/a", "x"); ("p/a", "y"); ("p/c", "z")].
Proof.
  intros objects this.
  assert (F : fetches this (archived objects) ["p/a"; "p/b"; "p/c"]).
  { intros key h [<-|[<-|[<-|[]]]]; reflexivity. }
  exact (forEach_calls_in_order this 2 (fun x => VStr (x ++ "!")%string) true
           (archived objects) [] _ _ eq_refl F).
Defined.

Lemma reduce_reduceObjects_run {A : Type} this body
  (f : A -> string -> string -> A) isAsync keys :
  fetches this body keys ->
  forall (value : A) (h : trace),
    snd (S3renity.reduce_reduceObjects this (fun acc b k => Resolved (f acc b k))
           isAsync keys value h)
    = (VNull, Some (List.fold_left (fun acc key => f acc (body key) key) keys value))
    /\
    calls (fst (S3renity.reduce_reduceObjects this
                  (fun acc b k => Resolved (f acc b k)) isAsync keys value h))
    = List.map (fun key => (key, body key)) keys.
Proof.
  induction keys as [|key keys IH]; intros F value h; [now cbn|].
  cbn [S3renity.reduce_reduceObjects List.fold_left].
  rewrite (bind_run _ _ _ _ _ (fetches_get _ _ _ _ h F)). cbv beta iota.
  destruct isAsync;
    rewrite (bind_run _ _ _ _ _ (call_run _ _ _ _ _)); cbv beta iota;
    cbn [fst snd];
    match goal with
    | |- context [S3renity.reduce_reduceObjects this ?g ?a keys ?v ?x] =>
        destruct (IH (fetches_tail _ _ _ _ F) v x) as [R C]
    end;
    rewrite R, !calls_app, C; now cbn.
Qed.

(** X14: [reduce] on whole objects, when no fetch fails and the user function
    returns: the function is called once per object, in the order of the
    listing, on the accumulator, the body and the key, and the promise
    resolves with the left fold of the function over the objects, from
    the initial value. *)
Theorem reduce_folds_in_listing_order (A : Type) (this : S3renity.t) (fuel : nat)
  (f : A -> string -> string -> A) (initialValue : A) (isAsync : option bool)
  (body : string -> string) (h t : trace) (keys : list string) :
  S3renity.delimiter this = None ->
  S3renity.list this fuel h = (t, Some (Resolved keys)) ->
  fetches this body keys ->
  exists (promise : M (option (outcome (option A)))) (t' : trace),
    S3renity.reduce this fuel (function (fun acc b k => Resolved (f acc b k)))
      initialValue isAsync = Promised promise /\
    promise h
    = (t ++ t',
       Some (Resolved
               (Some (List.fold_left (fun acc key => f acc (body key) key)
                        keys initialValue)))) /\
    calls t' = List.map (fun key => (key, body key)) keys.
Proof.
  intros D L F. eexists.
  exists (fst (S3renity.reduce_reduceObjects this
                 (fun acc b k => Resolved (f acc b k))
                 match isAsync with Some b => b | None => false end
                 keys initialValue (h ++ t))).
  destruct (reduce_reduceObjects_run this body f
              match isAsync with Some b => b | None => false end
              keys F initialValue (h ++ t)) as [R C].
  split; [reflexivity|]. split; [|exact C].
  unfold S3renity.reduce_promise. rewrite (with_keys_run _ _ _ _ _ _ L), D.
  unfold bind.
  destruct (S3renity.reduce_reduceObjects _ _ _ _ _ _) as [t' r].
  cbn [fst snd ret] in *. subst r. now rewrite app_nil_r.
Qed.

Lemma reduce_folds_in_listing_order_witness :
  let objects := [("p/a", "abc"); ("p/b", "defgh"); ("p/c", "ij")] in
  let this := store.instance (archive "b" objects) "b" "p" in
  exists (promise : M (option (outcome (option Z)))) (t' : trace),
    S3renity.reduce this 2 (function add_length) 0%Z None = Promised promise /\
    promise [] = (fst (S3renity.list this 2 []) ++ t', Some (Resolved (Some 10%Z))) /\
    calls t' = [("p/a", "abc"); ("p/b", "defgh"); ("p/c", "ij")].
Proof.
  intros objects this.
  assert (F : fetches this (archived objects) ["p/a"; "p/b"; "p/c"]).
  { intros key h [<-|[<-|[<-|[]]]]; reflexivity. }
  exact (reduce_folds_in_listing_order Z this 2
           (fun acc b _ => (acc + Z.of_nat (String.length b))%Z) 0%Z None
           (archived objects) [] _ _ eq_refl eq_refl F).
Defined.

Lemma map_output_run this key v (h : trace) :
  accepts_puts this ->
  exists tp : trace,
    S3renity.map_output this key v h = (tp, Resolved tt) /\
    puts tp = [(fst (destination this key), snd (destination this key), v)].
Proof.
  intros P. unfold S3renity.map_output, destination.
  destruct (S3renity.hasTarget this); rewrite (put_run _ _ _ _ _ P);
    eexists; split; reflexivity.
Qed.

Lemma map_mapSplit_run (f : string -> js_value) isAsync key entries (h : trace) :
  exists tc : trace,
    S3renity.map_mapSplit (fun x => Resolved (f x)) isAsync key entries h
    = (tc, Resolved (List.map f entries)) /\
    puts tc = [].
Proof.
  destruct (calls_run f isAsync key entries h) as (tc & E & _ & P).
  exists tc. split; [|exact P].
  unfold S3renity.map_mapSplit. now destruct isAsync.
Qed.

Lemma map_puts_same this f body isSplit keys :
  map_puts this f body isSplit isSplit keys
  = List.map (fun key =>
                (fst (destination this key), snd (destination this key),
                 map_body isSplit (S3renity.delimiter this) f (body key))) keys.
Proof. now destruct keys. Qed.

Lemma map_run this body f isAsync isSplit keys :
  accepts_puts this ->
  fetches this body keys ->
  forall h : trace,
    (snd (S3renity.map_mapObject this (fun x => Resolved (f x)) isAsync isSplit
            keys h) = VNull /\
     puts (fst (S3renity.map_mapObject this (fun x => Resolved (f x)) isAsync
                  isSplit keys h))
     = map_puts this f body false isSplit keys) /\
    (snd (S3renity.map_splitObjects this (fun x => Resolved (f x)) isAsync isSplit
            keys h) = VNull /\
     puts (fst (S3renity.map_splitObjects this (fun x => Resolved (f x)) isAsync
                  isSplit keys h))
     = map_puts this f body true isSplit keys).
Proof.
  intros P. induction keys as [|key keys IH]; intros F h; [now cbn|].
  assert (K : forall x : trace,
             snd (S3renity.map_continue isSplit
                    (S3renity.map_splitObjects this (fun x => Resolved (f x))
                       isAsync isSplit keys)
                    (S3renity.map_mapObject this (fun x => Resolved (f x))
                       isAsync isSplit keys) x) = VNull /\
             puts (fst (S3renity.map_continue isSplit
                          (S3renity.map_splitObjects this (fun x => Resolved (f x))
                             isAsync isSplit keys)
                          (S3renity.map_mapObject this (fun x => Resolved (f x))
                             isAsync isSplit keys) x))
             = map_puts this f body isSplit isSplit keys).
  { intros x. destruct (IH (fetches_tail _ _ _ _ F) x) as [I1 I2].
    unfold S3renity.map_continue. now destruct isSplit. }
  split.
  - cbn [S3renity.map_mapObject].
    rewrite (bind_run _ _ _ _ _ (fetches_get _ _ _ _ h F)). cbv beta iota.
    destruct isAsync;
      rewrite (bind_run _ _ _ _ _ (call_run _ _ _ _ _)); cbv beta iota;
      match goal with
      | |- context [bind (S3renity.map_output this ?k ?v) _ ?x] =>
          destruct (map_output_run this k v x P) as (tp & E & Pp)
      end;
      rewrite (bind_run _ _ _ _ _ E); cbv beta iota; cbn [fst snd];
      match goal with
      | |- context [S3renity.map_continue _ _ _ ?x] =>
          destruct (K x) as [R C]
      end;
      rewrite R, !puts_app, Pp, C, map_puts_same; now cbn.
  - cbn [S3renity.map_splitObjects].
    rewrite (bind_run _ _ _ _ _ (fetches_splitObject _ _ _ _ _ _ h F)).
    cbv beta iota.
    match goal with
    | |- context [bind (S3renity.map_mapSplit ?g ?a ?k ?e) _ ?x] =>
        destruct (map_mapSplit_run f a k e x) as (tc & Ec & Pc)
    end.
    rewrite (bind_run _ _ _ _ _ Ec). cbv beta iota zeta.
    match goal with
    | |- context [bind (S3renity.map_output this ?k ?v) _ ?x] =>
        destruct (map_output_run this k v x P) as (tp & E & Pp)
    end.
    rewrite (bind_run _ _ _ _ _ E). cbv beta iota. cbn [fst snd].
    match goal with
    | |- context [S3renity.map_continue _ _ _ ?x] =>
        destruct (K x) as [R C]
    end.
    rewrite R, !puts_app, Pc, Pp, C, map_puts_same. now cbn.
Qed.



(** ** What filter removes, copies and rewrites *)

Lemma copies_issue_all this keys :
  copies (List.map Issue
            (List.map (fun key =>
                         S3renity.copy_request (S3renity.bucket this) key
                           (S3renity.targetBucket this)
                           (S3renity.targetPrefix this ++ getFileName key)%string)
               keys))
  = List.map (fun key =>
                (S3renity.targetBucket this,
                 (S3renity.targetPrefix this ++ getFileName key)%string,
                 (S3renity.bucket this ++ "/" ++ key)%string)) keys.
Proof. induction keys as [|key keys IH]; [reflexivity|]. cbn. now f_equal. Qed.

Lemma settles_send_nothing {A : Type} this (keys : list string) :
  forall h : trace,
    issues_only (fun _ => false)
      (fst (await_all (fun key =>
                         S3renity.copy_settle this (S3renity.bucket this) key
                           (S3renity.targetBucket this)
                           (S3renity.targetPrefix this ++ getFileName key)%string)
              keys h)) = true.
Proof.
  apply only_issues_await_all. intros key. apply only_issues_settle.
Qed.

Lemma issues_nothing (t : trace) :
  issues_only (fun _ => false) t = true ->
  copies t = [] /\ deletes t = [] /\ puts t = [] /\ calls t = [] /\ gets t = [].
Proof.
  induction t as [|e t IH]; [now cbn|].
  cbn [issues_only forallb]. intros I. apply andb_prop in I. destruct I as [I1 I2].
  destruct e as [r|r o]; [discriminate I1|]. exact (IH I2).
Qed.

Lemma filter_finish_trace this keepObjects removeObjects (h : trace) :
  exists ts : trace,
    fst (S3renity.filter_finish this keepObjects removeObjects h)
    = (if S3renity.hasTarget this then
         List.map Issue
           (List.map (fun key =>
                        S3renity.copy_request (S3renity.bucket this) key
                          (S3renity.targetBucket this)
                          (S3renity.targetPrefix this ++ getFileName key)%string)
              keepObjects)
       else [Issue (deleteObjects_request (S3renity.bucket this) removeObjects)])
      ++ ts /\
    issues_only (fun _ => false) ts = true.
Proof.
  unfold S3renity.filter_finish. destruct (S3renity.hasTarget this).
  - unfold bind at 1. unfold issue_all at 1. unfold bind at 1.
    match goal with
    | |- context [await_all ?w ?k ?x] =>
        pose proof (settles_send_nothing (A := unit) this k x) as S;
        destruct (await_all w k x) as [ts promises]
    end.
    exists ts. cbn [fst] in S.
    destruct (Promise_all promises); cbn [fst ret]; rewrite app_nil_r;
      now split.
  - unfold S3renity.delete, S3renity.deleteObjects, bind, issue, settle.
    destruct (aws.deleteObjects _ _ _ _); cbn; eexists; split; reflexivity.
Qed.

Lemma copy_requests_only_copy this keys :
  calls (List.map Issue
           (List.map (fun key =>
                        S3renity.copy_request (S3renity.bucket this) key
                          (S3renity.targetBucket this)
                          (S3renity.targetPrefix this ++ getFileName key)%string)
              keys)) = [] /\
  puts (List.map Issue
          (List.map (fun key =>
                       S3renity.copy_request (S3renity.bucket this) key
                         (S3renity.targetBucket this)
                         (S3renity.targetPrefix this ++ getFileName key)%string)
             keys)) = [] /\
  deletes (List.map Issue
             (List.map (fun key =>
                          S3renity.copy_request (S3renity.bucket this) key
                            (S3renity.targetBucket this)
                            (S3renity.targetPrefix this ++ getFileName key)%string)
                keys)) = [].
Proof. induction keys as [|k l IH]; [now cbn | exact IH]. Qed.

Lemma filter_finish_run this keepObjects removeObjects (h : trace) :
  calls (fst (S3renity.filter_finish this keepObjects removeObjects h)) = [] /\
  puts (fst (S3renity.filter_finish this keepObjects removeObjects h)) = [] /\
  if S3renity.hasTarget this then
    copies (fst (S3renity.filter_finish this keepObjects removeObjects h))
    = List.map (fun key =>
                  (S3renity.targetBucket this,
                   (S3renity.targetPrefix this ++ getFileName key)%string,
                   (S3renity.bucket this ++ "/" ++ key)%string)) keepObjects /\
    deletes (fst (S3renity.filter_finish this keepObjects removeObjects h)) = []
  else
    deletes (fst (S3renity.filter_finish this keepObjects removeObjects h))
    = [(S3renity.bucket this, removeObjects)] /\
    copies (fst (S3renity.filter_finish this keepObjects removeObjects h)) = [].
Proof.
  destruct (filter_finish_trace this keepObjects removeObjects h) as (ts & E & S).
  rewrite E. destruct (issues_nothing _ S) as (Sc & Sd & Sp & Sf & _).
  destruct (copy_requests_only_copy this keepObjects) as (Nc & Np & Nd).
  rewrite !calls_app, !puts_app, Sf, Sp.
  destruct (S3renity.hasTarget this).
  - rewrite !copies_app, !deletes_app, copies_issue_all, Nc, Np, Nd, Sc, Sd.
    rewrite !app_nil_r. now repeat split.
  - rewrite !copies_app, !deletes_app, Sc, Sd. now repeat split.
Qed.

Lemma filter_filterObjects_run this body (p : string -> bool) isAsync keys :
  fetches this body keys ->
  forall (keepObjects removeObjects : list string) (h : trace),
    let t := fst (S3renity.filter_filterObjects this
                    (fun x => Resolved (VBool (p x))) isAsync keys keepObjects
                    removeObjects h) in
    calls t = List.map (fun key => (key, body key)) keys /\
    puts t = [] /\
    if S3renity.hasTarget this then
      copies t
      = List.map (fun key =>
                    (S3renity.targetBucket this,
                     (S3renity.targetPrefix this ++ getFileName key)%string,
                     (S3renity.bucket this ++ "/" ++ key)%string))
          (keepObjects ++ List.filter (fun key => p (body key)) keys) /\
      deletes t = []
    else
      deletes t
      = [(S3renity.bucket this,
          removeObjects ++ List.filter (fun key => negb (p (body key))) keys)] /\
      copies t = [].
Proof.
  induction keys as [|key keys IH]; intros F keepObjects removeObjects h t;
    subst t.
  - cbn [S3renity.filter_filterObjects List.filter List.map].
    rewrite !app_nil_r. apply filter_finish_run.
  - cbn [S3renity.filter_filterObjects].
    rewrite (bind_run _ _ _ _ _ (fetches_get _ _ _ _ h F)). cbv beta iota.
    assert (S : forall x : trace,
               let t := fst ((if p (body key)
                              then S3renity.filter_filterObjects this
                                     (fun x => Resolved (VBool (p x))) isAsync keys
                                     (keepObjects ++ [key]) removeObjects
                              else S3renity.filter_filterObjects this
                                     (fun x => Resolved (VBool (p x))) isAsync keys
                                     keepObjects (removeObjects ++ [key])) x) in
               calls t = List.map (fun key => (key, body key)) keys /\
               puts t = [] /\
               if S3renity.hasTarget this then
                 copies t
                 = List.map (fun key =>
                               (S3renity.targetBucket this,
                                (S3renity.targetPrefix this ++ getFileName key)%string,
                                (S3renity.bucket this ++ "/" ++ key)%string))
                     (keepObjects
                      ++ List.filter (fun key => p (body key)) (key :: keys)) /\
                 deletes t = []
               else
                 deletes t
                 = [(S3renity.bucket this,
                     removeObjects
                     ++ List.filter (fun key => negb (p (body key))) (key :: keys))] /\
                 copies t = []).
    { intros x. cbn [List.filter]. destruct (p (body key)); cbn [negb].
      - pose proof (IH (fetches_tail _ _ _ _ F) (keepObjects ++ [key])
                      removeObjects x) as I.
        cbv zeta in I. now rewrite <- app_assoc in I.
      - pose proof (IH (fetches_tail _ _ _ _ F) keepObjects
                      (removeObjects ++ [key]) x) as I.
        cbv zeta in I. now rewrite <- app_assoc in I. }
    destruct isAsync;
      rewrite (bind_run _ _ _ _ _ (call_run _ _ _ _ _)); cbv beta iota;
      cbn [S3renity.filter_checkResult not_boolean truthy fst snd];
      match goal with
      | |- context [fst ((if p (body key) then _ else _) ?x)] =>
          destruct (S x) as (C & P & R)
      end;
      rewrite !calls_app, !puts_app, !copies_app, !deletes_app, C, P;
      (split; [reflexivity|]); (split; [reflexivity|]);
      destruct (S3renity.hasTarget this); destruct R as [R1 R2];
      rewrite R1, R2; split; reflexivity.
Qed.

Lemma filter_whole_run this fuel body (p : string -> bool) isAsync
  (h t : trace) keys :
  S3renity.delimiter this = None ->
  S3renity.list this fuel h = (t, Some (Resolved keys)) ->
  fetches this body keys ->
  exists (t' : trace) (o : option (outcome unit)),
    S3renity.filter_promise this fuel (fun x => Resolved (VBool (p x))) isAsync h
    = (t ++ t', o) /\
    calls t' = List.map (fun key => (key, body key)) keys /\
    puts t' = [] /\
    if S3renity.hasTarget this then
      copies t'
      = List.map (fun key =>
                    (S3renity.targetBucket this,
                     (S3renity.targetPrefix this ++ getFileName key)%string,
                     (S3renity.bucket this ++ "/" ++ key)%string))
          (List.filter (fun key => p (body key)) keys) /\
      deletes t' = []
    else
      deletes t'
      = [(S3renity.bucket this,
          List.filter (fun key => negb (p (body key))) keys)] /\
      copies t' = [].
Proof.
  intros D L F.
  pose proof (filter_filterObjects_run this body p isAsync keys F [] [] (h ++ t))
    as R.
  cbv zeta in R. cbn [app] in R.
  unfold S3renity.filter_promise. rewrite (with_keys_run _ _ _ _ _ _ L), D.
  unfold bind.
  destruct (S3renity.filter_filterObjects _ _ _ _ _ _ _) as [t' r].
  cbn [fst snd ret] in *. rewrite app_nil_r.
  exists t', (Some (finish r tt)). split; [reflexivity | exact R].
Qed.

(** X16: [filter] on whole objects, when no fetch fails and the predicate
    returns booleans: the predicate is called once on the body of every
    object, in the order of the listing, and only then, without a target,
    one request deletes the objects for which it returned false, all
    together and in their order; with a target the objects for which it
    returned true are copied from the source bucket to the target prefix
    under their file names, and nothing is deleted.  Nothing is put. *)
Theorem filter_whole_selects (this : S3renity.t) (fuel : nat)
  (p : string -> bool) (isAsync : option bool) (body : string -> string)
  (h t : trace) (keys : list string) :
  S3renity.delimiter this = None ->
  S3renity.list this fuel h = (t, Some (Resolved keys)) ->
  fetches this body keys ->
  exists (promise : M (option (outcome unit))) (t' : trace)
         (o : option (outcome unit)),
    S3renity.filter this fuel (function (fun x => Resolved (VBool (p x)))) isAsync
    = Promised promise /\
    promise h = (t ++ t', o) /\
    calls t' = List.map (fun key => (key, body key)) keys /\
    puts t' = [] /\
    if S3renity.hasTarget this then
      copies t'
      = List.map (fun key =>
                    (S3renity.targetBucket this,
                     (S3renity.targetPrefix this ++ getFileName key)%string,
                     (S3renity.bucket this ++ "/" ++ key)%string))
          (List.filter (fun key => p (body key)) keys) /\
      deletes t' = []
    else
      deletes t'
      = [(S3renity.bucket this,
          List.filter (fun key => negb (p (body key))) keys)] /\
      copies t' = [].
Proof.
  intros D L F.
  destruct (filter_whole_run this fuel body p
              match isAsync with Some b => b | None => false end h t keys D L F)
    as (t' & o & E & R).
  eexists. exists t', o. split; [reflexivity|]. split; [exact E | exact R].
Qed.

Lemma filter_whole_selects_witness :
  let objects := [("p/a", "keep"); ("p/b", "drop"); ("p/c", "keep"); ("p/d", "")] in
  let source := store.instance (archive "b" objects) "b" "p" in
  (exists (promise : M (option (outcome unit))) (t' : trace)
          (o : option (outcome unit)),
      S3renity.filter source 2 (function keep) None = Promised promise /\
      promise [] = (fst (S3renity.list source 2 []) ++ t', o) /\
      deletes t' = [("b", ["p/b"; "p/d"])] /\ copies t' = []) /\
  (forall target,
      S3renity.target source "s3://out/kept/" = Resolved target ->
      exists (promise : M (option (outcome unit))) (t' : trace)
             (o : option (outcome unit)),
        S3renity.filter target 2 (function keep) None = Promised promise /\
        promise [] = (fst (S3renity.list target 2 []) ++ t', o) /\
        copies t' = [("out", "kept/a", "b/p/a"); ("out", "kept/c", "b/p/c")] /\
        deletes t' = []).
Proof.
  intros objects source. split.
  - assert (F : fetches source (archived objects) ["p/a"; "p/b"; "p/c"; "p/d"]).
    { intros key h [<-|[<-|[<-|[<-|[]]]]]; reflexivity. }
    destruct (filter_whole_selects source 2 (fun x => (x =? "keep")%string) None
                (archived objects) [] _ _ eq_refl eq_refl F)
      as (promise & t' & o & E & R & _ & _ & W).
    exists promise, t', o. split; [exact E|]. split; [exact R | exact W].
  - intros target T. vm_compute in T. inversion T; subst target. clear T.
    match goal with
    | |- context [S3renity.filter ?i _ _ _] => set (target := i)
    end.
    assert (F : fetches target (archived objects) ["p/a"; "p/b"; "p/c"; "p/d"]).
    { intros key h [<-|[<-|[<-|[<-|[]]]]]; reflexivity. }
    destruct (filter_whole_selects target 2 (fun x => (x =? "keep")%string) None
                (archived objects) [] _ _ eq_refl eq_refl F)
      as (promise & t' & o & E & R & _ & _ & W).
    exists promise, t', o. split; [exact E|]. split; [exact R | exact W].
Defined.

Lemma not_empty_eqb (s : string) : negb (not_empty s) = (s =? "")%string.
Proof. now destruct s. Qed.

(** X17: [clean] deletes the empty objects: on an instance without delimiter
    and without target, when no fetch fails, one request deletes the
    objects of the working set whose body is empty, and no other. *)
Theorem clean_deletes_empty_objects (this : S3renity.t) (fuel : nat)
  (body : string -> string) (h t : trace) (keys : list string) :
  S3renity.delimiter this = None ->
  S3renity.hasTarget this = false ->
  S3renity.list this fuel h = (t, Some (Resolved keys)) ->
  fetches this body keys ->
  exists (promise : M (option (outcome unit))) (t' : trace)
         (o : option (outcome unit)),
    S3renity.clean this fuel = Promised promise /\
    promise h = (t ++ t', o) /\
    deletes t'
    = [(S3renity.bucket this,
        List.filter (fun key => (body key =? "")%string) keys)] /\
    copies t' = [] /\ puts t' = [].
Proof.
  intros D T L F.
  destruct (filter_whole_run this fuel body not_empty false h t keys D L F)
    as (t' & o & E & _ & P & R).
  rewrite T in R. destruct R as [R1 R2].
  eexists. exists t', o. split; [reflexivity|]. split; [exact E|].
  split; [|now split]. rewrite R1. do 2 f_equal.
  apply List.filter_ext. intros key. apply not_empty_eqb.
Qed.

Lemma clean_deletes_empty_objects_witness :
  let objects := [("p/a", "text"); ("p/b", ""); ("p/c", "")] in
  let this := store.instance (archive "b" objects) "b" "p" in
  exists (promise : M (option (outcome unit))) (t' : trace)
         (o : option (outcome unit)),
    S3renity.clean this 2 = Promised promise /\
    promise [] = (fst (S3renity.list this 2 []) ++ t', o) /\
    deletes t' = [("b", ["p/b"; "p/c"])].
Proof.
  intros objects this.
  assert (F : fetches this (archived objects) ["p/a"; "p/b"; "p/c"]).
  { intros key h [<-|[<-|[<-|[]]]]; reflexivity. }
  destruct (clean_deletes_empty_objects this 2 (archived objects) [] _ _
              eq_refl eq_refl eq_refl F)
    as (promise & t' & o & E & R & W & _).
  exists promise, t', o. split; [exact E|]. split; [exact R | exact W].
Defined.

Lemma kept_entries (f : string -> js_value) (entries : list string) :
  List.map fst
    (List.filter (fun p => truthy (snd p))
       (List.combine entries (List.map f entries)))
  = List.filter (fun entry => truthy (f entry)) entries.
Proof.
  induction entries as [|e l IH]; [reflexivity|].
  cbn [List.map List.combine List.filter snd].
  destruct (truthy (f e)); cbn [List.map fst]; now rewrite IH.
Qed.

Lemma Array_join_strings (l : list string) (d : string) :
  Array_join (List.map VStr l) (Some d) = String.concat d l.
Proof.
  unfold Array_join. f_equal. rewrite List.map_map. cbn [join_text toString].
  apply List.map_id.
Qed.

Lemma filter_filterSplitObject_run (f : string -> js_value) key entries
  (h : trace) :
  exists tc : trace,
    S3renity.filter_filterSplitObject (fun x => Resolved (f x)) false key entries h
    = (tc, Resolved (List.filter (fun entry => truthy (f entry)) entries)) /\
    calls tc = List.map (pair key) entries /\
    puts tc = [].
Proof.
  destruct (calls_run f false key entries h) as (tc & E & C & P).
  exists tc. split; [|now split].
  unfold S3renity.filter_filterSplitObject.
  rewrite (bind_run _ _ _ _ _ E). cbn. now rewrite app_nil_r, kept_entries.
Qed.

Lemma filter_splitObjects_run this body (f : string -> js_value) keys :
  accepts_puts this ->
  fetches this body keys ->
  forall h : trace,
    snd (S3renity.filter_splitObjects this (fun x => Resolved (f x)) false keys h)
    = VNull /\
    calls (fst (S3renity.filter_splitObjects this (fun x => Resolved (f x))
                  false keys h))
    = List.flat_map
        (fun key => List.map (pair key)
                      (records (S3renity.delimiter this) (body key))) keys /\
    puts (fst (S3renity.filter_splitObjects this (fun x => Resolved (f x))
                 false keys h))
    = List.map
        (fun key =>
           (fst (destination this key), snd (destination this key),
            VStr (Array_join
                    (List.map VStr
                       (List.filter (fun entry => truthy (f entry))
                          (records (S3renity.delimiter this) (body key))))
                    (S3renity.delimiter this)))) keys.
Proof.
  intros P. induction keys as [|key keys IH]; intros F h; [now cbn|].
  rewrite filter_splitObjects_step.
  rewrite (bind_run _ _ _ _ _ (fetches_splitObject _ _ _ _ _ _ h F)).
  cbv beta iota.
  match goal with
  | |- context [bind (S3renity.filter_filterSplitObject ?g _ ?k ?e) _ ?x] =>
      destruct (filter_filterSplitObject_run f k e x) as (tc & Ec & Cc & Pc)
  end.
  rewrite (bind_run _ _ _ _ _ Ec). cbv beta iota.
  rewrite (bind_run _ _ _ _ _ (put_run _ _ _ _ _ P)). cbv beta iota.
  cbn [fst snd].
  match goal with
  | |- context [S3renity.filter_splitObjects this ?g false keys ?x] =>
      destruct (IH (fetches_tail _ _ _ _ F) x) as (R & C & W)
  end.
  rewrite R, !calls_app, !puts_app, Cc, Pc, C, W. now cbn.
Qed.

(** X18: [filter] on a split instance in synchronous mode, when no fetch and
    no put fails and the predicate returns: every object is rewritten
    once, in the order of the listing, at its destination, with the
    records on which the predicate returned a truthy value, in their
    order, joined with the delimiter.  An object none of whose records
    passes is written with an empty body and is not removed, and a result
    that is not a boolean counts as its truth value. *)
Theorem filter_split_sync_rewrites (this : S3renity.t) (fuel : nat)
  (f : string -> js_value) (body : string -> string) (d : string)
  (h t : trace) (keys : list string) :
  S3renity.delimiter this = Some d ->
  S3renity.list this fuel h = (t, Some (Resolved keys)) ->
  fetches this body keys ->
  accepts_puts this ->
  exists (promise : M (option (outcome unit))) (t' : trace),
    S3renity.filter this fuel (function (fun x => Resolved (f x))) None
    = Promised promise /\
    promise h = (t ++ t', Some (Resolved tt)) /\
    calls t'
    = List.flat_map
        (fun key => List.map (pair key) (records (Some d) (body key))) keys /\
    puts t'
    = List.map
        (fun key =>
           (fst (destination this key), snd (destination this key),
            VStr (String.concat d
                    (List.filter (fun entry => truthy (f entry))
                       (records (Some d) (body key)))))) keys.
Proof.
  intros D L F P. eexists.
  exists (fst (S3renity.filter_splitObjects this (fun x => Resolved (f x)) false
                 keys (h ++ t))).
  destruct (filter_splitObjects_run this body f keys P F (h ++ t)) as (R & C & W).
  split; [reflexivity|].
  unfold S3renity.filter_promise. rewrite (with_keys_run _ _ _ _ _ _ L), D.
  unfold bind.
  destruct (S3renity.filter_splitObjects _ _ _ _ _) as [t' r].
  cbn [fst snd ret] in *. subst r. rewrite app_nil_r.
  split; [reflexivity|]. rewrite D in C, W. split; [exact C|].
  rewrite W. apply List.map_ext. intros key. now rewrite Array_join_strings.
Qed.

Lemma filter_split_sync_rewrites_witness :
  let objects := [("p/a", lines ["keep"; "drop"; "keep"]); ("p/b", lines ["drop"])] in
  let this := S3renity.split (store.instance (archive "b" objects) "b" "p") None in
  exists (promise : M (option (outcome unit))) (t' : trace),
    S3renity.filter this 2 (function keep) None = Promised promise /\
    promise [] = (fst (S3renity.list this 2 []) ++ t', Some (Resolved tt)) /\
    puts t' = [("b", "p/a", VStr (lines ["keep"; "keep"])); ("b", "p/b", VStr "")].
Proof.
  intros objects this.
  assert (F : fetches this (archived objects) ["p/a"; "p/b"]).
  { intros key h [<-|[<-|[]]]; reflexivity. }
  destruct (filter_split_sync_rewrites this 2
              (fun x => VBool (x =? "keep")%string) (archived objects) newline
              [] _ _ eq_refl eq_refl F (fun _ _ _ _ => eq_refl))
    as (promise & t' & E & R & _ & W).
  exists promise, t'. split; [exact E|]. split; [exact R | exact W].
Defined.

(** ** join *)

Lemma get_settle_run (this : S3renity.t) (b k x : string) (h : trace) :
  snd (S3renity.get_settle this b k h) = Resolved x ->
  S3renity.get_settle this b k h
  = ([Settle (S3renity.get_request b k) (Resolved VUndefined)], Resolved x).
Proof.
  unfold S3renity.get_settle, bind, settle.
  destruct (aws.getObject _ _ _ _) as [Body|name message]; cbn.
  - destruct (S3renity.transformer this); cbn; now intros ->.
  - discriminate.
Qed.

Lemma await_all_fetches this body keys :
  fetches this body keys ->
  forall h : trace,
    await_all (fun key => S3renity.get_settle this (S3renity.bucket this) key)
      keys h
    = (List.map (fun key =>
                   Settle (S3renity.get_request (S3renity.bucket this) key)
                     (Resolved VUndefined)) keys,
       List.map (fun key => Resolved (body key)) keys).
Proof.
  induction keys as [|key keys IH]; intros F h; [reflexivity|].
  cbn [await_all].
  rewrite (bind_run _ _ _ _ _
             (get_settle_run _ _ _ _ _ (F key h (or_introl eq_refl)))).
  cbv beta. unfold bind. rewrite (IH (fetches_tail _ _ _ _ F)).
  cbn. now rewrite app_nil_r.
Qed.

(** X19: [join], when no fetch fails: every object of the working set is
    asked for, in the order of the listing, before the first answer is
    read, and the promise resolves with the bodies, in that order, joined
    with the delimiter, which is the line feed when none is given. *)
Theorem join_concatenates (this : S3renity.t) (fuel : nat)
  (delimiter : option string) (body : string -> string) (h t : trace)
  (keys : list string) :
  S3renity.list this fuel h = (t, Some (Resolved keys)) ->
  fetches this body keys ->
  exists promise : M (option (outcome string)),
    S3renity.join this fuel delimiter = Promised promise /\
    promise h
    = (t ++
       List.map (fun key =>
                   Issue (S3renity.get_request (S3renity.bucket this) key)) keys ++
       List.map (fun key =>
                   Settle (S3renity.get_request (S3renity.bucket this) key)
                     (Resolved VUndefined)) keys,
       Some (Resolved
               (String.concat
                  match delimiter with Some d => d | None => newline end
                  (List.map body keys)))).
Proof.
  intros L F. eexists. split; [reflexivity|].
  unfold S3renity.join_promise. rewrite (with_keys_run _ _ _ _ _ _ L).
  unfold bind at 1 2. unfold issue_all at 1 2.
  unfold bind. rewrite (await_all_fetches this body keys F).
  rewrite <- (List.map_map body Resolved), Promise_all_resolved.
  cbn [fst snd ret]. rewrite Array_join_strings, app_nil_r, List.map_map.
  reflexivity.
Qed.

Lemma join_concatenates_witness :
  let objects := [("p/a", "one"); ("p/b", "two"); ("p/c", "three")] in
  let this := store.instance (archive "b" objects) "b" "p" in
  exists promise : M (option (outcome string)),
    S3renity.join this 2 (Some ", ") = Promised promise /\
    snd (promise []) = Some (Resolved "one, two, three") /\
    gets (fst (promise [])) = [("b", "p/a"); ("b", "p/b"); ("b", "p/c")].
Proof.
  intros objects this.
  assert (F : fetches this (archived objects) ["p/a"; "p/b"; "p/c"]).
  { intros key h [<-|[<-|[<-|[]]]]; reflexivity. }
  destruct (join_concatenates this 2 (Some ", ") (archived objects) [] _ _
              eq_refl F) as (promise & E & R).
  exists promise. split; [exact E|]. rewrite R. split; reflexivity.
Defined.

(** ** An empty working set *)

(** X20: With nothing listed, [forEach], [map], [reduce], [join] and the
    [filter] of a split instance or of an instance with a target resolve
    at once, without a request after the listing: [reduce] with the
    initial value, on a split instance as well, and [join] with the
    empty string.  The [filter] of whole objects without a target still
    sends its deletion, with no key in it. *)
Theorem empty_working_set (this : S3renity.t) (fuel : nat) (h t : trace) :
  S3renity.list this fuel h = (t, Some (Resolved [])) ->
  (forall func isAsync,
      S3renity.forEach_promise this fuel func isAsync h
      = (t, Some (Resolved tt))) /\
  (forall func isAsync,
      S3renity.map_promise this fuel func isAsync h = (t, Some (Resolved tt))) /\
  (forall (A : Type) (func : A -> string -> string -> outcome A) initialValue
          isAsync,
      S3renity.reduce_promise this fuel func initialValue isAsync h
      = (t, Some (Resolved (Some initialValue)))) /\
  (forall delimiter,
      S3renity.join_promise this fuel delimiter h = (t, Some (Resolved ""))) /\
  (forall func isAsync,
      S3renity.delimiter this <> None \/ S3renity.hasTarget this = true ->
      S3renity.filter_promise this fuel func isAsync h
      = (t, Some (Resolved tt))) /\
  (forall func isAsync,
      S3renity.delimiter this = None ->
      S3renity.hasTarget this = false ->
      exists o,
        fst (S3renity.filter_promise this fuel func isAsync h)
        = t ++ [Issue (deleteObjects_request (S3renity.bucket this) []);
                Settle (deleteObjects_request (S3renity.bucket this) []) o]).
Proof.
  intros L.
  unfold S3renity.forEach_promise, S3renity.map_promise, S3renity.reduce_promise,
    S3renity.filter_promise, S3renity.join_promise.
  split; [|split; [|split; [|split; [|split]]]].
  - intros func isAsync. rewrite (with_keys_run _ _ _ _ _ _ L).
    destruct (S3renity.delimiter this); cbn; now rewrite app_nil_r.
  - intros func isAsync. rewrite (with_keys_run _ _ _ _ _ _ L).
    destruct (S3renity.delimiter this); cbn; now rewrite app_nil_r.
  - intros A func initialValue isAsync. rewrite (with_keys_run _ _ _ _ _ _ L).
    destruct (S3renity.delimiter this); cbn; now rewrite app_nil_r.
  - intros delimiter. rewrite (with_keys_run _ _ _ _ _ _ L).
    cbn. now rewrite app_nil_r.
  - intros func isAsync C. rewrite (with_keys_run _ _ _ _ _ _ L).
    destruct (S3renity.delimiter this) as [d|] eqn:D.
    + cbn. now rewrite app_nil_r.
    + destruct C as [N|T]; [congruence|].
      cbn. unfold S3renity.filter_finish. rewrite T. cbn. now rewrite app_nil_r.
  - intros func isAsync D T. rewrite (with_keys_run _ _ _ _ _ _ L), D.
    cbn [fst]. rewrite bind_ret_fst.
    cbn [S3renity.filter_filterObjects]. unfold S3renity.filter_finish.
    rewrite T. unfold S3renity.delete, S3renity.deleteObjects, bind, issue, settle.
    destruct (aws.deleteObjects _ _ _ _); cbn; eexists; reflexivity.
Qed.

Lemma empty_working_set_witness :
  let this := store.instance (archive "b" []) "b" "p" in
  let listed := [Issue (listObjects_request "b" "p/" "");
                 Settle (listObjects_request "b" "p/" "") (Resolved VUndefined)] in
  S3renity.reduce_promise (S3renity.split this None) 1 add_length 7%Z false []
  = (listed, Some (Resolved (Some 7%Z))) /\
  exists o,
    fst (S3renity.filter_promise this 1 keep false [])
    = listed ++ [Issue (deleteObjects_request "b" []);
                 Settle (deleteObjects_request "b" []) o].
Proof.
  intros this listed. split.
  - destruct (empty_working_set (S3renity.split this None) 1 [] listed eq_refl)
      as (_ & _ & R & _).
    exact (R Z add_length 7%Z false).
  - destruct (empty_working_set this 1 [] listed eq_refl)
      as (_ & _ & _ & _ & _ & D).
    exact (D keep false eq_refl eq_refl).
Defined.

(** ** Requests the store refuses *)

Lemma first_refusal_app (t1 t2 : trace) :
  first_refusal (t1 ++ t2) =
  match first_refusal t1 with
  | Some (e, b) => Some (e, b ++ t2)
  | None => first_refusal t2
  end.
Proof.
  induction t1 as [|x t1 IH]; [reflexivity|].
  cbn [app first_refusal]. destruct (failed_request x); [reflexivity | exact IH].
Qed.

Lemma first_refusal_split (a b : trace) (r : request) (e : js_value) :
  store_request r = true ->
  no_failed_request a ->
  first_refusal (a ++ Settle r (Rejected e) :: b) = Some (e, b).
Proof.
  intros S N. induction a as [|x a IH].
  - cbn. now rewrite S.
  - cbn [app first_refusal]. destruct (failed_request x) as [err|] eqn:F.
    + destruct x as [q|q [v|err']]; try discriminate.
      cbn in F. destruct (store_request q) eqn:Q; [|discriminate].
      exfalso. apply (N q err' Q). now left.
    + apply IH. intros q e' Q I. apply (N q e' Q). now right.
Qed.

Lemma unrefused_ret {A : Type} (a : A) : unrefused (ret a).
Proof. intros h; reflexivity. Qed.

Lemma unrefused_bind {A B : Type} (m : M A) (f : A -> M B) :
  unrefused m -> (forall a, unrefused (f a)) -> unrefused (bind m f).
Proof.
  intros Hm Hf h. unfold bind. specialize (Hm h).
  destruct (m h) as [t1 a]. specialize (Hf a (h ++ t1)).
  destruct (f a (h ++ t1)) as [t2 b]. cbn [fst] in *.
  now rewrite first_refusal_app, Hm.
Qed.

Lemma unrefused_issue (r : request) : unrefused (issue r).
Proof. intros h; reflexivity. Qed.

Lemma unrefused_issue_all (requests : list request) :
  unrefused (issue_all requests).
Proof.
  intros h. unfold issue_all. cbn [fst].
  induction requests as [|r l IH]; [reflexivity | exact IH].
Qed.

Lemma unrefused_call {A : Type} (show : A -> js_value) key entry (result : outcome A) :
  unrefused (call show key entry result).
Proof. intros h. cbn. now destruct result. Qed.

Lemma unrefused_call_each func key entries :
  unrefused (call_each func key entries).
Proof.
  induction entries as [|entry entries IH]; cbn [call_each].
  - apply unrefused_ret.
  - apply unrefused_bind; [apply unrefused_call|].
    intros [v|e]; [|apply unrefused_ret].
    apply unrefused_bind; [exact IH|]. intros [vs|e]; apply unrefused_ret.
Qed.

Lemma unrefused_call_all func key entries :
  unrefused (call_all func key entries).
Proof.
  intros h. unfold call_all, bind, issue_calls, settle_calls, ret. cbn [fst].
  rewrite !first_refusal_app.
  assert (I : first_refusal
                (List.map (fun entry => Issue (func_call key entry)) entries)
              = None).
  { induction entries as [|e l IH]; [reflexivity | exact IH]. }
  rewrite I. clear I.
  induction entries as [|e l IH]; [reflexivity|].
  cbn. destruct (func e); exact IH.
Qed.

Lemma halts_unrefused {A : Type} (view : A -> js_value -> Prop) (m : M A) :
  unrefused m -> halts view m.
Proof. intros S h e b F. rewrite S in F. discriminate. Qed.

Lemma halts_ret {A : Type} (view : A -> js_value -> Prop) (a : A) :
  halts view (ret a).
Proof. apply halts_unrefused, unrefused_ret. Qed.

Lemma halts_bind {A B : Type} (vA : A -> js_value -> Prop)
  (vB : B -> js_value -> Prop) (m : M A) (f : A -> M B) :
  halts vA m ->
  (forall a, halts vB (f a)) ->
  (forall a e h, vA a e -> fst (f a h) = [] /\ vB (snd (f a h)) e) ->
  halts vB (bind m f).
Proof.
  intros Hm Hf Hv h e b. unfold bind. specialize (Hm h).
  destruct (m h) as [t1 a]. specialize (Hf a (h ++ t1)).
  specialize (Hv a). cbn [fst snd] in *.
  destruct (f a (h ++ t1)) as [t2 r] eqn:E. cbn [fst snd] in *.
  rewrite first_refusal_app.
  destruct (first_refusal t1) as [[e1 b1]|].
  - intros F; inversion F; subst. destruct (Hm _ _ eq_refl) as [Q V].
    destruct (Hv e (h ++ t1) V) as [T R]. rewrite E in T, R. cbn in T, R.
    subst t2. rewrite app_nil_r. split; assumption.
  - intros F. exact (Hf _ _ F).
Qed.

Lemma halts_bind_unrefused {A B : Type} (vB : B -> js_value -> Prop)
  (m : M A) (f : A -> M B) :
  unrefused m -> (forall a, halts vB (f a)) -> halts vB (bind m f).
Proof.
  intros S Hf. apply halts_bind with (vA := fun _ _ => False);
    [now apply halts_unrefused | exact Hf | contradiction].
Qed.

(** A request and its answer. *)
Lemma halts_request {A : Type} (r : request) (answer : trace -> response A) :
  store_request r = true ->
  halts refused_with (issue r ;;; settle r answer).
Proof.
  intros S h e b. unfold bind, issue, settle.
  destruct (answer _) as [data|name message]; cbn [fst snd app first_refusal
    failed_request]; [discriminate|].
  rewrite S. intros F; inversion F; subst. now repeat split.
Qed.

Lemma halts_settle {A : Type} (r : request) (answer : trace -> response A) :
  store_request r = true -> halts refused_with (settle r answer).
Proof.
  intros S h e b. unfold settle.
  destruct (answer _) as [data|name message]; cbn [fst snd first_refusal
    failed_request]; [discriminate|].
  rewrite S. intros F; inversion F; subst. now repeat split.
Qed.

Create HintDb unrefused.
Create HintDb halts.

#[export] Hint Resolve unrefused_call unrefused_call_each unrefused_call_all
  : unrefused.

Ltac calm :=
  repeat first
    [ apply unrefused_ret
    | apply unrefused_issue
    | apply unrefused_issue_all
    | solve [auto with unrefused]
    | apply unrefused_bind; [|intros]
    | match goal with
      | |- unrefused (match ?x with _ => _ end) => destruct x
      | |- unrefused (if ?x then _ else _) => destruct x
      end ].

Ltac halt :=
  repeat first
    [ apply halts_ret
    | solve [auto with halts]
    | apply halts_bind_unrefused; [solve [calm] | intros]
    | eapply halts_bind;
      [ solve [eauto with halts]
      | intros
      | let V := fresh in
        intros ? ? ? V; red in V; destruct V; subst; now repeat split ]
    | match goal with
      | |- halts _ (match ?x with _ => _ end) => destruct x
      | |- halts _ (if ?x then _ else _) => destruct x
      end ].

Section Halts.

Variable this : S3renity.t.

Lemma halts_get arg1 arg2 : halts refused_with (S3renity.get this arg1 arg2).
Proof.
  intros h e b. unfold S3renity.get, S3renity.get_settle, S3renity.get_request,
    bind, issue, settle.
  destruct (aws.getObject _ _ _ _) as [Body|name message].
  - destruct (S3renity.transformer this); cbn; discriminate.
  - cbn. intros F; inversion F; subst. now repeat split.
Qed.

Lemma halts_get_settle arg1 arg2 :
  halts refused_with (S3renity.get_settle this arg1 arg2).
Proof.
  intros h e b. unfold S3renity.get_settle, S3renity.get_request, bind, settle.
  destruct (aws.getObject _ _ _ _) as [Body|name message].
  - destruct (S3renity.transformer this); cbn; discriminate.
  - cbn. intros F; inversion F; subst. now repeat split.
Qed.

Lemma halts_put bucket key body :
  halts refused_with (S3renity.put this bucket key body).
Proof. unfold S3renity.put. now apply halts_request. Qed.

Lemma halts_delete bucket keys :
  halts refused_with (S3renity.delete this bucket keys).
Proof.
  unfold S3renity.delete, S3renity.deleteObjects. now apply halts_request.
Qed.

Lemma halts_copy_settle sb sk tb tk :
  halts refused_with (S3renity.copy_settle this sb sk tb tk).
Proof. unfold S3renity.copy_settle. now apply halts_settle. Qed.

Lemma halts_listObjects bucket prefix marker :
  halts refused_with (S3renity.listObjects this bucket prefix marker).
Proof.
  intros h e b. unfold S3renity.listObjects, bind, issue, settle.
  destruct (aws.listObjects _ _ _ _ _) as [keys|name message].
  - cbn. discriminate.
  - cbn. intros F; inversion F; subst. now repeat split.
Qed.

Lemma halts_map_output key body :
  halts refused_with (S3renity.map_output this key body).
Proof.
  unfold S3renity.map_output. destruct (S3renity.hasTarget this); apply halts_put.
Qed.

Hint Resolve halts_get halts_get_settle halts_put halts_delete halts_copy_settle
  halts_listObjects halts_map_output : halts.

Lemma halts__keys fuel allKeys marker :
  halts (fun o e => o = Some (Rejected e) /\ truthy e = true)
    (S3renity._keys this fuel allKeys marker).
Proof.
  revert allKeys marker; induction fuel as [|fuel IH]; intros allKeys marker;
    cbn [S3renity._keys]; [apply halts_ret|].
  eapply halts_bind; [apply halts_listObjects | |].
  - intros [keys|err]; [|apply halts_ret].
    destruct (List.length keys =? 0)%nat; [apply halts_ret | apply IH].
  - intros a e h [-> T]. now repeat split.
Qed.

Lemma halts_splitObject bucket key delimiter encoding :
  halts refused_with (S3renity.splitObject this bucket key delimiter encoding).
Proof. unfold S3renity.splitObject. halt. Qed.

Hint Resolve halts_splitObject : halts.

Lemma settled_quiet {P A : Type} (await : P -> M (outcome A))
  (promises : list P) :
  (forall p h, forallb (fun x => negb (is_issue x)) (fst (await p h)) = true) ->
  forall h, forallb (fun x => negb (is_issue x))
              (fst (await_all await promises h)) = true.
Proof.
  intros H. induction promises as [|p rest IH]; intros h; [reflexivity|].
  cbn [await_all]. unfold bind.
  specialize (H p h). destruct (await p h) as [t1 o].
  specialize (IH (h ++ t1)). destruct (await_all await rest (h ++ t1)) as [t2 os].
  cbn [fst ret] in *. now rewrite app_nil_r, forallb_app, H, IH.
Qed.

Lemma halts_await_all {P A : Type} (await : P -> M (outcome A)) (promises : list P) :
  (forall p h, forallb (fun x => negb (is_issue x)) (fst (await p h)) = true) ->
  (forall p, halts refused_with (await p)) ->
  (forall p h e, snd (await p h) = Rejected e ->
                 first_refusal (fst (await p h)) <> None) ->
  halts (fun os e => Promise_all os = Rejected e /\ truthy e = true)
    (await_all await promises).
Proof.
  intros Q H N. induction promises as [|p rest IH]; cbn [await_all];
    [apply halts_ret|].
  intros h e b. unfold bind.
  specialize (H p h e). specialize (N p h).
  pose proof (settled_quiet await rest Q) as R.
  destruct (await p h) as [t1 o]. specialize (IH (h ++ t1) e).
  specialize (R (h ++ t1)).
  destruct (await_all await rest (h ++ t1)) as [t2 os].
  cbn [fst snd ret] in *. rewrite app_nil_r, first_refusal_app.
  destruct (first_refusal t1) as [[e1 b1]|].
  - intros F; inversion F; subst. destruct (H _ eq_refl) as [Qb [-> T]].
    split; [now rewrite forallb_app, Qb, R | now split].
  - intros F. destruct (IH _ F) as [Qb [V T]]. split; [exact Qb|].
    destruct o as [a|e0]; [now cbn; rewrite V|].
    destruct (N e0 eq_refl eq_refl).
Qed.

Lemma halts_filter_finish keepObjects removeObjects :
  halts handed_on (S3renity.filter_finish this keepObjects removeObjects).
Proof.
  unfold S3renity.filter_finish. destruct (S3renity.hasTarget this).
  - apply halts_bind_unrefused; [apply unrefused_issue_all|]. intros _.
    eapply halts_bind.
    + apply halts_await_all.
      * intros key h. unfold S3renity.copy_settle, settle.
        now destruct (aws.copyObject _ _ _ _ _).
      * intros key. apply halts_copy_settle.
      * intros key h e. unfold S3renity.copy_settle, S3renity.copy_request, settle.
        destruct (aws.copyObject _ _ _ _ _); cbn; discriminate.
    + intros os. destruct (Promise_all os); apply halts_ret.
    + intros os e h [-> T]. now repeat split.
  - halt.
Qed.

Hint Resolve halts_filter_finish : halts.

Lemma halts_forEach_eachObject func isAsync keys :
  halts handed_on (S3renity.forEach_eachObject this func isAsync keys).
Proof.
  induction keys as [|key keys IH]; cbn [S3renity.forEach_eachObject]; halt.
Qed.

Lemma unrefused_forEach_eachSplit func isAsync key entries :
  unrefused (S3renity.forEach_eachSplit func isAsync key entries).
Proof. unfold S3renity.forEach_eachSplit. calm. Qed.

Lemma unrefused_map_mapSplit func isAsync key entries :
  unrefused (S3renity.map_mapSplit func isAsync key entries).
Proof. unfold S3renity.map_mapSplit. calm. Qed.

Lemma unrefused_filter_filterSplitObject func isAsync key entries :
  unrefused (S3renity.filter_filterSplitObject func isAsync key entries).
Proof. unfold S3renity.filter_filterSplitObject. calm. Qed.

Hint Resolve unrefused_forEach_eachSplit unrefused_map_mapSplit
  unrefused_filter_filterSplitObject : unrefused.

Lemma halts_forEach_splitObjects func isAsync keys :
  halts handed_on (S3renity.forEach_splitObjects this func isAsync keys).
Proof.
  induction keys as [|key keys IH]; cbn [S3renity.forEach_splitObjects]; halt.
Qed.

Lemma halts_map func isAsync isSplit keys :
  halts handed_on (S3renity.map_mapObject this func isAsync isSplit keys) /\
  halts handed_on (S3renity.map_splitObjects this func isAsync isSplit keys).
Proof.
  induction keys as [|key keys [IH1 IH2]];
    cbn [S3renity.map_mapObject S3renity.map_splitObjects];
    (split; unfold S3renity.map_continue; halt).
Qed.

Lemma halts_reduce_reduceObjects {A : Type}
  (func : A -> string -> string -> outcome A) isAsync keys value :
  halts broken_with (S3renity.reduce_reduceObjects this func isAsync keys value).
Proof.
  revert value; induction keys as [|key keys IH]; intros value;
    cbn [S3renity.reduce_reduceObjects]; halt.
Qed.

Lemma halts_filter_filterObjects func isAsync keys keepObjects removeObjects :
  halts handed_on
    (S3renity.filter_filterObjects this func isAsync keys keepObjects removeObjects).
Proof.
  revert keepObjects removeObjects; induction keys as [|key keys IH];
    intros keepObjects removeObjects; cbn [S3renity.filter_filterObjects].
  - apply halts_filter_finish.
  - unfold S3renity.filter_checkResult. halt.
Qed.

Lemma halts_filter_splitObjects func isAsync keys :
  halts handed_on (S3renity.filter_splitObjects this func isAsync keys).
Proof.
  induction keys as [|key keys IH]; cbn [S3renity.filter_splitObjects]; halt.
Qed.

Lemma halts_with_keys {A : Type} (fuel : nat) (k : list string -> M (outcome A)) :
  (forall keys, halts refused_with (k keys)) ->
  halts promise_rejected_with (S3renity.with_keys this fuel k).
Proof.
  intros H. unfold S3renity.with_keys.
  eapply halts_bind; [apply halts__keys | |].
  - intros [[keys|err]|]; try apply halts_ret.
    eapply halts_bind; [apply H | intros; apply halts_ret |].
    intros a e h [-> T]. now split.
  - intros a e h [-> T]. now split.
Qed.

Lemma halts_finish {A : Type} (result : A) (m : M js_value) :
  halts handed_on m ->
  halts refused_with (err <- m ;; ret (finish err result)).
Proof.
  intros H. eapply halts_bind; [exact H | intros; apply halts_ret |].
  intros a e h [-> T]. unfold finish. rewrite T. now repeat split.
Qed.

Lemma halts_forEach_promise fuel func isAsync :
  halts promise_rejected_with (S3renity.forEach_promise this fuel func isAsync).
Proof.
  unfold S3renity.forEach_promise. apply halts_with_keys. intros keys.
  destruct (S3renity.delimiter this); apply halts_finish;
    [apply halts_forEach_splitObjects | apply halts_forEach_eachObject].
Qed.

Lemma halts_map_promise fuel func isAsync :
  halts promise_rejected_with (S3renity.map_promise this fuel func isAsync).
Proof.
  unfold S3renity.map_promise. apply halts_with_keys. intros keys.
  destruct (S3renity.delimiter this); apply halts_finish; apply halts_map.
Qed.

Lemma halts_reduce_promise {A : Type} fuel
  (func : A -> string -> string -> outcome A) initialValue isAsync :
  halts promise_rejected_with
    (S3renity.reduce_promise this fuel func initialValue isAsync).
Proof.
  unfold S3renity.reduce_promise. apply halts_with_keys. intros keys.
  destruct (S3renity.delimiter this).
  - destruct (S3renity.reduce_splitAndReduceObjects keys initialValue);
      apply halts_ret.
  - eapply halts_bind;
      [apply halts_reduce_reduceObjects | intros; apply halts_ret |].
    intros a e h [-> T]. unfold finish. cbn [fst snd]. rewrite T.
    now repeat split.
Qed.

Lemma halts_filter_promise fuel func isAsync :
  halts promise_rejected_with (S3renity.filter_promise this fuel func isAsync).
Proof.
  unfold S3renity.filter_promise. apply halts_with_keys. intros keys.
  destruct (S3renity.delimiter this); apply halts_finish;
    [apply halts_filter_splitObjects | apply halts_filter_filterObjects].
Qed.

Lemma halts_join_promise fuel delimiter :
  S3renity.transformer this = None ->
  halts promise_rejected_with (S3renity.join_promise this fuel delimiter).
Proof.
  intros T. unfold S3renity.join_promise. apply halts_with_keys. intros keys.
  apply halts_bind_unrefused; [apply unrefused_issue_all|]. intros _.
  eapply halts_bind.
  - apply halts_await_all.
    + intros key h. unfold S3renity.get_settle, bind, settle. rewrite T.
      now destruct (aws.getObject _ _ _ _).
    + intros key. apply halts_get_settle.
    + intros key h e. unfold S3renity.get_settle, S3renity.get_request, bind,
        settle. rewrite T.
      destruct (aws.getObject _ _ _ _); cbn; discriminate.
  - intros os. destruct (Promise_all os); apply halts_ret.
  - intros os e h [-> V]. now repeat split.
Qed.

End Halts.

Lemma nothing_after {A : Type} (promise : M (option (outcome A)))
  (h t : trace) (o : option (outcome A)) (a b : trace) (r : request)
  (e : js_value) :
  halts promise_rejected_with promise ->
  promise h = (t, o) ->
  t = a ++ Settle r (Rejected e) :: b ->
  store_request r = true ->
  no_failed_request a ->
  nothing_issued b /\ o = Some (Rejected e).
Proof.
  intros H E T S N. specialize (H h e b). rewrite E in H. cbn [fst snd] in H.
  subst t. destruct (H (first_refusal_split _ _ _ _ S N)) as [Q V].
  split; [now apply nothing_issued_forallb | exact V].
Qed.



(** ** The order of the fetches *)

Lemma no_get_gets (t : trace) : issues_only no_get t = true -> gets t = [].
Proof.
  induction t as [|e t IH]; [reflexivity|].
  cbn [issues_only forallb]. intros I. apply andb_prop in I. destruct I as [I1 I2].
  destruct e as [[]|]; try discriminate I1; exact (IH I2).
Qed.

Lemma fetches_in_order_none {A : Type} this keys (m : M A) :
  only_issues no_get m -> fetches_in_order this keys m.
Proof. intros N h. exists 0. cbn. apply no_get_gets, N. Qed.

Lemma fetches_in_order_ret {A : Type} this keys (a : A) :
  fetches_in_order this keys (ret a).
Proof. apply fetches_in_order_none, only_issues_ret. Qed.

Lemma fetches_in_order_after {A B : Type} this keys (m : M A) (f : A -> M B) :
  only_issues no_get m ->
  (forall a, fetches_in_order this keys (f a)) ->
  fetches_in_order this keys (bind m f).
Proof.
  intros N F h. unfold bind. specialize (N h).
  destruct (m h) as [t1 a]. destruct (F a (h ++ t1)) as [n G].
  destruct (f a (h ++ t1)) as [t2 b]. cbn [fst] in *.
  exists n. now rewrite gets_app, (no_get_gets _ N).
Qed.

Lemma get_gets this key (h : trace) :
  String.prefix "s3://" (S3renity.bucket this) = false ->
  gets (fst (S3renity.get this (S3renity.bucket this) key h))
  = [(S3renity.bucket this, key)].
Proof.
  intros P. unfold S3renity.get, S3renity.get_settle, S3renity.get_request.
  rewrite (get_target_pair _ _ P). unfold bind, issue, settle.
  destruct (aws.getObject _ _ _ _); [destruct (S3renity.transformer this)|];
    reflexivity.
Qed.

Lemma fetches_in_order_get {B : Type} this key keys
  (f : outcome string -> M B) :
  String.prefix "s3://" (S3renity.bucket this) = false ->
  (forall a, fetches_in_order this keys (f a)) ->
  fetches_in_order this (key :: keys)
    (bind (S3renity.get this (S3renity.bucket this) key) f).
Proof.
  intros P F h. unfold bind. pose proof (get_gets this key h P) as G.
  destruct (S3renity.get _ _ _ h) as [t1 a]. destruct (F a (h ++ t1)) as [n E].
  destruct (f a (h ++ t1)) as [t2 b]. cbn [fst] in *.
  exists (S n). now rewrite gets_app, G, E.
Qed.

Lemma fetches_in_order_splitObject {B : Type} this key keys delimiter encoding
  (f : outcome (list string) -> M B) :
  String.prefix "s3://" (S3renity.bucket this) = false ->
  (forall a, fetches_in_order this keys (f a)) ->
  fetches_in_order this (key :: keys)
    (bind (S3renity.splitObject this (S3renity.bucket this) key delimiter encoding)
       f).
Proof.
  intros P F h. unfold bind.
  assert (G : gets (fst (S3renity.splitObject this (S3renity.bucket this) key
                           delimiter encoding h))
              = [(S3renity.bucket this, key)]).
  { unfold S3renity.splitObject, bind. pose proof (get_gets this key h P) as G.
    destruct (S3renity.get _ _ _ h) as [t1 [body|err]]; cbn [fst] in *;
      [destruct (body =? "")%string|]; cbn [ret fst]; now rewrite app_nil_r. }
  destruct (S3renity.splitObject _ _ _ _ _ h) as [t1 a].
  destruct (F a (h ++ t1)) as [n E].
  destruct (f a (h ++ t1)) as [t2 b]. cbn [fst] in *.
  exists (S n). now rewrite gets_app, G, E.
Qed.

Section Order.

Variable this : S3renity.t.
Hypothesis bucket_name : String.prefix "s3://" (S3renity.bucket this) = false.

Lemma no_get_put bucket key body :
  only_issues no_get (S3renity.put this bucket key body).
Proof.
  unfold S3renity.put.
  apply only_issues_bind; [now apply only_issues_issue | intros; allow].
Qed.

Lemma no_get_map_output key body :
  only_issues no_get (S3renity.map_output this key body).
Proof.
  unfold S3renity.map_output. destruct (S3renity.hasTarget this); apply no_get_put.
Qed.

Lemma no_get_call {A : Type} (show : A -> js_value) key entry result :
  only_issues no_get (call show key entry result).
Proof. now apply only_issues_call. Qed.

Lemma no_get_calls func isAsync key entries :
  only_issues no_get (S3renity.forEach_eachSplit func isAsync key entries) /\
  only_issues no_get (S3renity.map_mapSplit func isAsync key entries) /\
  only_issues no_get (S3renity.filter_filterSplitObject func isAsync key entries).
Proof.
  assert (E : only_issues no_get (call_each func key entries))
    by now apply only_issues_call_each.
  assert (L : only_issues no_get (call_all func key entries))
    by now apply only_issues_call_all.
  unfold S3renity.forEach_eachSplit, S3renity.map_mapSplit,
    S3renity.filter_filterSplitObject.
  destruct isAsync; (split; [|split]);
    repeat first
      [ assumption
      | apply only_issues_ret
      | apply only_issues_bind; [|intros]
      | match goal with
        | |- only_issues _ (match ?x with _ => _ end) => destruct x
        end ].
Qed.

Lemma no_get_filter_finish keepObjects removeObjects :
  only_issues no_get (S3renity.filter_finish this keepObjects removeObjects).
Proof.
  unfold S3renity.filter_finish. destruct (S3renity.hasTarget this).
  - apply only_issues_bind.
    + apply only_issues_issue_all. rewrite forallb_image.
      apply forallb_forall. reflexivity.
    + intros _. apply only_issues_bind.
      * apply only_issues_await_all. intros key.
        unfold S3renity.copy_settle. apply only_issues_settle.
      * intros promises. destruct (Promise_all promises); apply only_issues_ret.
  - apply only_issues_bind.
    + unfold S3renity.delete, S3renity.deleteObjects.
      apply only_issues_bind;
        [now apply only_issues_issue | intros _; apply only_issues_settle].
    + intros [r|e]; apply only_issues_ret.
Qed.

Lemma no_get_list fuel : only_issues no_get (S3renity.list this fuel).
Proof.
  unfold S3renity.list. generalize (@nil string) (S3renity._marker this).
  induction fuel as [|fuel IH]; intros allKeys marker; cbn [S3renity._keys];
    [apply only_issues_ret|].
  apply only_issues_bind.
  - unfold S3renity.listObjects.
    apply only_issues_bind; [now apply only_issues_issue|]. intros _.
    apply only_issues_bind; [apply only_issues_settle|].
    intros [keys|err]; apply only_issues_ret.
  - intros [keys|err]; [|apply only_issues_ret].
    destruct (List.length keys =? 0)%nat; [apply only_issues_ret | apply IH].
Qed.

(** The steps of an operation, one key after the other. *)
Ltac in_order :=
  repeat first
    [ apply fetches_in_order_ret
    | assumption
    | apply fetches_in_order_none; apply no_get_filter_finish
    | apply (fetches_in_order_get this _ _ _ bucket_name); intros
    | apply (fetches_in_order_splitObject this _ _ _ _ _ bucket_name); intros
    | apply fetches_in_order_after;
      [ first [ apply no_get_call | apply no_get_map_output | apply no_get_put
              | apply no_get_calls ]
      | intros ]
    | match goal with
      | |- fetches_in_order _ _ (match ?x with _ => _ end) => destruct x
      | |- fetches_in_order _ _ (if ?x then _ else _) => destruct x
      end ].

Lemma fetches_in_order_forEach func isAsync keys :
  fetches_in_order this keys (S3renity.forEach_eachObject this func isAsync keys) /\
  fetches_in_order this keys (S3renity.forEach_splitObjects this func isAsync keys).
Proof.
  induction keys as [|key keys [IH1 IH2]];
    cbn [S3renity.forEach_eachObject S3renity.forEach_splitObjects];
    (split; in_order).
Qed.

Lemma fetches_in_order_map func isAsync isSplit keys :
  fetches_in_order this keys
    (S3renity.map_mapObject this func isAsync isSplit keys) /\
  fetches_in_order this keys
    (S3renity.map_splitObjects this func isAsync isSplit keys).
Proof.
  induction keys as [|key keys [IH1 IH2]];
    cbn [S3renity.map_mapObject S3renity.map_splitObjects];
    (split; unfold S3renity.map_continue; in_order).
Qed.

Lemma fetches_in_order_reduce {A : Type}
  (func : A -> string -> string -> outcome A) isAsync keys :
  forall value,
    fetches_in_order this keys
      (S3renity.reduce_reduceObjects this func isAsync keys value).
Proof.
  induction keys as [|key keys IH]; intros value;
    cbn [S3renity.reduce_reduceObjects]; in_order; apply IH.
Qed.

Lemma fetches_in_order_filter func isAsync keys :
  (forall keepObjects removeObjects,
      fetches_in_order this keys
        (S3renity.filter_filterObjects this func isAsync keys keepObjects
           removeObjects)) /\
  fetches_in_order this keys (S3renity.filter_splitObjects this func isAsync keys).
Proof.
  induction keys as [|key keys [IH1 IH2]];
    cbn [S3renity.filter_filterObjects S3renity.filter_splitObjects];
    (split; [intros keepObjects removeObjects|]);
    unfold S3renity.filter_checkResult; in_order; apply IH1.
Qed.

Lemma fetches_in_order_with_keys {A : Type} fuel
  (k : list string -> M (outcome A)) (h t : trace) keys :
  S3renity.list this fuel h = (t, Some (Resolved keys)) ->
  fetches_in_order this keys (k keys) ->
  fetched_in_order this keys (fst (S3renity.with_keys this fuel k h)).
Proof.
  intros L F. rewrite (with_keys_run _ _ _ _ _ _ L). cbn [fst].
  destruct (F (h ++ t)) as [n E]. exists n.
  pose proof (no_get_list fuel h) as N. rewrite L in N. cbn [fst] in N.
  now rewrite gets_app, (no_get_gets _ N).
Qed.

End Order.

Lemma fetches_in_order_then {A B : Type} this keys (m : M A) (g : A -> B) :
  fetches_in_order this keys m ->
  fetches_in_order this keys (bind m (fun a => ret (g a))).
Proof. intros F h. rewrite bind_ret_fst. apply F. Qed.

(** X22: Whatever fails and wherever, [forEach], [map], [reduce] and [filter]
    fetch the objects in the order of the listing and one by one: what a
    run has fetched is a first part of the working set, each key once,
    from the bucket of the instance.  (The bucket of an instance never
    starts with the scheme of an s3 path; [get] would take such a first
    argument for the whole path.) *)
Theorem fetches_follow_listing (this : S3renity.t) (fuel : nat) (h t : trace)
  (keys : list string) :
  String.prefix "s3://" (S3renity.bucket this) = false ->
  S3renity.list this fuel h = (t, Some (Resolved keys)) ->
  (forall func isAsync,
      fetched_in_order this keys
        (fst (S3renity.forEach_promise this fuel func isAsync h))) /\
  (forall func isAsync,
      fetched_in_order this keys
        (fst (S3renity.map_promise this fuel func isAsync h))) /\
  (forall (A : Type) (func : A -> string -> string -> outcome A) initialValue
          isAsync,
      fetched_in_order this keys
        (fst (S3renity.reduce_promise this fuel func initialValue isAsync h))) /\
  (forall func isAsync,
      fetched_in_order this keys
        (fst (S3renity.filter_promise this fuel func isAsync h))).
Proof.
  intros P L.
  unfold S3renity.forEach_promise, S3renity.map_promise, S3renity.reduce_promise,
    S3renity.filter_promise.
  split; [|split; [|split]]; intros;
    apply (fetches_in_order_with_keys this _ _ _ _ _ L);
    destruct (S3renity.delimiter this).
  - apply fetches_in_order_then, (fetches_in_order_forEach this P).
  - apply fetches_in_order_then, (fetches_in_order_forEach this P).
  - apply fetches_in_order_then, (fetches_in_order_map this P).
  - apply fetches_in_order_then, (fetches_in_order_map this P).
  - destruct (S3renity.reduce_splitAndReduceObjects keys initialValue);
      apply fetches_in_order_ret.
  - apply fetches_in_order_then, (fetches_in_order_reduce this P).
  - apply fetches_in_order_then, (fetches_in_order_filter this P).
  - apply fetches_in_order_then, (fetches_in_order_filter this P).
Qed.

Lemma fetches_follow_listing_witness :
  let objects := [("p/a", "x"); ("p/b", "stop"); ("p/c", "z")] in
  let this := store.instance (archive "b" objects) "b" "p" in
  fetched_in_order this ["p/a"; "p/b"; "p/c"]
    (fst (S3renity.forEach_promise this 2 (fail_on "stop" (VStr "no")) false [])).
Proof.
  intros objects this.
  destruct (fetches_follow_listing this 2 [] _ ["p/a"; "p/b"; "p/c"]
              eq_refl eq_refl) as (F & _).
  exact (F (fail_on "stop" (VStr "no")) false).
Defined.
